(** * NYC commute planner: the transit accessibility engine

    A shallow embedding of the routing graph ([utils/routing.ts]), the
    isochrone synthesizer ([utils/isochrone.ts], [utils/distance.ts]) and the
    GTFS preprocessing script ([scripts/preprocess-gtfs.ts]), with the
    properties the specification states about them; then further
    properties of the same code, of the GeoJSON conversion
    ([utils/geojson.ts]) and of the grouping and the isochrone cache of the
    map component ([components/SubwayMap.tsx]).

    Conventions.  JavaScript numbers that hold whole seconds are [Z], up
    to [2 ^ 53], where the doubles are the integers; distances and medians,
    which may be fractional, are [Q], with exact arithmetic, and
    [Rounded.calculateWalkingTime] has the rounding of the doubles as a
    parameter.  A JavaScript [Map] that is only looked up is a [gmap]; a
    [Map] whose iteration order reaches the output is an insertion-ordered
    association list ([JsMap]).  [undefined] is [None].  The search loop
    runs on fuel; the theorems give the fuel that is enough.  The geometry
    library is a parameter, total in the first definitions and with calls
    that may throw in the module [Throwing].  The preprocessing script
    returns, throws, or leaves the model when it meets a number that is
    [NaN] or not a plain decimal ([OutOfModel]); the module [WithNaN] has
    its third pass with [NaN] followed into the edges. *)

From Stdlib Require Import ZArith QArith Qabs Qround Lia Lqa List Sorted Ascii.
From stdpp Require Import base option list sorting strings pretty gmap.

Local Open Scope Z_scope.

(** ** Insertion-ordered maps, as JavaScript's [Map] *)

Section JsMap.
Context {K V : Type} `{EqDecision K}.

(** [Map.prototype.get]. *)
Fixpoint jm_get (m : list (K * V)) (k : K) : option V :=
  match m with
  | [] => None
  | (k', v) :: m' => if decide (k' = k) then Some v else jm_get m' k
  end.

(** [Map.prototype.set]: an existing key keeps its position, a new key
    goes last. *)
Fixpoint jm_set (m : list (K * V)) (k : K) (v : V) : list (K * V) :=
  match m with
  | [] => [(k, v)]
  | (k', v') :: m' =>
      if decide (k' = k) then (k, v) :: m' else (k', v') :: jm_set m' k v
  end.

(** [Map.prototype.has]. *)
Definition jm_has (m : list (K * V)) (k : K) : bool :=
  match jm_get m k with Some _ => true | None => false end.

Definition jm_keys (m : list (K * V)) : list K := m.*1.
End JsMap.

Abbreviation JsMap K V := (list (K * V)).

(** ** Network data model *)

(** [interface Edge] of [types/network.ts]; the travel time is a whole
    number of seconds. *)
Module Edge.
Record t := mk {
  fromId : string;
  toId : string;
  travelTimeSec : Z;
  routeId : string
}.
End Edge.

(** [interface Station] of [types/network.ts]. *)
Module Station.
Record t := mk {
  id : string;
  name : string;
  lat : Q;
  lon : Q;
  accessible : bool;
  routesServed : list string
}.
End Station.

(** [interface ProcessedNetwork] of [types/network.ts], the pair of
    arrays the script writes out. *)
Module ProcessedNetwork.
Record t := mk {
  stations : list Station.t;
  edges : list Edge.t
}.
End ProcessedNetwork.

(** [types/isochrone.ts] *)
Module StartStation.
Record t := mk {
  stationId : string;
  remainingTimeSec : Z
}.
End StartStation.

Module ReachableStation.
Record t := mk {
  stationId : string;
  travelTimeSec : Z
}.
End ReachableStation.

(** ** [Array.prototype.sort] with a numeric comparator

    [xs.sort((a, b) => key(a) - key(b))] is a stable sort by [key]; the
    model is the stable insertion sort. *)

Section StableSort.
Context {A : Type} (leb : A → A → bool).

Fixpoint sort_insert (x : A) (l : list A) : list A :=
  match l with
  | [] => [x]
  | y :: l' => if leb x y then x :: y :: l' else y :: sort_insert x l'
  end.

Definition stable_sort (l : list A) : list A := foldr sort_insert [] l.
End StableSort.

(** ** Graph index and reachability search ([utils/routing.ts]) *)

Abbreviation Graph := (gmap string (list Edge.t)).

(** [buildGraph]: every station gets an empty array, then every edge is
    pushed onto the array of its [fromId], when that station exists. *)
Definition buildGraph (network : ProcessedNetwork.t) : Graph :=
  let graph :=
    foldl (λ (g : Graph) station, <[Station.id station := []]> g)
          ∅ (ProcessedNetwork.stations network) in
  foldl (λ (g : Graph) edge,
           match g !! Edge.fromId edge with
           | Some edges => <[Edge.fromId edge := edges ++ [edge]]> g
           | None => g
           end)
        graph (ProcessedNetwork.edges network).

(** The queue holds [[time, stationId]] pairs and is re-sorted by time
    after every push. *)
Definition sort_queue (queue : list (Z * string)) : list (Z * string) :=
  stable_sort (λ a b, a.1 <=? b.1) queue.

(** The body of [for (const edge of edges)]. *)
Definition relax (maxTimeSec currentTime : Z)
    (st : JsMap string Z * list (Z * string)) (edge : Edge.t)
    : JsMap string Z * list (Z * string) :=
  let '(dist, queue) := st in
  let newTime := currentTime + Edge.travelTimeSec edge in
  if newTime <=? maxTimeSec then
    let improved :=
      match jm_get dist (Edge.toId edge) with
      | None => true
      | Some existingTime => newTime <? existingTime
      end in
    if improved
    then (jm_set dist (Edge.toId edge) newTime,
          sort_queue (queue ++ [(newTime, Edge.toId edge)]))
    else st
  else st.

(** The [while (queue.length > 0)] loop; [fuel] bounds the number of
    iterations and [None] means the bound was hit. *)
Fixpoint search_loop (fuel : nat) (maxTimeSec : Z) (graph : Graph)
    (dist : JsMap string Z) (queue : list (Z * string))
    : option (JsMap string Z) :=
  match queue with
  | [] => Some dist
  | (currentTime, currentId) :: rest =>
      match fuel with
      | O => None
      | S fuel' =>
          let stale :=
            match jm_get dist currentId with
            | Some bestTime => bestTime <? currentTime
            | None => false
            end in
          if stale then search_loop fuel' maxTimeSec graph dist rest
          else if currentTime <=? maxTimeSec then
            match graph !! currentId with
            | Some edges =>
                let '(dist', queue') :=
                  foldl (relax maxTimeSec currentTime) (dist, rest) edges in
                search_loop fuel' maxTimeSec graph dist' queue'
            | None => search_loop fuel' maxTimeSec graph dist rest
            end
          else search_loop fuel' maxTimeSec graph dist rest
      end
  end.

(** Initialisation: every start station with non-negative remaining time
    enters [dist] and the queue at time 0. *)
Definition init_search (startStations : list StartStation.t)
    : JsMap string Z * list (Z * string) :=
  foldl (λ '(dist, queue) start,
           if 0 <=? StartStation.remainingTimeSec start
           then (jm_set dist (StartStation.stationId start) 0,
                 queue ++ [(0, StartStation.stationId start)])
           else (dist, queue))
        ([], []) startStations.

(** The final filter into a fresh map. *)
Definition filter_within (maxTimeSec : Z) (dist : JsMap string Z)
    : JsMap string Z :=
  foldl (λ result '(stationId, time),
           if time <=? maxTimeSec then jm_set result stationId time
           else result)
        [] dist.

Definition findReachableStations (fuel : nat)
    (startStations : list StartStation.t) (maxTimeSec : Z) (graph : Graph)
    : option (JsMap string Z) :=
  let '(dist, queue) := init_search startStations in
  filter_within maxTimeSec <$> search_loop fuel maxTimeSec graph dist (sort_queue queue).

(** ** What the search computes: budget-bounded reachability

    [Reach v d]: station [v] is reached with time [d] by a walk that starts
    at a start station with non-negative remaining time and whose every
    prefix stays within the budget. *)

Section ReachDefs.
Context (graph : Graph) (startStations : list StartStation.t) (maxTimeSec : Z).

Inductive Reach : string → Z → Prop :=
  | Reach_start s :
      s ∈ startStations →
      0 ≤ StartStation.remainingTimeSec s →
      Reach (StartStation.stationId s) 0
  | Reach_step u d edges e :
      Reach u d →
      d ≤ maxTimeSec →
      graph !! u = Some edges →
      e ∈ edges →
      d + Edge.travelTimeSec e ≤ maxTimeSec →
      Reach (Edge.toId e) (d + Edge.travelTimeSec e).

(** [dist'] records, for every station of [dist], a time that is no worse. *)
Definition dist_le (dist dist' : JsMap string Z) : Prop :=
  ∀ v d, jm_get dist v = Some d → ∃ d', jm_get dist' v = Some d' ∧ d' ≤ d.

(** Every edge out of [u] has been relaxed with the time [d]. *)
Definition closed (dist : JsMap string Z) (u : string) (d : Z) : Prop :=
  d ≤ maxTimeSec →
  ∀ edges e, graph !! u = Some edges → e ∈ edges →
    d + Edge.travelTimeSec e ≤ maxTimeSec →
    ∃ d', jm_get dist (Edge.toId e) = Some d' ∧ d' ≤ d + Edge.travelTimeSec e.

(** The invariant of the [while] loop. *)
Record search_inv (dist : JsMap string Z) (queue : list (Z * string)) : Prop := {
  inv_nodup : NoDup (jm_keys dist);
  inv_sound : ∀ v d, jm_get dist v = Some d → Reach v d;
  inv_queue : ∀ c u, (c, u) ∈ queue → ∃ d, jm_get dist u = Some d ∧ d ≤ c;
  inv_pending : ∀ u d, jm_get dist u = Some d → (d, u) ∈ queue ∨ closed dist u d;
  inv_start : ∀ s, s ∈ startStations → 0 ≤ StartStation.remainingTimeSec s →
      ∃ d, jm_get dist (StartStation.stationId s) = Some d ∧ d ≤ 0
}.

(** The invariant of the [for] loop over the edges of the station [u0]
    popped with time [c]; [processed] is the prefix already relaxed. *)
Record relax_inv (u0 : string) (c : Z) (processed : list Edge.t)
    (st : JsMap string Z * list (Z * string)) : Prop := {
  rinv_nodup : NoDup (jm_keys st.1);
  rinv_sound : ∀ v d, jm_get st.1 v = Some d → Reach v d;
  rinv_queue : ∀ c' u, (c', u) ∈ st.2 → ∃ d, jm_get st.1 u = Some d ∧ d ≤ c';
  rinv_pending : ∀ u d, jm_get st.1 u = Some d →
      (d, u) ∈ st.2 ∨ closed st.1 u d ∨ (u = u0 ∧ d = c);
  rinv_start : ∀ s, s ∈ startStations → 0 ≤ StartStation.remainingTimeSec s →
      ∃ d, jm_get st.1 (StartStation.stationId s) = Some d ∧ d ≤ 0;
  rinv_done : ∀ e, e ∈ processed → c + Edge.travelTimeSec e ≤ maxTimeSec →
      ∃ d', jm_get st.1 (Edge.toId e) = Some d' ∧ d' ≤ c + Edge.travelTimeSec e
}.
End ReachDefs.

(** All travel times of the graph are non-negative (section 3 of the
    specification: [travelTimeSec] is a non-negative integer). *)
Definition graph_nonneg (graph : Graph) : Prop :=
  ∀ u edges e, graph !! u = Some edges → e ∈ edges → 0 ≤ Edge.travelTimeSec e.

(** *** A bound on the number of iterations *)

(** Every station a search can ever record. *)
Definition search_universe (startStations : list StartStation.t) (graph : Graph)
    : list string :=
  (StartStation.stationId <$> startStations) ++
  (map_to_list graph ≫= λ '(_, edges), Edge.toId <$> edges).

Definition dist_cost (maxTimeSec : Z) (o : option Z) : nat :=
  match o with
  | Some d => Z.to_nat d
  | None => Z.to_nat (maxTimeSec + 1)
  end.

Definition potential (universe : list string) (maxTimeSec : Z)
    (dist : JsMap string Z) : nat :=
  sum_list ((λ v, dist_cost maxTimeSec (jm_get dist v)) <$> universe).

Definition search_measure (universe : list string) (maxTimeSec : Z)
    (st : JsMap string Z * list (Z * string)) : nat :=
  (2 * potential universe maxTimeSec st.1 + length st.2)%nat.

(** Enough fuel for [findReachableStations] on a graph with non-negative
    travel times. *)
Definition search_fuel (startStations : list StartStation.t) (maxTimeSec : Z)
    (graph : Graph) : nat :=
  search_measure (search_universe startStations graph) maxTimeSec
                 (init_search startStations).

Definition queue_nonneg (queue : list (Z * string)) : Prop :=
  ∀ c u, (c, u) ∈ queue → 0 ≤ c.

(** The invariant of the initialisation loop over a prefix [pre] of the
    start stations. *)
Record init_inv (pre : list StartStation.t)
    (st : JsMap string Z * list (Z * string)) : Prop := {
  iinv_nodup : NoDup (jm_keys st.1);
  iinv_dist : ∀ v d, jm_get st.1 v = Some d →
      d = 0 ∧ (0, v) ∈ st.2 ∧
      ∃ s, s ∈ pre ∧ 0 ≤ StartStation.remainingTimeSec s ∧
           StartStation.stationId s = v;
  iinv_queue : ∀ c u, (c, u) ∈ st.2 → c = 0 ∧ jm_get st.1 u = Some 0;
  iinv_start : ∀ s, s ∈ pre → 0 ≤ StartStation.remainingTimeSec s →
      jm_get st.1 (StartStation.stationId s) = Some 0
}.

(** ** Walking distances ([utils/distance.ts]) *)

(** [Math.round]: the nearest integer, halves going up. *)
Definition Math_round (x : Q) : Z := Qfloor (x + (1 # 2)).

Definition WALKING_SPEED_MPH : Q := 3.

Definition DEFAULT_MAX_WALK_DISTANCE_MILES : Q := 1 # 2.

(** [calculateWalkingTime] with exact arithmetic. *)
Definition calculateWalkingTime (distanceMiles walkSpeedMph : Q) : Z :=
  let timeHours := (distanceMiles / walkSpeedMph)%Q in
  Math_round (timeHours * 3600).

(** [calculateWalkingTime] with the arithmetic of the code: the division
    and the multiplication each round their exact result to a double, which
    [fl] stands for.  The result can differ from the exact one where
    [timeHours * 3600] is next to a half. *)
Module Rounded.
Definition calculateWalkingTime (fl : Q → Q) (distanceMiles walkSpeedMph : Q) : Z :=
  let timeHours := fl (distanceMiles / walkSpeedMph)%Q in
  Math_round (fl (timeHours * 3600)%Q).

(** A rounding to a grid of step [2 ^ -bits], halves going up. *)
Definition to_grid (bits : Z) (x : Q) : Q :=
  (inject_Z (Qfloor (x * inject_Z (2 ^ bits) + (1 # 2))) / inject_Z (2 ^ bits))%Q.
End Rounded.

(** [interface GeocodeResult] of [types/geocoding.ts]. *)
Module GeocodeResult.
Record t := mk {
  longitude : Q;
  latitude : Q;
  placeName : string
}.
End GeocodeResult.

(** An element of the array [findNearestStations] returns. *)
Module NearbyStation.
Record t := mk {
  station : Station.t;
  distanceMiles : Q;
  walkingTimeSec : Z
}.
End NearbyStation.

Section Isochrone.
(** The geometry library (turf) is outside the repository: its distance in
    miles between two [lon, lat] points, its circular buffer and its polygon
    union are parameters.  Here every call of the library returns, and a
    buffer is a polygon; the module [Throwing] below has the same functions
    over a library whose calls may throw. *)
Context (turf_distance : Q * Q → Q * Q → Q).
Context {Polygon : Type}.
Context (turf_buffer : Q * Q → Q → Polygon).
Context (turf_union : list Polygon → option Polygon).

Definition calculateDistance (lat1 lon1 lat2 lon2 : Q) : Q :=
  let from := (lon1, lat1) in
  let to := (lon2, lat2) in
  turf_distance from to.

Definition findNearestStations (officeLat officeLon : Q)
    (stations : list Station.t) (maxWalkDistanceMiles : Q)
    : list NearbyStation.t :=
  let results :=
    foldl (λ results station,
             let distance :=
               calculateDistance officeLat officeLon
                 (Station.lat station) (Station.lon station) in
             if Qle_bool distance maxWalkDistanceMiles then
               let walkingTime := calculateWalkingTime distance WALKING_SPEED_MPH in
               results ++ [NearbyStation.mk station distance walkingTime]
             else results)
          [] stations in
  stable_sort (λ a b, Qle_bool (NearbyStation.distanceMiles a)
                               (NearbyStation.distanceMiles b))
              results.

(** ** Isochrone synthesis ([utils/isochrone.ts]) *)

Definition DEFAULT_MAX_TRAVEL_TIME_SEC : Z := 30 * 60.

Record IsochroneResult := mkIsochroneResult {
  polygon : Polygon;
  reachableStations : list ReachableStation.t;
  totalStations : nat
}.

Definition generateStationBuffer (station : Station.t) (distanceMiles : Q)
    : Polygon :=
  let point := (Station.lon station, Station.lat station) in
  turf_buffer point distanceMiles.

Definition unionBuffers (buffers : list Polygon) : option Polygon :=
  match buffers with
  | [] => None
  | [buffer] => Some buffer
  | _ => turf_union buffers
  end.

(** The update of [reachableStationsMap] with the stations reached from one
    start station, [walkingTimeSec] away from the office. *)
Definition merge_into (walkingTimeSec : Z)
    (reachableStationsMap reachableFromStart : JsMap string Z)
    : JsMap string Z :=
  foldl (λ m '(stationId, subwayTime),
           let totalTime := walkingTimeSec + subwayTime in
           let improved :=
             match jm_get m stationId with
             | None => true
             | Some existingTime => totalTime <? existingTime
             end in
           if improved then jm_set m stationId totalTime else m)
        reachableStationsMap reachableFromStart.

(** The start station the loop of step 4 builds for a nearby station. *)
Definition start_of (maxTravelTimeSec : Z) (nearby : NearbyStation.t)
    : StartStation.t :=
  StartStation.mk (Station.id (NearbyStation.station nearby))
                  (maxTravelTimeSec - NearbyStation.walkingTimeSec nearby).

(** Step 4: one search per nearby station within the budget, merged into
    [reachableStationsMap]; [None] when a search hits the fuel bound. *)
Definition merge_reachable (fuel : nat) (nearbyStations : list NearbyStation.t)
    (maxTravelTimeSec : Z) (graph : Graph) : option (JsMap string Z) :=
  foldl (λ acc nearby,
           reachableStationsMap ← acc;
           if NearbyStation.walkingTimeSec nearby <=? maxTravelTimeSec then
             let startStation := [start_of maxTravelTimeSec nearby] in
             reachableFromStart ←
               findReachableStations fuel startStation
                 (maxTravelTimeSec - NearbyStation.walkingTimeSec nearby) graph;
             Some (merge_into (NearbyStation.walkingTimeSec nearby)
                              reachableStationsMap reachableFromStart)
           else Some reachableStationsMap)
        (Some []) nearbyStations.

(** Steps 5 and 6: the buffers of the reachable stations the network
    knows. *)
Definition stationBuffers (network : ProcessedNetwork.t) (walkDistanceMiles : Q)
    (reachable : list ReachableStation.t) : list Polygon :=
  let stationMap : gmap string Station.t :=
    foldl (λ (m : gmap string Station.t) station, <[Station.id station := station]> m)
          ∅ (ProcessedNetwork.stations network) in
  foldl (λ buffers reachable,
           match stationMap !! ReachableStation.stationId reachable with
           | Some station => buffers ++ [generateStationBuffer station walkDistanceMiles]
           | None => buffers
           end)
        [] reachable.

(** [createIsochrone].  The outer [None] means that a search hit the fuel
    bound; [Some None] is the [null] result. *)
Definition createIsochrone (fuel : nat) (officeLocation : GeocodeResult.t)
    (network : ProcessedNetwork.t) (maxTravelTimeSec : Z)
    (walkDistanceMiles maxWalkDistanceMiles : Q)
    : option (option IsochroneResult) :=
  let nearbyStations :=
    findNearestStations (GeocodeResult.latitude officeLocation)
      (GeocodeResult.longitude officeLocation)
      (ProcessedNetwork.stations network) maxWalkDistanceMiles in
  if (length nearbyStations =? 0)%nat then Some None else
  let graph := buildGraph network in
  let startStations := start_of maxTravelTimeSec <$> nearbyStations in
  let validStartStations :=
    filter (λ s, 0 < StartStation.remainingTimeSec s) startStations in
  if (length validStartStations =? 0)%nat then Some None else
  reachableStationsMap ← merge_reachable fuel nearbyStations maxTravelTimeSec graph;
  let reachableStations :=
    (λ '(stationId, travelTimeSec), ReachableStation.mk stationId travelTimeSec)
      <$> reachableStationsMap in
  if (length reachableStations =? 0)%nat then Some None else
  let buffers := stationBuffers network walkDistanceMiles reachableStations in
  match unionBuffers buffers with
  | None => Some None
  | Some unionedPolygon =>
      Some (Some (mkIsochroneResult unionedPolygon reachableStations
                                    (length reachableStations)))
  end.

(** Enough fuel for every search of step 4. *)
Definition isochrone_fuel (nearbyStations : list NearbyStation.t)
    (maxTravelTimeSec : Z) (graph : Graph) : nat :=
  foldr (λ nearby acc,
           Nat.max (search_fuel [start_of maxTravelTimeSec nearby]
                      (maxTravelTimeSec - NearbyStation.walkingTimeSec nearby) graph)
                   acc)
        0%nat nearbyStations.
End Isochrone.

Definition network_nonneg (network : ProcessedNetwork.t) : Prop :=
  ∀ e, e ∈ ProcessedNetwork.edges network → 0 ≤ Edge.travelTimeSec e.

(** ** Isochrone synthesis over a geometry library that may throw

    [turf.point] throws on coordinates that are not numbers, [turf.buffer]
    may give [undefined], and [turf.union] may throw or give [null].  The
    definitions above take the library as total functions; the ones of this
    module take it as it is, and [createIsochrone], which has no [try],
    passes an exception on. *)

(** What a call gives back: a value, or an exception. *)
Inductive call (A : Type) :=
  | Value (a : A)
  | Throws.
Arguments Value {A} a.
Arguments Throws {A}.

#[global] Instance call_ret : MRet call := λ A a, Value a.

#[global] Instance call_bind : MBind call := λ A B f m,
  match m with
  | Value a => f a
  | Throws => Throws
  end.

(** A [for] loop whose body may throw. *)
Fixpoint foldl_call {A B} (f : A → B → call A) (a : A) (l : list B) : call A :=
  match l with
  | [] => Value a
  | x :: l' => a' ← f a x; foldl_call f a' l'
  end.

Module Throwing.
Section Isochrone.
(** [turf_distance] stands for the two [turf.point] and the
    [turf.distance] of [calculateDistance], [turf_buffer] for the
    [turf.point] and the [turf.buffer] of [generateStationBuffer], which may
    be [undefined], and [turf_union] for [turf.featureCollection] and
    [turf.union], whose [null] or [undefined] is [None]. *)
Context (turf_distance : Q * Q → Q * Q → call Q).
Context {Polygon : Type}.
Context (turf_buffer : Q * Q → Q → call (option Polygon)).
Context (turf_union : list (option Polygon) → call (option Polygon)).

Definition calculateDistance (lat1 lon1 lat2 lon2 : Q) : call Q :=
  let from := (lon1, lat1) in
  let to := (lon2, lat2) in
  turf_distance from to.

Definition findNearestStations (officeLat officeLon : Q)
    (stations : list Station.t) (maxWalkDistanceMiles : Q)
    : call (list NearbyStation.t) :=
  results ←
    foldl_call (λ results station,
                  distance ← calculateDistance officeLat officeLon
                                (Station.lat station) (Station.lon station);
                  if Qle_bool distance maxWalkDistanceMiles then
                    let walkingTime := calculateWalkingTime distance WALKING_SPEED_MPH in
                    Value (results ++ [NearbyStation.mk station distance walkingTime])
                  else Value results)
               [] stations;
  Value (stable_sort (λ a b, Qle_bool (NearbyStation.distanceMiles a)
                                      (NearbyStation.distanceMiles b))
                     results).

Definition generateStationBuffer (station : Station.t) (distanceMiles : Q)
    : call (option Polygon) :=
  let point := (Station.lon station, Station.lat station) in
  turf_buffer point distanceMiles.

(** [unionBuffers]: [null] and [undefined] are both [None]. *)
Definition unionBuffers (buffers : list (option Polygon)) : call (option Polygon) :=
  match buffers with
  | [] => Value None
  | [buffer] => Value buffer
  | _ => turf_union buffers
  end.

(** Steps 5 and 6. *)
Definition stationBuffers (network : ProcessedNetwork.t) (walkDistanceMiles : Q)
    (reachable : list ReachableStation.t) : call (list (option Polygon)) :=
  let stationMap : gmap string Station.t :=
    foldl (λ (m : gmap string Station.t) station, <[Station.id station := station]> m)
          ∅ (ProcessedNetwork.stations network) in
  foldl_call (λ buffers reachable,
                match stationMap !! ReachableStation.stationId reachable with
                | Some station =>
                    buffer ← generateStationBuffer station walkDistanceMiles;
                    Value (buffers ++ [buffer])
                | None => Value buffers
                end)
             [] reachable.

(** [createIsochrone].  The outer [None] means that a search hit the fuel
    bound; [Some Throws] is an exception of the library, passed on;
    [Some (Value None)] is the [null] result. *)
Definition createIsochrone (fuel : nat) (officeLocation : GeocodeResult.t)
    (network : ProcessedNetwork.t) (maxTravelTimeSec : Z)
    (walkDistanceMiles maxWalkDistanceMiles : Q)
    : option (call (option (IsochroneResult (Polygon := Polygon)))) :=
  match findNearestStations (GeocodeResult.latitude officeLocation)
          (GeocodeResult.longitude officeLocation)
          (ProcessedNetwork.stations network) maxWalkDistanceMiles with
  | Throws => Some Throws
  | Value nearbyStations =>
      if (length nearbyStations =? 0)%nat then Some (Value None) else
      let graph := buildGraph network in
      let startStations := start_of maxTravelTimeSec <$> nearbyStations in
      let validStartStations :=
        filter (λ s, 0 < StartStation.remainingTimeSec s) startStations in
      if (length validStartStations =? 0)%nat then Some (Value None) else
      match merge_reachable fuel nearbyStations maxTravelTimeSec graph with
      | None => None
      | Some reachableStationsMap =>
          let reachableStations :=
            (λ '(stationId, travelTimeSec), ReachableStation.mk stationId travelTimeSec)
              <$> reachableStationsMap in
          if (length reachableStations =? 0)%nat then Some (Value None) else
          Some (buffers ← stationBuffers network walkDistanceMiles reachableStations;
                unionedPolygon ← unionBuffers buffers;
                match unionedPolygon with
                | None => Value None
                | Some polygon =>
                    Value (Some (mkIsochroneResult polygon reachableStations
                                                   (length reachableStations)))
                end)
      end
  end.
End Isochrone.
End Throwing.

(** *** What the merge of step 4 computes *)

(** [candidate_total ... v T]: some nearby station within the budget reaches
    [v] with the total time [T] = walking time to that station + transit
    time of the search run from it alone, with the budget that is left. *)
Definition candidate_total (fuel : nat) (maxTravelTimeSec : Z) (graph : Graph)
    (nearbyStations : list NearbyStation.t) (v : string) (T : Z) : Prop :=
  ∃ nearby reachableFromStart subwayTime,
    nearby ∈ nearbyStations ∧
    NearbyStation.walkingTimeSec nearby ≤ maxTravelTimeSec ∧
    findReachableStations fuel [start_of maxTravelTimeSec nearby]
      (maxTravelTimeSec - NearbyStation.walkingTimeSec nearby) graph
      = Some reachableFromStart ∧
    jm_get reachableFromStart v = Some subwayTime ∧
    T = NearbyStation.walkingTimeSec nearby + subwayTime.

Definition min_total (fuel : nat) (maxTravelTimeSec : Z) (graph : Graph)
    (nearbyStations : list NearbyStation.t) (v : string) (T : Z) : Prop :=
  candidate_total fuel maxTravelTimeSec graph nearbyStations v T ∧
  ∀ T', candidate_total fuel maxTravelTimeSec graph nearbyStations v T' → T ≤ T'.

(** The invariant of the loop of step 4. *)
Record merge_inv (fuel : nat) (maxTravelTimeSec : Z) (graph : Graph)
    (pre : list NearbyStation.t) (merged : JsMap string Z) : Prop := {
  minv_nodup : NoDup (jm_keys merged);
  minv_sound : ∀ v T, jm_get merged v = Some T →
      candidate_total fuel maxTravelTimeSec graph pre v T;
  minv_least : ∀ v T', candidate_total fuel maxTravelTimeSec graph pre v T' →
      ∃ T, jm_get merged v = Some T ∧ T ≤ T'
}.

(** A geometry library that never throws, seen as one that may: every call
    returns, and a buffer is never [undefined]. *)
Definition returning_distance (turf_distance : Q * Q → Q * Q → Q)
    (from to : Q * Q) : call Q :=
  Value (turf_distance from to).

Definition returning_buffer {Polygon} (turf_buffer : Q * Q → Q → Polygon)
    (point : Q * Q) (distanceMiles : Q) : call (option Polygon) :=
  Value (Some (turf_buffer point distanceMiles)).

Definition returning_union {Polygon} (turf_union : list Polygon → option Polygon)
    (buffers : list (option Polygon)) : call (option Polygon) :=
  Value (turf_union (omap id buffers)).

(** ** GTFS preprocessing ([scripts/preprocess-gtfs.ts])

    Strings are sequences of ASCII characters.  An array read out of range
    or at index -1 is [undefined], that is [None]. *)

(** *** Outcomes of the script *)

Inductive error :=
  | ENOENT (path : string)   (* [fs.readFileSync] on a missing file *)
  | TypeError.               (* a method called on [undefined] *)

(** [OutOfModel]: the run met a JavaScript number that is [NaN] or is
    written in a form other than plain decimal digits (sign, exponent,
    hexadecimal, ...); the model says nothing about such a run. *)
Inductive outcome (A : Type) :=
  | Returned (a : A)
  | Threw (e : error)
  | OutOfModel.
Arguments Returned {A} a.
Arguments Threw {A} e.
Arguments OutOfModel {A}.

#[global] Instance outcome_ret : MRet outcome := λ A a, Returned a.

#[global] Instance outcome_bind : MBind outcome := λ A B f m,
  match m with
  | Returned a => f a
  | Threw e => Threw e
  | OutOfModel => OutOfModel
  end.

(** A [for] loop whose body may throw. *)
Fixpoint foldlM {A B} (f : A → B → outcome A) (a : A) (l : list B) : outcome A :=
  match l with
  | [] => Returned a
  | x :: l' => a' ← f a x; foldlM f a' l'
  end.

Definition of_number {A} (o : option A) : outcome A :=
  match o with Some a => Returned a | None => OutOfModel end.

(** *** Strings and arrays *)

(** [String.prototype.trim] on ASCII text, where the white space is the
    tab, the line feed, the vertical tab, the form feed, the carriage return
    and the space. *)
Fixpoint trim_start (s : string) : string :=
  match s with
  | String c s' => if Ascii.is_space c then trim_start s' else s
  | EmptyString => EmptyString
  end.

Definition trim (s : string) : string :=
  String.rev (trim_start (String.rev (trim_start s))).

(** [String.prototype.split] with a separator of one character; [current]
    is the part being read, reversed. *)
Fixpoint split_go (sep : ascii) (current : string) (s : string) : list string :=
  match s with
  | EmptyString => [String.rev current]
  | String c s' =>
      if Ascii.eqb c sep then String.rev current :: split_go sep EmptyString s'
      else split_go sep (String c current) s'
  end.

Definition split_on (sep : ascii) (s : string) : list string :=
  split_go sep EmptyString s.

(** [xs[i]]. *)
Definition js_index {A} (xs : list A) (i : Z) : option A :=
  if i <? 0 then None else xs !! Z.to_nat i.

(** [Array.prototype.indexOf]. *)
Fixpoint indexOf_from (i : Z) (xs : list string) (x : string) : Z :=
  match xs with
  | [] => -1
  | y :: ys => if decide (y = x) then i else indexOf_from (i + 1) ys x
  end.

Definition indexOf (xs : list string) (x : string) : Z := indexOf_from 0 xs x.

(** Truthiness of a value that is a string or [undefined]. *)
Definition truthy (v : option string) : bool :=
  match v with
  | Some s => bool_decide (s ≠ EmptyString)
  | None => false
  end.

(** A value inside a template literal. *)
Definition template (v : option string) : string := default "undefined" v.

(** *** Numbers read from text *)

Fixpoint digits_value (acc : Z) (s : string) : option Z :=
  match s with
  | EmptyString => Some acc
  | String c s' => d ← Ascii.is_nat c; digits_value (10 * acc + Z.of_nat d) s'
  end.

(** The integers up to 2^53 are doubles, and sums and products of such
    integers are exact as long as they stay within this bound. *)
Definition MAX_EXACT_INTEGER : Z := 2 ^ 53.

(** [Number(s)] where it is a non-negative integer that a double holds
    exactly: blank text is 0, decimal digits are their value.  [None] is
    any other text, whether JavaScript reads it as [NaN] or as another
    number (a sign, a fraction, an exponent, hexadecimal, more digits than
    a double holds). *)
Definition js_Number (s : string) : option Z :=
  n ← digits_value 0 (trim s);
  if n <=? MAX_EXACT_INTEGER then Some n else None.

Fixpoint digit_prefix (s : string) : string :=
  match s with
  | String c s' =>
      match Ascii.is_nat c with
      | Some _ => String c (digit_prefix s')
      | None => EmptyString
      end
  | EmptyString => EmptyString
  end.

(** [parseInt(v, 10)]: leading blanks, a sign, then the longest run of
    digits; [NaN] without a digit. *)
Definition js_parseInt (v : option string) : option Z :=
  match v with
  | None => None
  | Some s =>
      let '(sign, body) :=
        match trim_start s with
        | String "-" r => (-1, r)
        | String "+" r => (1, r)
        | t => (1, t)
        end in
      let digits := digit_prefix body in
      if decide (digits = EmptyString) then None
      else (λ n, sign * n) <$> digits_value 0 digits
  end.

(** [parseFloat(v)] on plain decimals: a sign, digits, and at most one
    point. *)
Definition js_parseFloat (v : option string) : option Q :=
  match v with
  | None => None
  | Some s =>
      let '(sign, body) :=
        match trim s with
        | String "-" r => ((-1)%Q, r)
        | String "+" r => (1%Q, r)
        | t => (1%Q, t)
        end in
      match split_on "." body with
      | [int] =>
          if decide (int = EmptyString) then None
          else (λ n, sign * inject_Z n)%Q <$> digits_value 0 int
      | [int; frac] =>
          if decide (int = EmptyString ∧ frac = EmptyString) then None
          else
            i ← digits_value 0 int;
            f ← digits_value 0 frac;
            Some (sign * (inject_Z i +
                          inject_Z f / inject_Z (10 ^ Z.of_nat (String.length frac))))%Q
      | _ => None
      end
  end.

(** *** The helpers of the script *)

(** One line of a CSV file; a double quote toggles [inQuotes] and is
    dropped, a comma outside quotes ends the field. *)
Fixpoint parse_fields (line : string) (result : list string) (current : string)
    (inQuotes : bool) : list string :=
  match line with
  | EmptyString => result ++ [current]
  | String char rest =>
      if Ascii.eqb char "034" then parse_fields rest result current (negb inQuotes)
      else if Ascii.eqb char "," && negb inQuotes
      then parse_fields rest (result ++ [current]) EmptyString inQuotes
      else parse_fields rest result (current +:+ String char EmptyString) inQuotes
  end.

(** [parseCSV]; the file system maps the name of a file of the GTFS
    directory to its content. *)
Definition parseCSV (fs : string → option string) (filePath : string)
    : outcome (list (list string)) :=
  match fs filePath with
  | None => Threw (ENOENT filePath)
  | Some content =>
      let lines := split_on "010" (trim content) in
      Returned ((λ line, parse_fields line [] EmptyString false) <$> lines)
  end.

(** [timeToSeconds]: [split(':').map(Number)], then the first three
    elements.  This is the function on the times that are whole numbers of
    seconds, computed exactly: fewer than three parts (the result is [NaN]),
    a part [Number] does not read as such an integer, or a result beyond
    the exact integers, is [OutOfModel] here; [WithNaN.timeToSeconds] below
    follows the [NaN]. *)
Definition timeToSeconds (timeStr : option string) : outcome Z :=
  match timeStr with
  | None => Threw TypeError
  | Some str =>
      let parts := js_Number <$> split_on ":" str in
      match parts !! 0%nat, parts !! 1%nat, parts !! 2%nat with
      | Some (Some hours), Some (Some minutes), Some (Some seconds) =>
          let total := hours * 3600 + minutes * 60 + seconds in
          if total <=? MAX_EXACT_INTEGER then Returned total else OutOfModel
      | _, _, _ => OutOfModel
      end
  end.

(** [median]; [None] is the [NaN] of the empty array. *)
Definition median (numbers : list Z) : option Q :=
  let sorted := stable_sort Z.leb numbers in
  let mid := Z.of_nat (length sorted) / 2 in
  if Z.of_nat (length sorted) mod 2 =? 0
  then
    a ← js_index sorted (mid - 1);
    b ← js_index sorted mid;
    Some ((inject_Z a + inject_Z b) / 2)%Q
  else inject_Z <$> js_index sorted mid.

(** *** The passes of [preprocessGTFS] *)

(** An element of the arrays of [tripStopTimes]. *)
Module StopTime.
Record t := mk {
  stopId : option string;
  arrivalTime : option string;
  departureTime : option string;
  sequence : Z
}.
End StopTime.

(** [m.get(k)] for a map whose values may be [undefined]. *)
Definition cell_get (m : gmap (option string) (option string)) (k : option string)
    : option string :=
  mjoin (m !! k).

(** First pass: parent stations, and the parent of each child stop. *)
Definition readStations (stopsHeader : list string) (rows : list (list string))
    : outcome (JsMap string Station.t * gmap (option string) string) :=
  let stopIdIdx := indexOf stopsHeader "stop_id" in
  let stopNameIdx := indexOf stopsHeader "stop_name" in
  let stopLatIdx := indexOf stopsHeader "stop_lat" in
  let stopLonIdx := indexOf stopsHeader "stop_lon" in
  let locationTypeIdx := indexOf stopsHeader "location_type" in
  let parentStationIdx := indexOf stopsHeader "parent_station" in
  foldlM (λ '(stationsMap, stopToParent) row,
            let stopId := js_index row stopIdIdx in
            let locationType := js_index row locationTypeIdx in
            let parentStation := js_index row parentStationIdx in
            if decide (locationType = Some "1") then
              (* a station whose id or name is [undefined], or whose
                 coordinates are not plain decimals, is out of the model *)
              id ← of_number stopId;
              name ← of_number (js_index row stopNameIdx);
              lat ← of_number (js_parseFloat (js_index row stopLatIdx));
              lon ← of_number (js_parseFloat (js_index row stopLonIdx));
              Returned (jm_set stationsMap id (Station.mk id name lat lon false []),
                        stopToParent)
            else
              match parentStation with
              | Some parent =>
                  if truthy parentStation
                  then Returned (stationsMap, <[stopId := parent]> stopToParent)
                  else Returned (stationsMap, stopToParent)
              | None => Returned (stationsMap, stopToParent)
              end)
         ([], ∅) rows.

(** [trip_id -> route_id]. *)
Definition readTrips (tripsHeader : list string) (rows : list (list string))
    : gmap (option string) (option string) :=
  let tripsTripIdIdx := indexOf tripsHeader "trip_id" in
  let routeIdIdx := indexOf tripsHeader "route_id" in
  foldl (λ (tripToRoute : gmap (option string) (option string)) row,
           <[js_index row tripsTripIdIdx := js_index row routeIdIdx]> tripToRoute)
        ∅ rows.

(** [route_id -> route_short_name]. *)
Definition readRoutes (routesHeader : list string) (rows : list (list string))
    : gmap (option string) (option string) :=
  let routeIdRoutesIdx := indexOf routesHeader "route_id" in
  let routeShortNameIdx := indexOf routesHeader "route_short_name" in
  foldl (λ (routeIdToShortName : gmap (option string) (option string)) row,
           <[js_index row routeIdRoutesIdx := js_index row routeShortNameIdx]>
             routeIdToShortName)
        ∅ rows.

(** [stopToParent.get(stopId) || stopId]. *)
Definition parentOf (stopToParent : gmap (option string) string)
    (stopId : option string) : option string :=
  match stopToParent !! stopId with
  | Some parent => if truthy (Some parent) then Some parent else stopId
  | None => stopId
  end.

(** [Set.prototype.add] on an insertion-ordered set. *)
Definition set_add (s : list string) (x : string) : list string :=
  if decide (x ∈ s) then s else s ++ [x].

(** Second pass: the route short names seen at each parent station. *)
Definition collectRoutes (stopTimesHeader : list string) (rows : list (list string))
    (stopToParent : gmap (option string) string)
    (tripToRoute routeIdToShortName : gmap (option string) (option string))
    : gmap (option string) (list string) :=
  let tripIdIdx := indexOf stopTimesHeader "trip_id" in
  let stopTimesStopIdIdx := indexOf stopTimesHeader "stop_id" in
  foldl (λ (stopToRoutes : gmap (option string) (list string)) row,
           let tripId := js_index row tripIdIdx in
           let stopId := js_index row stopTimesStopIdIdx in
           let parentId := parentOf stopToParent stopId in
           let routeId := cell_get tripToRoute tripId in
           if truthy routeId then
             match cell_get routeIdToShortName routeId with
             | Some routeShortName =>
                 if truthy (Some routeShortName)
                 then <[parentId := set_add (default [] (stopToRoutes !! parentId))
                                            routeShortName]> stopToRoutes
                 else stopToRoutes
             | None => stopToRoutes
             end
           else stopToRoutes)
        ∅ rows.

(** [station.routesServed = Array.from(routesSet).sort()]. *)
Definition attachRoutes (stationsMap : JsMap string Station.t)
    (stopToRoutes : gmap (option string) (list string)) : JsMap string Station.t :=
  (λ '(stationId, station),
     match stopToRoutes !! Some stationId with
     | Some routesSet =>
         (stationId,
          Station.mk (Station.id station) (Station.name station)
            (Station.lat station) (Station.lon station) (Station.accessible station)
            (stable_sort String.leb routesSet))
     | None => (stationId, station)
     end) <$> stationsMap.

(** Third pass, grouping: the stop times of each trip, in file order.  A
    [stop_sequence] that [parseInt] turns into [NaN] is out of the model. *)
Definition groupStopTimes (stopTimesHeader : list string) (rows : list (list string))
    : outcome (JsMap (option string) (list StopTime.t)) :=
  let tripIdIdx := indexOf stopTimesHeader "trip_id" in
  let stopTimesStopIdIdx := indexOf stopTimesHeader "stop_id" in
  let arrivalTimeIdx := indexOf stopTimesHeader "arrival_time" in
  let departureTimeIdx := indexOf stopTimesHeader "departure_time" in
  let stopSequenceIdx := indexOf stopTimesHeader "stop_sequence" in
  foldlM (λ tripStopTimes row,
            let tripId := js_index row tripIdIdx in
            let stopId := js_index row stopTimesStopIdIdx in
            let arrivalTime := js_index row arrivalTimeIdx in
            let departureTime := js_index row departureTimeIdx in
            sequence ← of_number (js_parseInt (js_index row stopSequenceIdx));
            Returned (jm_set tripStopTimes tripId
                        (default [] (jm_get tripStopTimes tripId) ++
                         [StopTime.mk stopId arrivalTime departureTime sequence])))
         [] rows.

(** The overnight correction. *)
Definition adjustedTravelTime (fromTime toTime : Z) : Z :=
  let travelTime := toTime - fromTime in
  if travelTime <? 0 then travelTime + 86400 else travelTime.

(** The body of the loop over consecutive stops, up to the push: the edge
    key and the travel time to record, or [None] after a [continue]. *)
Definition observe (stopToParent : gmap (option string) string) (routeId : string)
    (fromStop toStop : StopTime.t) : outcome (option (string * Z)) :=
  let fromParentId := parentOf stopToParent (StopTime.stopId fromStop) in
  let toParentId := parentOf stopToParent (StopTime.stopId toStop) in
  if decide (fromParentId = toParentId) then Returned None else
  fromTime ← timeToSeconds (StopTime.departureTime fromStop);
  toTime ← timeToSeconds (StopTime.arrivalTime toStop);
  let adjusted := adjustedTravelTime fromTime toTime in
  if (adjusted <? 0) || (3600 <? adjusted) then Returned None else
  let edgeKey := template fromParentId +:+ "|" +:+ template toParentId +:+ "|" +:+ routeId in
  Returned (Some (edgeKey, adjusted)).

(** The push onto the array of the edge key. *)
Definition record_observation (edgeTravelTimes : JsMap string (list Z))
    (observation : option (string * Z)) : JsMap string (list Z) :=
  match observation with
  | None => edgeTravelTimes
  | Some (edgeKey, adjustedTravelTime) =>
      jm_set edgeTravelTimes edgeKey
        (default [] (jm_get edgeTravelTimes edgeKey) ++ [adjustedTravelTime])
  end.

(** The consecutive pairs [(stops[i], stops[i + 1])]. *)
Definition consecutive (stops : list StopTime.t) : list (StopTime.t * StopTime.t) :=
  zip stops (drop 1 stops).

(** Third pass, edges: the travel times observed for each edge key. *)
Definition collectTravelTimes (stopToParent : gmap (option string) string)
    (tripToRoute : gmap (option string) (option string))
    (tripStopTimes : JsMap (option string) (list StopTime.t))
    : outcome (JsMap string (list Z)) :=
  foldlM (λ edgeTravelTimes '(tripId, stops),
            let stops := stable_sort (λ a b, StopTime.sequence a <=? StopTime.sequence b)
                                     stops in
            match cell_get tripToRoute tripId with
            | Some routeId =>
                if truthy (Some routeId) then
                  foldlM (λ edgeTravelTimes '(fromStop, toStop),
                            observation ← observe stopToParent routeId fromStop toStop;
                            Returned (record_observation edgeTravelTimes observation))
                         edgeTravelTimes (consecutive stops)
                else Returned edgeTravelTimes
            | None => Returned edgeTravelTimes
            end)
         [] tripStopTimes.

(** One edge per key, with the rounded median of its travel times.  The
    key always splits into three parts or more and its array is never
    empty; [Edge.t] has no room for the [undefined] and [NaN] of the other
    cases. *)
Definition aggregateEdges (edgeTravelTimes : JsMap string (list Z))
    : outcome (list Edge.t) :=
  foldlM (λ edges '(edgeKey, travelTimes),
            match split_on "|" edgeKey with
            | fromId :: toId :: routeId :: _ =>
                medianTime ← of_number (median travelTimes);
                Returned (edges ++ [Edge.mk fromId toId (Math_round medianTime) routeId])
            | _ => OutOfModel
            end)
         [] edgeTravelTimes.

Definition preprocessGTFS (fs : string → option string) : outcome ProcessedNetwork.t :=
  stops ← parseCSV fs "stops.txt";
  stopTimes ← parseCSV fs "stop_times.txt";
  trips ← parseCSV fs "trips.txt";
  routes ← parseCSV fs "routes.txt";
  match stops, stopTimes, trips, routes with
  | stopsHeader :: stopRows, stopTimesHeader :: stopTimeRows,
    tripsHeader :: tripRows, routesHeader :: routeRows =>
      '(stationsMap, stopToParent) ← readStations stopsHeader stopRows;
      let tripToRoute := readTrips tripsHeader tripRows in
      let routeIdToShortName := readRoutes routesHeader routeRows in
      let stopToRoutes :=
        collectRoutes stopTimesHeader stopTimeRows stopToParent tripToRoute
                      routeIdToShortName in
      let stationsMap := attachRoutes stationsMap stopToRoutes in
      tripStopTimes ← groupStopTimes stopTimesHeader stopTimeRows;
      edgeTravelTimes ← collectTravelTimes stopToParent tripToRoute tripStopTimes;
      edges ← aggregateEdges edgeTravelTimes;
      let stations := stationsMap.*2 in
      Returned (ProcessedNetwork.mk stations edges)
  | _, _, _, _ => Threw TypeError
  end.

(** [main]: the network is written out, or the error is logged and the
    process exits with code 1. *)
Inductive exit :=
  | Wrote (network : ProcessedNetwork.t)
  | Exit (code : Z).

Definition main (fs : string → option string) : outcome exit :=
  match preprocessGTFS fs with
  | Returned network => Returned (Wrote network)
  | Threw _ => Returned (Exit 1)
  | OutOfModel => OutOfModel
  end.

Definition required_files : list string :=
  ["stops.txt"; "stop_times.txt"; "trips.txt"; "routes.txt"].

(** ** The third pass with [NaN]

    The edges of the script carry [Math.round] of a median, and that is
    [NaN] where a time of the feed has fewer than three parts: a blank
    arrival or departure time, as GTFS allows for a stop that is not a
    timepoint, or a time without seconds.  The definitions above stop at
    such a time ([OutOfModel]); the ones of this module follow the [NaN]
    through the comparisons, which it fails, into the edge.  [None] is
    [NaN]. *)

(** An edge as the script emits it. *)
Module EmittedEdge.
Record t := mk {
  fromId : string;
  toId : string;
  travelTimeSec : option Z;
  routeId : string
}.
End EmittedEdge.

Module EmittedNetwork.
Record t := mk {
  stations : list Station.t;
  edges : list EmittedEdge.t
}.
End EmittedNetwork.

Module WithNaN.

(** [a - b], [a + b] and [a < b] on numbers that may be [NaN]. *)
Definition sub (a b : option Z) : option Z := x ← a; y ← b; Some (x - y).

Definition add (a b : option Z) : option Z := x ← a; y ← b; Some (x + y).

Definition ltb (a b : option Z) : bool :=
  match a, b with
  | Some x, Some y => x <? y
  | _, _ => false
  end.

(** [timeToSeconds]: with fewer than three parts [seconds] (or [minutes])
    is [undefined] and the sum is [NaN], whatever the other parts are. *)
Definition timeToSeconds (timeStr : option string) : outcome (option Z) :=
  match timeStr with
  | None => Threw TypeError
  | Some str =>
      match split_on ":" str with
      | hours :: minutes :: seconds :: _ =>
          match js_Number hours, js_Number minutes, js_Number seconds with
          | Some hours, Some minutes, Some seconds =>
              let total := hours * 3600 + minutes * 60 + seconds in
              if total <=? MAX_EXACT_INTEGER then Returned (Some total) else OutOfModel
          | _, _, _ => OutOfModel
          end
      | _ => Returned None
      end
  end.

(** [travelTime < 0 ? travelTime + 86400 : travelTime]. *)
Definition adjustedTravelTime (fromTime toTime : option Z) : option Z :=
  let travelTime := sub toTime fromTime in
  if ltb travelTime (Some 0) then add travelTime (Some 86400) else travelTime.

(** The body of the loop over consecutive stops, up to the push. *)
Definition observe (stopToParent : gmap (option string) string) (routeId : string)
    (fromStop toStop : StopTime.t) : outcome (option (string * option Z)) :=
  let fromParentId := parentOf stopToParent (StopTime.stopId fromStop) in
  let toParentId := parentOf stopToParent (StopTime.stopId toStop) in
  if decide (fromParentId = toParentId) then Returned None else
  fromTime ← timeToSeconds (StopTime.departureTime fromStop);
  toTime ← timeToSeconds (StopTime.arrivalTime toStop);
  let adjusted := adjustedTravelTime fromTime toTime in
  if ltb adjusted (Some 0) || ltb (Some 3600) adjusted then Returned None else
  let edgeKey := template fromParentId +:+ "|" +:+ template toParentId +:+ "|" +:+ routeId in
  Returned (Some (edgeKey, adjusted)).

Definition record_observation (edgeTravelTimes : JsMap string (list (option Z)))
    (observation : option (string * option Z)) : JsMap string (list (option Z)) :=
  match observation with
  | None => edgeTravelTimes
  | Some (edgeKey, adjustedTravelTime) =>
      jm_set edgeTravelTimes edgeKey
        (default [] (jm_get edgeTravelTimes edgeKey) ++ [adjustedTravelTime])
  end.

Definition collectTravelTimes (stopToParent : gmap (option string) string)
    (tripToRoute : gmap (option string) (option string))
    (tripStopTimes : JsMap (option string) (list StopTime.t))
    : outcome (JsMap string (list (option Z))) :=
  foldlM (λ edgeTravelTimes '(tripId, stops),
            let stops := stable_sort (λ a b, StopTime.sequence a <=? StopTime.sequence b)
                                     stops in
            match cell_get tripToRoute tripId with
            | Some routeId =>
                if truthy (Some routeId) then
                  foldlM (λ edgeTravelTimes '(fromStop, toStop),
                            observation ← observe stopToParent routeId fromStop toStop;
                            Returned (record_observation edgeTravelTimes observation))
                         edgeTravelTimes (consecutive stops)
                else Returned edgeTravelTimes
            | None => Returned edgeTravelTimes
            end)
         [] tripStopTimes.

(** The numbers of the array, when none of them is [NaN]. *)
Definition all_numbers (numbers : list (option Z)) : option (list Z) := mapM id numbers.

(** [[...numbers].sort((a, b) => a - b)].  Against [NaN] the comparator
    gives [NaN], which the sort reads as 0: with a [NaN] in the array it is
    a consistent comparator only if the numbers of the array are all equal,
    and the stable sort then leaves the array as it is; otherwise the order
    depends on the engine. *)
Definition sort_numbers (numbers : list (option Z)) : outcome (list (option Z)) :=
  match all_numbers numbers with
  | Some values => Returned (Some <$> stable_sort Z.leb values)
  | None =>
      match omap id numbers with
      | [] => Returned numbers
      | x :: rest => if forallb (Z.eqb x) rest then Returned numbers else OutOfModel
      end
  end.

(** [median]: an element read outside the array is [undefined], and the
    sum with it is [NaN]. *)
Definition median (numbers : list (option Z)) : outcome (option Q) :=
  sorted ← sort_numbers numbers;
  let mid := Z.of_nat (length sorted) / 2 in
  if Z.of_nat (length sorted) mod 2 =? 0
  then
    Returned (a ← mjoin (js_index sorted (mid - 1));
              b ← mjoin (js_index sorted mid);
              Some ((inject_Z a + inject_Z b) / 2)%Q)
  else Returned (inject_Z <$> mjoin (js_index sorted mid)).

(** One edge per key; [Math.round(NaN)] is [NaN]. *)
Definition aggregateEdges (edgeTravelTimes : JsMap string (list (option Z)))
    : outcome (list EmittedEdge.t) :=
  foldlM (λ edges '(edgeKey, travelTimes),
            match split_on "|" edgeKey with
            | fromId :: toId :: routeId :: _ =>
                medianTime ← median travelTimes;
                Returned (edges ++
                          [EmittedEdge.mk fromId toId (Math_round <$> medianTime) routeId])
            | _ => OutOfModel
            end)
         [] edgeTravelTimes.

(** [preprocessGTFS], with the edges as they are emitted. *)
Definition preprocessGTFS (fs : string → option string) : outcome EmittedNetwork.t :=
  stops ← parseCSV fs "stops.txt";
  stopTimes ← parseCSV fs "stop_times.txt";
  trips ← parseCSV fs "trips.txt";
  routes ← parseCSV fs "routes.txt";
  match stops, stopTimes, trips, routes with
  | stopsHeader :: stopRows, stopTimesHeader :: stopTimeRows,
    tripsHeader :: tripRows, routesHeader :: routeRows =>
      '(stationsMap, stopToParent) ← readStations stopsHeader stopRows;
      let tripToRoute := readTrips tripsHeader tripRows in
      let routeIdToShortName := readRoutes routesHeader routeRows in
      let stopToRoutes :=
        collectRoutes stopTimesHeader stopTimeRows stopToParent tripToRoute
                      routeIdToShortName in
      let stationsMap := attachRoutes stationsMap stopToRoutes in
      tripStopTimes ← groupStopTimes stopTimesHeader stopTimeRows;
      edgeTravelTimes ← collectTravelTimes stopToParent tripToRoute tripStopTimes;
      edges ← aggregateEdges edgeTravelTimes;
      let stations := stationsMap.*2 in
      Returned (EmittedNetwork.mk stations edges)
  | _, _, _, _ => Threw TypeError
  end.

End WithNaN.

(** The edge of the network as the script emits it. *)
Definition emitted (edge : Edge.t) : EmittedEdge.t :=
  EmittedEdge.mk (Edge.fromId edge) (Edge.toId edge) (Some (Edge.travelTimeSec edge))
                 (Edge.routeId edge).

(** *** What the aggregation computes *)

(** The statistical median in the words of the specification: the middle
    value of the collection sorted in ascending order, and the average of
    the two central values when the collection has an even length. *)
Definition statistical_median (numbers : list Z) (m : Q) : Prop :=
  ∃ sorted,
    sorted ≡ₚ numbers ∧ StronglySorted Z.le sorted ∧
    ((∃ k a, length sorted = (2 * k + 1)%nat ∧ sorted !! k = Some a ∧
             (m == inject_Z a)%Q) ∨
     (∃ k a b, length sorted = (2 * (k + 1))%nat ∧
               sorted !! k = Some a ∧ sorted !! (k + 1)%nat = Some b ∧
               (m == (inject_Z a + inject_Z b) / 2)%Q)).

(** The travel time is within the data-quality guard. *)
Definition plausible (t : Z) : Prop := 0 ≤ t ≤ 3600.

(** The number of occurrences of a character. *)
Fixpoint count_char (c : ascii) (s : string) : nat :=
  match s with
  | EmptyString => 0%nat
  | String c' s' => ((if Ascii.eqb c' c then 1 else 0) + count_char c s')%nat
  end.

(** The invariant of the third pass: the keys of [edgeTravelTimes] are
    distinct and hold two bars or more, and every array is non-empty and
    holds only plausible travel times. *)
Record travel_times_inv (edgeTravelTimes : JsMap string (list Z)) : Prop := {
  tt_nodup : NoDup (jm_keys edgeTravelTimes);
  tt_key : ∀ edgeKey travelTimes, (edgeKey, travelTimes) ∈ edgeTravelTimes →
      (2 ≤ count_char "|" edgeKey)%nat;
  tt_plausible : ∀ edgeKey travelTimes, (edgeKey, travelTimes) ∈ edgeTravelTimes →
      travelTimes ≠ [] ∧ Forall plausible travelTimes
}.

(** An edge is the aggregate of the entry [(edgeKey, travelTimes)]: its
    identifiers are the first three parts of the key and its travel time is
    the median of the entry, rounded to the nearest integer. *)
Definition aggregate_of (entry : string * list Z) (e : Edge.t) : Prop :=
  (∃ rest, split_on "|" entry.1
             = Edge.fromId e :: Edge.toId e :: Edge.routeId e :: rest) ∧
  ∃ m, median entry.2 = Some m ∧ statistical_median entry.2 m ∧
       Edge.travelTimeSec e = Math_round m ∧
       (inject_Z (Edge.travelTimeSec e) - (1 # 2) <= m)%Q ∧
       (m < inject_Z (Edge.travelTimeSec e) + (1 # 2))%Q.


(** The character occurs in the string. *)
Fixpoint contains (c : ascii) (s : string) : bool :=
  match s with
  | EmptyString => false
  | String c' s' => Ascii.eqb c' c || contains c s'
  end.

(** The outcome is not a read error. *)
Definition not_read_error {A} (o : outcome A) : Prop :=
  ∀ path, o ≠ Threw (ENOENT path).

(** The invariant of the first pass: the keys of [stationsMap] are
    distinct, and each station carries its key as id, is not accessible and
    has no route yet. *)
Record stations_inv (stationsMap : JsMap string Station.t) : Prop := {
  st_nodup : NoDup (jm_keys stationsMap);
  st_fields : ∀ stationId station, (stationId, station) ∈ stationsMap →
      Station.id station = stationId ∧ Station.accessible station = false ∧
      Station.routesServed station = []
}.

(** The text is ASCII: every character code is below 128.  On such a text
    [trim] is [String.prototype.trim], which strips the Unicode spaces as
    well. *)
Fixpoint ascii_text (s : string) : bool :=
  match s with
  | EmptyString => true
  | String c s' => (N_of_ascii c <? 128)%N && ascii_text s'
  end.

(** *** What the third pass collects and emits, [NaN] included *)

(** A travel time as the third pass records it: within the guard, or the
    [NaN] that the comparisons of the guard let through. *)
Definition plausible_or_NaN (t : option Z) : Prop :=
  match t with
  | Some t => plausible t
  | None => True
  end.

(** The invariant of the third pass with [NaN]: distinct keys with two
    bars or more, and arrays that are not empty. *)
Record emitted_times_inv (edgeTravelTimes : JsMap string (list (option Z))) : Prop := {
  et_nodup : NoDup (jm_keys edgeTravelTimes);
  et_key : ∀ edgeKey travelTimes, (edgeKey, travelTimes) ∈ edgeTravelTimes →
      ∃ fromId toId routeId, edgeKey = fromId +:+ "|" +:+ toId +:+ "|" +:+ routeId;
  et_times : ∀ edgeKey travelTimes, (edgeKey, travelTimes) ∈ edgeTravelTimes →
      travelTimes ≠ [] ∧ Forall plausible_or_NaN travelTimes
}.


(** The collected map, its times as numbers that may be [NaN]. *)
Definition as_numbers (edgeTravelTimes : JsMap string (list Z))
    : JsMap string (list (option Z)) :=
  (λ entry : string * list Z, (entry.1, Some <$> entry.2)) <$> edgeTravelTimes.

(** ** The line graph A -(60)-> B -(120)-> C, with any route names *)

Definition line_network (r1 r2 : string) : ProcessedNetwork.t :=
  ProcessedNetwork.mk
    [Station.mk "A" "A" 0 0 false []; Station.mk "B" "B" 0 0 false [];
     Station.mk "C" "C" 0 0 false []]
    [Edge.mk "A" "B" 60 r1; Edge.mk "B" "C" 120 r2].

(** ** A small network for concrete checks

    Three stations on a meridian, with the line A -(60)-> B -(120)-> C; the
    distance is the difference of latitudes, a buffer is its centre and
    radius, and the union collects the buffers. *)

Definition example_distance (from to : Q * Q) : Q := Qabs (from.2 - to.2).

Definition example_buffer (point : Q * Q) (distanceMiles : Q) : list (Q * Q * Q) :=
  [(point, distanceMiles)].

Definition example_union (buffers : list (list (Q * Q * Q))) : option (list (Q * Q * Q)) :=
  Some (concat buffers).

Definition example_network : ProcessedNetwork.t :=
  ProcessedNetwork.mk
    [Station.mk "A" "First" 0 0 false ["1"];
     Station.mk "B" "Second" (1 # 4) 0 false ["1"];
     Station.mk "C" "Third" 10 0 false ["1"]]
    [Edge.mk "A" "B" 60 "1"; Edge.mk "B" "C" 120 "1"].

Definition example_office (latitude : Q) : GeocodeResult.t :=
  GeocodeResult.mk 0 latitude "Office".

(** ** A small feed for concrete checks

    Two stations with a platform each, one route, and three trips between
    the platforms; the first trip crosses midnight. *)

Definition text (lines : list string) : string :=
  String.concat (String "010" EmptyString) lines.

Definition example_stops : string :=
  text ["stop_id,stop_name,stop_lat,stop_lon,location_type,parent_station";
        "101,Van Cortlandt Park-242 St,40.889248,-73.898583,1,";
        "101S,Van Cortlandt Park-242 St,40.889248,-73.898583,,101";
        "103,238 St,40.884667,-73.900870,1,";
        "103S,238 St,40.884667,-73.900870,,103"].

(** The same table without the [location_type] column. *)
Definition example_stops_no_location_type : string :=
  text ["stop_id,stop_name,stop_lat,stop_lon,parent_station";
        "101,Van Cortlandt Park-242 St,40.889248,-73.898583,";
        "101S,Van Cortlandt Park-242 St,40.889248,-73.898583,101";
        "103,238 St,40.884667,-73.900870,";
        "103S,238 St,40.884667,-73.900870,103"].

Definition example_stop_times : string :=
  text ["trip_id,stop_id,arrival_time,departure_time,stop_sequence";
        "T1,101S,23:59:00,23:59:50,1";
        "T1,103S,00:00:20,00:00:40,2";
        "T2,103S,08:01:40,08:02:00,2";
        "T2,101S,08:00:00,08:00:00,1";
        "T3,101S,09:00:00,09:00:00,1";
        "T3,103S,09:05:00,09:05:30,2"].

Definition example_trips : string :=
  text ["route_id,trip_id,service_id"; "1,T1,Weekday"; "1,T2,Weekday"; "1,T3,Weekday"].

Definition example_routes : string :=
  text ["route_id,route_short_name"; "1,1"].

Definition feed (stops stop_times trips routes : option string) (path : string)
    : option string :=
  if decide (path = "stops.txt") then stops
  else if decide (path = "stop_times.txt") then stop_times
  else if decide (path = "trips.txt") then trips
  else if decide (path = "routes.txt") then routes
  else None.

Definition example_feed : string → option string :=
  feed (Some example_stops) (Some example_stop_times) (Some example_trips)
       (Some example_routes).

Definition example_feed_no_location_type : string → option string :=
  feed (Some example_stops_no_location_type) (Some example_stop_times)
       (Some example_trips) (Some example_routes).

(** A trip of three stops whose middle stop is not a timepoint: its
    arrival and departure times are blank, as GTFS allows. *)
Definition example_stops_three : string :=
  text ["stop_id,stop_name,stop_lat,stop_lon,location_type,parent_station";
        "101,Van Cortlandt Park-242 St,40.889248,-73.898583,1,";
        "101S,Van Cortlandt Park-242 St,40.889248,-73.898583,,101";
        "103,238 St,40.884667,-73.900870,1,";
        "103S,238 St,40.884667,-73.900870,,103";
        "104,231 St,40.878856,-73.904834,1,";
        "104S,231 St,40.878856,-73.904834,,104"].

Definition example_stop_times_untimed : string :=
  text ["trip_id,stop_id,arrival_time,departure_time,stop_sequence";
        "T1,101S,08:00:00,08:00:00,1";
        "T1,103S,,,2";
        "T1,104S,08:03:00,08:03:00,3"].

Definition example_feed_untimed : string → option string :=
  feed (Some example_stops_three) (Some example_stop_times_untimed)
       (Some (text ["route_id,trip_id,service_id"; "1,T1,Weekday"]))
       (Some example_routes).




(** The stop times of [example_stop_times] without the departure
    times. *)
Definition example_stop_times_no_departure : string :=
  text ["trip_id,stop_id,arrival_time,stop_sequence";
        "T1,101S,23:59:00,1";
        "T1,103S,00:00:20,2"].

Definition example_feed_no_departure : string → option string :=
  feed (Some example_stops) (Some example_stop_times_no_departure)
       (Some example_trips) (Some example_routes).

(** Stop times already grouped by trip: three trips from A to B and two
    back, all on route 1. *)
Definition example_trip (tripId from to departure arrival : string)
    : option string * list StopTime.t :=
  (Some tripId,
   [StopTime.mk (Some from) (Some departure) (Some departure) 1;
    StopTime.mk (Some to) (Some arrival) (Some arrival) 2]).

Definition example_tripStopTimes : JsMap (option string) (list StopTime.t) :=
  [example_trip "T1" "A" "B" "08:00:00" "08:01:40";
   example_trip "T2" "A" "B" "09:00:00" "09:01:40";
   example_trip "T3" "A" "B" "10:00:00" "10:05:00";
   example_trip "T4" "B" "A" "11:00:00" "11:01:40";
   example_trip "T5" "B" "A" "12:00:00" "12:03:20"].

Definition example_tripToRoute : gmap (option string) (option string) :=
  list_to_map ((λ tripId, (Some tripId, Some "1")) <$> ["T1"; "T2"; "T3"; "T4"; "T5"]).

(** The isochrone of [example_network] from the latitude 0 with a budget
    of 400 seconds. *)
Definition example_isochrone : IsochroneResult :=
  mkIsochroneResult
    [((0, 0), 1 # 2); ((0, 1 # 4), 1 # 2); ((0, 10), 1 # 2)]%Q
    [ReachableStation.mk "A" 0; ReachableStation.mk "B" 60;
     ReachableStation.mk "C" 180]
    3.

(** The same with a budget of 100 seconds: walking reaches A alone, and B
    is one stop away. *)
Definition example_isochrone_100 : IsochroneResult :=
  mkIsochroneResult
    [((0, 0), 1 # 2); ((0, 1 # 4), 1 # 2)]%Q
    [ReachableStation.mk "A" 0; ReachableStation.mk "B" 60]
    2.

(** A cache that is full: 100 entries with keys of one character. *)
Definition full_cache : JsMap string (option unit) :=
  (λ i, (String (ascii_of_nat i) EmptyString, None)) <$> seq 1 100.

(** A union that throws, a distance that throws, and a union that gives
    [null]. *)
Definition throwing_union (buffers : list (option (list (Q * Q * Q))))
    : call (option (list (Q * Q * Q))) :=
  Throws.

Definition throwing_distance (from to : Q * Q) : call Q := Throws.

Definition null_union (buffers : list (option (list (Q * Q * Q))))
    : call (option (list (Q * Q * Q))) :=
  Value None.

(** ** Writing a CSV line, to read it back

    The script only reads; these two functions write a line the way the
    feed does, every field between double quotes. *)

Definition quote_field (field : string) : string :=
  String "034" (field +:+ String "034" EmptyString).

Definition csv_line (fields : list string) : string :=
  String.concat "," (quote_field <$> fields).

(** ** GeoJSON conversion ([utils/geojson.ts])

    A feature keeps its coordinates and its properties; the constant tags
    ([type: 'Feature'], the geometry type, [type: 'FeatureCollection']) carry
    no information and a collection is the list of its features. *)

Module StationFeature.
Record t := mk {
  coordinates : Q * Q;
  id : string;
  name : string;
  routesServed : list string;
  accessible : bool
}.
End StationFeature.

(** The properties of an edge feature are the four fields of the edge. *)
Module EdgeFeature.
Record t := mk {
  coordinates : (Q * Q) * (Q * Q);
  properties : Edge.t
}.
End EdgeFeature.

Definition stationsToGeoJSON (stations : list Station.t) : list StationFeature.t :=
  (λ station,
     StationFeature.mk (Station.lon station, Station.lat station)
       (Station.id station) (Station.name station)
       (Station.routesServed station) (Station.accessible station)) <$> stations.

Definition edgesToGeoJSON (edges : list Edge.t) (stationMap : gmap string Station.t)
    : list EdgeFeature.t :=
  foldl (λ features edge,
           match stationMap !! Edge.fromId edge, stationMap !! Edge.toId edge with
           | Some fromStation, Some toStation =>
               features ++
               [EdgeFeature.mk
                  ((Station.lon fromStation, Station.lat fromStation),
                   (Station.lon toStation, Station.lat toStation))
                  (Edge.mk (Edge.fromId edge) (Edge.toId edge)
                           (Edge.travelTimeSec edge) (Edge.routeId edge))]
           | _, _ => features
           end)
        [] edges.

Module NetworkGeoJSON.
Record t := mk {
  stations : list StationFeature.t;
  edges : list EdgeFeature.t
}.
End NetworkGeoJSON.

Definition networkToGeoJSON (network : ProcessedNetwork.t) : NetworkGeoJSON.t :=
  let stationMap :=
    foldl (λ (stationMap : gmap string Station.t) station,
             <[Station.id station := station]> stationMap)
          ∅ (ProcessedNetwork.stations network) in
  NetworkGeoJSON.mk (stationsToGeoJSON (ProcessedNetwork.stations network))
                    (edgesToGeoJSON (ProcessedNetwork.edges network) stationMap).

(** The last station of the array that carries the id. *)
Definition last_station (stations : list Station.t) (stationId : string)
    : option Station.t :=
  last (filter (λ station, Station.id station = stationId) stations).

(** ** Grouping the edge features by route ([components/SubwayMap.tsx])

    The body of the [useMemo]; [edges] is [null] until the network is
    loaded. *)
Definition edgesByRoute (edges : option (list EdgeFeature.t))
    : JsMap string (list EdgeFeature.t) :=
  match edges with
  | None => []
  | Some features =>
      foldl (λ grouped feature,
               let routeId := Edge.routeId (EdgeFeature.properties feature) in
               let grouped :=
                 if jm_has grouped routeId then grouped else jm_set grouped routeId [] in
               jm_set grouped routeId
                 (default [] (jm_get grouped routeId) ++ [feature]))
            [] features
  end.

(** The features of one route, in the order of the collection. *)
Definition features_of_route (routeId : string) (features : list EdgeFeature.t)
    : list EdgeFeature.t :=
  filter (λ feature, Edge.routeId (EdgeFeature.properties feature) = routeId) features.

(** ** The isochrones of the map and their cache ([components/SubwayMap.tsx]) *)

(** [Map.prototype.delete]. *)
Fixpoint jm_delete {K V} `{EqDecision K} (m : JsMap K V) (k : K) : JsMap K V :=
  match m with
  | [] => []
  | (k', v) :: m' => if decide (k' = k) then m' else (k', v) :: jm_delete m' k
  end.

(** The travel time of the slider, rounded to a multiple of 15 minutes. *)
Definition roundedTravelTimeMinutes (travelTimeMinutes : Q) : Z :=
  Math_round (travelTimeMinutes / 15) * 15.

(** [for (let time = 15; time <= roundedTravelTimeMinutes; time += 15)]:
    the loop from [time] on, with a bound on the number of turns. *)
Fixpoint times_from (fuel : nat) (time roundedTravelTimeMinutes : Z) : list Z :=
  match fuel with
  | O => []
  | S fuel =>
      if time <=? roundedTravelTimeMinutes
      then time :: times_from fuel (time + 15) roundedTravelTimeMinutes
      else []
  end.

Definition timesToCalculate (roundedTravelTimeMinutes : Z) : list Z :=
  times_from (Z.to_nat roundedTravelTimeMinutes) 15 roundedTravelTimeMinutes.

Section IsochroneCache.
(** Outside the model: the text of a coordinate ([toFixed(6)]) and of a
    number of minutes inside the template of the cache key; and the call
    [createIsochrone(officeLocation, network, timeMinutes * 60)], of which
    the effect sees the result or the exception. *)
Context {Polygon : Type}.
Context (toFixed6 : Q → string) (minutes_text : Z → string).
Context (createIsochrone_call :
           GeocodeResult.t → ProcessedNetwork.t → Z →
           call (option (IsochroneResult (Polygon := Polygon)))).

Definition cacheKey (officeLocation : GeocodeResult.t) (timeMinutes : Z) : string :=
  toFixed6 (GeocodeResult.latitude officeLocation) +:+ "_" +:+
  toFixed6 (GeocodeResult.longitude officeLocation) +:+ "_" +:+
  minutes_text timeMinutes.

(** [if (cache.size > 100) { ... delete(firstKey) }]. *)
Definition limit_cache (cache : JsMap string (option Polygon))
    : JsMap string (option Polygon) :=
  if (100 <? length cache)%nat then
    let firstKey := head (jm_keys cache) in
    match firstKey with
    | Some key => if truthy firstKey then jm_delete cache key else cache
    | None => cache
    end
  else cache.

(** One turn of the loop over the times: the new isochrones and the
    cache. *)
Definition isochrone_turn (officeLocation : GeocodeResult.t)
    (network : ProcessedNetwork.t)
    (state : JsMap Z (option Polygon) * JsMap string (option Polygon))
    (timeMinutes : Z)
    : JsMap Z (option Polygon) * JsMap string (option Polygon) :=
  let '(newIsochrones, cache) := state in
  let cacheKey := cacheKey officeLocation timeMinutes in
  match jm_get cache cacheKey with
  | Some cached => (jm_set newIsochrones timeMinutes cached, cache)
  | None =>
      match createIsochrone_call officeLocation network (timeMinutes * 60) with
      | Value result =>
          (* [result?.polygon || null] *)
          let polygon := polygon <$> result in
          let cache := limit_cache (jm_set cache cacheKey polygon) in
          (jm_set newIsochrones timeMinutes polygon, cache)
      | Throws =>
          (jm_set newIsochrones timeMinutes None, jm_set cache cacheKey None)
      end
  end.

(** The effect: the isochrones it sets, and the cache it leaves. *)
Definition isochrone_effect (officeLocation : option GeocodeResult.t)
    (network : option ProcessedNetwork.t) (roundedTravelTimeMinutes : Z)
    (cache : JsMap string (option Polygon))
    : JsMap Z (option Polygon) * JsMap string (option Polygon) :=
  match officeLocation, network with
  | Some officeLocation, Some network =>
      foldl (isochrone_turn officeLocation network) ([], cache)
            (timesToCalculate roundedTravelTimeMinutes)
  | _, _ => ([], cache)
  end.

(** What a miss puts into the isochrones and into the cache. *)
Definition computed_polygon (officeLocation : GeocodeResult.t)
    (network : ProcessedNetwork.t) (timeMinutes : Z) : option Polygon :=
  match createIsochrone_call officeLocation network (timeMinutes * 60) with
  | Value result => polygon <$> result
  | Throws => None
  end.

(** The cache the effects keep: distinct keys, none of them empty, and
    no more than 100 of them. *)
Record cache_inv (cache : JsMap string (option Polygon)) : Prop := {
  cache_nodup : NoDup (jm_keys cache);
  cache_keys : ∀ key, key ∈ jm_keys cache → key ≠ EmptyString;
  cache_size : (length cache ≤ 100)%nat
}.
End IsochroneCache.
(** ** Facts about insertion-ordered maps *)

Section JsMapFacts.
Context {K V : Type} `{EqDecision K}.
Implicit Types (m : JsMap K V) (k : K) (v : V).

Lemma jm_get_set_eq m k v : jm_get (jm_set m k v) k = Some v.
Proof.
  induction m as [|[k' v'] m IH]; simpl.
  - by rewrite decide_True.
  - destruct (decide (k' = k)) as [->|Hne]; simpl.
    + by rewrite decide_True.
    + by rewrite decide_False.
Qed.

Lemma jm_get_set_ne m k k' v : k ≠ k' → jm_get (jm_set m k v) k' = jm_get m k'.
Proof.
  intros Hne. induction m as [|[k0 v0] m IH]; simpl.
  - by rewrite decide_False.
  - destruct (decide (k0 = k)) as [->|Hne0]; simpl.
    + by rewrite !decide_False.
    + by rewrite IH.
Qed.

Lemma jm_get_set m k k' v :
  jm_get (jm_set m k v) k' = if decide (k = k') then Some v else jm_get m k'.
Proof.
  destruct (decide (k = k')) as [->|Hne].
  - apply jm_get_set_eq.
  - by apply jm_get_set_ne.
Qed.

Lemma jm_get_None m k : jm_get m k = None ↔ k ∉ jm_keys m.
Proof.
  unfold jm_keys. induction m as [|[k' v'] m IH]; simpl.
  - split; [intros _; apply not_elem_of_nil | done].
  - rewrite not_elem_of_cons. destruct (decide (k' = k)) as [->|Hne].
    + split; [done | tauto].
    + rewrite IH. split; [by intros ?; split | tauto].
Qed.

Lemma jm_get_Some_elem m k v : jm_get m k = Some v → (k, v) ∈ m.
Proof.
  induction m as [|[k' v'] m IH]; simpl; [done|].
  destruct (decide (k' = k)) as [->|Hne].
  - intros [= ->]. apply elem_of_cons; by left.
  - intros Hg. apply elem_of_cons; right; auto.
Qed.

Lemma jm_elem_get m k v : NoDup (jm_keys m) → (k, v) ∈ m → jm_get m k = Some v.
Proof.
  unfold jm_keys. induction m as [|[k' v'] m IH]; simpl.
  - intros _ Hin. by apply elem_of_nil in Hin.
  - rewrite NoDup_cons. intros [Hfresh Hnd] Hin.
    apply elem_of_cons in Hin as [[= -> ->]|Hin].
    + by rewrite decide_True.
    + destruct (decide (k' = k)) as [->|Hne]; [|by apply IH].
      exfalso. apply Hfresh. apply list_elem_of_fmap. by exists (k, v).
Qed.

Lemma jm_keys_set m k v k' : k' ∈ jm_keys (jm_set m k v) ↔ k' = k ∨ k' ∈ jm_keys m.
Proof.
  unfold jm_keys. induction m as [|[k0 v0] m IH]; simpl.
  - rewrite list_elem_of_singleton, elem_of_nil. tauto.
  - destruct (decide (k0 = k)) as [->|Hne]; simpl.
    + rewrite !elem_of_cons. tauto.
    + rewrite !elem_of_cons, IH. tauto.
Qed.

Lemma jm_set_NoDup m k v : NoDup (jm_keys m) → NoDup (jm_keys (jm_set m k v)).
Proof.
  unfold jm_keys. induction m as [|[k0 v0] m IH]; simpl.
  - intros _. apply NoDup_singleton.
  - rewrite NoDup_cons. intros [Hfresh Hnd].
    destruct (decide (k0 = k)) as [->|Hne]; simpl.
    + by apply NoDup_cons.
    + apply NoDup_cons. split; [|by apply IH].
      intros Hin. apply (jm_keys_set m k v k0) in Hin as [?|?]; [done|].
      by apply Hfresh.
Qed.

Lemma jm_has_true m k : jm_has m k = true ↔ is_Some (jm_get m k).
Proof.
  unfold jm_has. destruct (jm_get m k); split; done.
Qed.
End JsMapFacts.

(** ** Facts about the stable sort and about [foldl] *)

Lemma sort_insert_perm {A} (leb : A → A → bool) x l :
  sort_insert leb x l ≡ₚ x :: l.
Proof.
  induction l as [|y l IH]; simpl; [done|].
  destruct (leb x y); [done|].
  rewrite IH. apply Permutation_swap.
Qed.

Lemma stable_sort_perm {A} (leb : A → A → bool) l : stable_sort leb l ≡ₚ l.
Proof.
  unfold stable_sort. induction l as [|x l IH]; simpl; [done|].
  by rewrite sort_insert_perm, IH.
Qed.

Lemma foldl_invariant {A B} (f : A → B → A) (P : list B → A → Prop) l a :
  P [] a →
  (∀ pre x a, P pre a → x ∈ l → P (pre ++ [x]) (f a x)) →
  P l (foldl f a l).
Proof.
  intros H0 Hstep.
  assert (∀ suf pre a, P pre a → (∀ x, x ∈ suf → x ∈ l) →
            P (pre ++ suf) (foldl f a suf)) as Hgen.
  { induction suf as [|x suf IH]; intros pre b Hb Hsub; simpl.
    - by rewrite app_nil_r.
    - replace (pre ++ x :: suf) with ((pre ++ [x]) ++ suf)
        by (by rewrite <- app_assoc).
      apply IH.
      + apply Hstep; [done|]. apply Hsub, elem_of_cons; by left.
      + intros y Hy. apply Hsub, elem_of_cons; by right. }
  apply (Hgen l [] a); auto.
Qed.

Lemma filter_none {A} (P : A → Prop) `{∀ x, Decision (P x)} (l : list A) :
  (∀ x, x ∈ l → ¬ P x) → filter P l = [].
Proof.
  induction l as [|x l IH]; intros Hnone; [done|].
  rewrite filter_cons_False.
  - apply IH. intros y Hy. apply Hnone, elem_of_cons. by right.
  - apply Hnone, elem_of_cons. by left.
Qed.

(** ** Concrete checks of the embedding *)

Example jm_set_keeps_position :
  jm_set [("a", 1); ("b", 2)] "a" 3 = [("a", 3); ("b", 2)] ∧
  jm_set [("a", 1); ("b", 2)] "c" 3 = [("a", 1); ("b", 2); ("c", 3)].
Proof. split; reflexivity. Qed.

Example sort_queue_stable :
  sort_queue [(5, "x"); (0, "a"); (5, "y"); (0, "b")]
    = [(0, "a"); (0, "b"); (5, "x"); (5, "y")].
Proof. reflexivity. Qed.

Example Math_round_halves_up :
  Math_round (5 # 2) = 3 ∧ Math_round (-5 # 2) = -2 ∧ Math_round (7 # 3) = 2.
Proof. repeat split; reflexivity. Qed.

Example calculateWalkingTime_half_mile :
  calculateWalkingTime DEFAULT_MAX_WALK_DISTANCE_MILES WALKING_SPEED_MPH = 600.
Proof. reflexivity. Qed.

Example parse_fields_quoted :
  parse_fields ("101," +:+ String "034" ("242 St, Bronx" +:+ String "034" ",1"))
               [] EmptyString false
    = ["101"; "242 St, Bronx"; "1"].
Proof. vm_compute. reflexivity. Qed.

Example split_on_empty : split_on "010" EmptyString = [EmptyString].
Proof. reflexivity. Qed.

Example timeToSeconds_cases :
  timeToSeconds (Some "25:10:05") = Returned 90605 ∧
  timeToSeconds (Some "08:00") = OutOfModel ∧
  timeToSeconds None = Threw TypeError.
Proof. repeat split; vm_compute; reflexivity. Qed.

Example median_cases :
  median [300; 100; 100] = Some (inject_Z 100) ∧
  Math_round <$> median [100; 201] = Some 151 ∧
  median [] = None.
Proof. repeat split; vm_compute; reflexivity. Qed.

Example js_parseInt_cases :
  js_parseInt (Some " 12abc") = Some 12 ∧ js_parseInt (Some "-3") = Some (-3) ∧
  js_parseInt (Some "") = None ∧ js_parseInt None = None.
Proof. repeat split; vm_compute; reflexivity. Qed.

Example preprocessGTFS_example_feed :
  (network ← preprocessGTFS example_feed;
   Returned (Station.id <$> ProcessedNetwork.stations network,
             ProcessedNetwork.edges network))
    = Returned (["101"; "103"], [Edge.mk "101" "103" 100 "1"]).
Proof. vm_compute. reflexivity. Qed.

Example aggregateEdges_example :
  (edgeTravelTimes ← collectTravelTimes ∅ example_tripToRoute example_tripStopTimes;
   aggregateEdges edgeTravelTimes)
    = Returned [Edge.mk "A" "B" 100 "1"; Edge.mk "B" "A" 150 "1"].
Proof. vm_compute. reflexivity. Qed.

(** ** The reachability search computes bounded shortest times *)

Lemma elem_of_sort_queue x queue : x ∈ sort_queue queue ↔ x ∈ queue.
Proof. unfold sort_queue. by rewrite stable_sort_perm. Qed.

Lemma length_sort_queue queue : length (sort_queue queue) = length queue.
Proof. unfold sort_queue. by rewrite stable_sort_perm. Qed.

Lemma relax_cases maxTimeSec c dist queue e :
  let newTime := c + Edge.travelTimeSec e in
  (relax maxTimeSec c (dist, queue) e = (dist, queue) ∧
   (maxTimeSec < newTime ∨
    ∃ d', jm_get dist (Edge.toId e) = Some d' ∧ d' ≤ newTime)) ∨
  (relax maxTimeSec c (dist, queue) e =
     (jm_set dist (Edge.toId e) newTime,
      sort_queue (queue ++ [(newTime, Edge.toId e)])) ∧
   newTime ≤ maxTimeSec ∧
   (jm_get dist (Edge.toId e) = None ∨
    ∃ d', jm_get dist (Edge.toId e) = Some d' ∧ newTime < d')).
Proof.
  intros newTime. unfold relax. fold newTime.
  destruct (Z.leb_spec newTime maxTimeSec) as [Hle|Hgt].
  - destruct (jm_get dist (Edge.toId e)) as [d'|] eqn:Hget.
    + destruct (Z.ltb_spec newTime d') as [Hlt|Hge].
      * right. split; [done|]. split; [done|]. right. by exists d'.
      * left. split; [done|]. right. by exists d'.
    + right. split; [done|]. split; [done|]. by left.
  - left. split; [done|]. by left.
Qed.

Section SearchCorrect.
Context (graph : Graph) (startStations : list StartStation.t) (maxTimeSec : Z).

Local Abbreviation Reach := (Reach graph startStations maxTimeSec).
Local Abbreviation closed := (closed graph maxTimeSec).
Local Abbreviation search_inv := (search_inv graph startStations maxTimeSec).
Local Abbreviation relax_inv := (relax_inv graph startStations maxTimeSec).

Lemma dist_le_refl dist : dist_le dist dist.
Proof. intros v d Hv. exists d. split; [done | lia]. Qed.

Lemma dist_le_set dist v new :
  (jm_get dist v = None ∨ ∃ d', jm_get dist v = Some d' ∧ new < d') →
  dist_le dist (jm_set dist v new).
Proof.
  intros Hold u d Hu. rewrite jm_get_set.
  destruct (decide (v = u)) as [->|Hne].
  - exists new. split; [done|].
    destruct Hold as [Hn|(d' & Hd' & Hlt)]; [congruence|].
    rewrite Hu in Hd'. injection Hd' as ->. lia.
  - exists d. split; [done | lia].
Qed.

Lemma closed_dist_le dist dist' u d :
  dist_le dist dist' → closed dist u d → closed dist' u d.
Proof.
  intros Hle Hcl Hd edges e Hg He Hw.
  destruct (Hcl Hd edges e Hg He Hw) as (d1 & Hd1 & Hle1).
  destruct (Hle _ _ Hd1) as (d2 & Hd2 & Hle2).
  exists d2. split; [done | lia].
Qed.

Lemma relax_preserves u0 c edges processed st e :
  Reach u0 c → c ≤ maxTimeSec → graph !! u0 = Some edges → e ∈ edges →
  relax_inv u0 c processed st →
  relax_inv u0 c (processed ++ [e]) (relax maxTimeSec c st e).
Proof.
  intros Hreach Hc Hg He Hinv. destruct st as [dist queue].
  destruct Hinv as [Hnd Hsound Hq Hpend Hstart Hdone]. cbn [fst snd] in *.
  destruct (relax_cases maxTimeSec c dist queue e) as [[-> Hskip]|(-> & Hle & Hold)].
  - constructor; simpl; try done.
    intros e' He' Hw. apply elem_of_app in He' as [He'|He'].
    + by apply Hdone.
    + apply list_elem_of_singleton in He' as ->.
      destruct Hskip as [Hgt|Hex]; [lia | done].
  - pose proof (dist_le_set dist (Edge.toId e) _ Hold) as Hdle.
    constructor; simpl.
    + by apply jm_set_NoDup.
    + intros v d. rewrite jm_get_set. case_decide as Hv.
      * intros [= <-]. subst v. by eapply Reach_step.
      * apply Hsound.
    + intros c' u Hin. apply elem_of_sort_queue, elem_of_app in Hin as [Hin|Hin].
      * destruct (Hq _ _ Hin) as (d & Hd & Hdc).
        destruct (Hdle _ _ Hd) as (d2 & Hd2 & Hle2).
        exists d2. split; [done | lia].
      * apply list_elem_of_singleton in Hin as [= -> ->].
        eexists. split; [apply jm_get_set_eq | lia].
    + intros u d. rewrite jm_get_set. case_decide as Hu.
      * intros [= <-]. subst u. left.
        apply elem_of_sort_queue, elem_of_app. right. by apply list_elem_of_singleton.
      * intros Hget. destruct (Hpend _ _ Hget) as [Hin|[Hcl|Hcur]].
        -- left. apply elem_of_sort_queue, elem_of_app. by left.
        -- right. left. by eapply closed_dist_le.
        -- by right; right.
    + intros s Hs Hrem. destruct (Hstart s Hs Hrem) as (d & Hd & Hd0).
      destruct (Hdle _ _ Hd) as (d2 & Hd2 & Hle2).
      exists d2. split; [done | lia].
    + intros e' He' Hw. apply elem_of_app in He' as [He'|He'].
      * destruct (Hdone e' He' Hw) as (d & Hd & Hdw).
        destruct (Hdle _ _ Hd) as (d2 & Hd2 & Hle2).
        exists d2. split; [done | lia].
      * apply list_elem_of_singleton in He' as ->.
        eexists. split; [apply jm_get_set_eq | lia].
Qed.

Lemma relax_fold_inv u0 c edges dist rest :
  Reach u0 c → c ≤ maxTimeSec → graph !! u0 = Some edges →
  relax_inv u0 c [] (dist, rest) →
  relax_inv u0 c edges (foldl (relax maxTimeSec c) (dist, rest) edges).
Proof.
  intros Hreach Hc Hg Hinv.
  apply (foldl_invariant (relax maxTimeSec c) (relax_inv u0 c)); [done|].
  intros pre e st Hst He. by eapply relax_preserves.
Qed.

(** Dropping a popped entry that is stale, beyond the budget or without
    edges keeps the invariant. *)
Lemma search_inv_pop_skip dist c u rest :
  search_inv dist ((c, u) :: rest) →
  (∀ d, jm_get dist u = Some d → d = c → closed dist u c) →
  search_inv dist rest.
Proof.
  intros [Hnd Hsound Hq Hpend Hstart] Hskip. constructor; try done.
  - intros c' u' Hin. apply Hq. apply elem_of_cons. by right.
  - intros u' d Hget. destruct (Hpend _ _ Hget) as [Hin|Hcl]; [|by right].
    apply elem_of_cons in Hin as [[= -> ->]|Hin]; [|by left].
    right. by eapply Hskip.
Qed.

Lemma search_loop_inv fuel dist queue r :
  search_inv dist queue →
  search_loop fuel maxTimeSec graph dist queue = Some r →
  search_inv r [].
Proof.
  revert dist queue. induction fuel as [|fuel IH]; intros dist queue Hinv Hrun.
  - destruct queue as [|[c u] rest]; simpl in Hrun; [|done].
    by injection Hrun as <-.
  - destruct queue as [|[c u] rest]; simpl in Hrun.
    { by injection Hrun as <-. }
    destruct (inv_queue _ _ _ _ _ Hinv c u) as (d & Hd & Hdc).
    { apply elem_of_cons. by left. }
    rewrite Hd in Hrun.
    destruct (Z.ltb_spec d c) as [Hlt|Hge].
    { apply (IH dist rest); [|done].
      apply (search_inv_pop_skip dist c u rest Hinv).
      intros d' Hd' ->. rewrite Hd in Hd'. injection Hd' as ->. lia. }
    assert (d = c) as -> by lia.
    destruct (Z.leb_spec c maxTimeSec) as [Hc|Hc].
    2:{ apply (IH dist rest); [|done].
        apply (search_inv_pop_skip dist c u rest Hinv).
        intros _ _ _ Hle. lia. }
    destruct (graph !! u) as [edges|] eqn:Hg.
    2:{ apply (IH dist rest); [|done].
        apply (search_inv_pop_skip dist c u rest Hinv).
        intros _ _ _ _ edges e Hg'. congruence. }
    destruct (foldl (relax maxTimeSec c) (dist, rest) edges) as [dist' queue'] eqn:Hfold.
    apply (IH dist' queue'); [|done].
    assert (Reach u c) as Hreach by (by eapply inv_sound).
    assert (relax_inv u c [] (dist, rest)) as Hr0.
    { destruct Hinv as [Hnd Hsound Hq Hpend Hstart]. constructor; simpl; try done.
      - intros c' u' Hin. apply Hq, elem_of_cons. by right.
      - intros u' d' Hget. destruct (Hpend _ _ Hget) as [Hin|Hcl].
        + apply elem_of_cons in Hin as [[= -> ->]|Hin]; [by right; right | by left].
        + right. by left.
      - intros e He. by apply elem_of_nil in He. }
    pose proof (relax_fold_inv u c edges dist rest Hreach Hc Hg Hr0) as Hr.
    rewrite Hfold in Hr.
    destruct Hr as [Hnd Hsound Hq Hpend Hstart Hdone]. simpl in *.
    constructor; try done.
    intros u' d' Hget. destruct (Hpend _ _ Hget) as [Hin|[Hcl|[-> ->]]];
      [by left | by right |].
    right. intros _ edges' e Hg' He Hw.
    rewrite Hg in Hg'. injection Hg' as <-. by apply Hdone.
Qed.

(** At the end of the loop the recorded times are the least bounded
    walk times. *)
Lemma search_inv_complete dist v d :
  search_inv dist [] → Reach v d → ∃ d', jm_get dist v = Some d' ∧ d' ≤ d.
Proof.
  intros Hinv Hreach. induction Hreach as [s Hs Hrem|u d edges e Hu IH Hd Hg He Hw].
  - by eapply inv_start.
  - destruct IH as (d0 & Hd0 & Hle0).
    destruct (inv_pending _ _ _ _ _ Hinv u d0 Hd0) as [Hin|Hcl].
    { by apply elem_of_nil in Hin. }
    destruct (Hcl ltac:(lia) edges e Hg He ltac:(lia)) as (d1 & Hd1 & Hle1).
    exists d1. split; [done | lia].
Qed.
End SearchCorrect.

Lemma init_search_init_inv startStations :
  init_inv startStations (init_search startStations).
Proof.
  unfold init_search.
  apply (foldl_invariant _ init_inv).
  - constructor; simpl.
    + apply NoDup_nil_2.
    + intros v d [=].
    + intros c u Hin. by apply elem_of_nil in Hin.
    + intros s Hs. by apply elem_of_nil in Hs.
  - intros pre s [dist queue] [Hnd Hdist Hq Hstart] _. cbn [fst snd] in *.
    destruct (Z.leb_spec 0 (StartStation.remainingTimeSec s)) as [Hrem|Hrem].
    + constructor; cbn [fst snd].
      * by apply jm_set_NoDup.
      * intros v d. rewrite jm_get_set. case_decide as Hv.
        -- intros [= <-]. subst v. split; [done|]. split.
           ++ apply elem_of_app. right. by apply list_elem_of_singleton.
           ++ exists s. split; [|done]. apply elem_of_app. right.
              by apply list_elem_of_singleton.
        -- intros Hget. destruct (Hdist _ _ Hget) as (-> & Hin & s' & Hs' & Hr' & Hid).
           split; [done|]. split; [apply elem_of_app; by left|].
           exists s'. split; [|done]. apply elem_of_app. by left.
      * intros c u Hin. rewrite jm_get_set.
        apply elem_of_app in Hin as [Hin|Hin].
        -- destruct (Hq _ _ Hin) as [-> Hget]. split; [done|]. by case_decide.
        -- apply list_elem_of_singleton in Hin as [= -> ->].
           split; [done|]. by rewrite decide_True.
      * intros s' Hs' Hr'. rewrite jm_get_set. case_decide; [done|].
        apply elem_of_app in Hs' as [Hs'|Hs']; [by apply Hstart|].
        apply list_elem_of_singleton in Hs' as ->. done.
    + constructor; cbn [fst snd]; try done.
      * intros v d Hget. destruct (Hdist _ _ Hget) as (-> & Hin & s' & Hs' & Hr' & Hid).
        split; [done|]. split; [done|].
        exists s'. split; [|done]. apply elem_of_app. by left.
      * intros s' Hs' Hr'.
        apply elem_of_app in Hs' as [Hs'|Hs']; [by apply Hstart|].
        apply list_elem_of_singleton in Hs' as ->. lia.
Qed.

Lemma init_search_inv graph startStations maxTimeSec :
  search_inv graph startStations maxTimeSec
    (init_search startStations).1 (sort_queue (init_search startStations).2).
Proof.
  destruct (init_search_init_inv startStations) as [Hnd Hdist Hq Hstart].
  constructor.
  - done.
  - intros v d Hget. destruct (Hdist _ _ Hget) as (-> & _ & s & Hs & Hrem & <-).
    by apply Reach_start.
  - intros c u Hin. rewrite elem_of_sort_queue in Hin.
    destruct (Hq _ _ Hin) as [-> Hget]. exists 0. split; [done | lia].
  - intros u d Hget. left. apply elem_of_sort_queue.
    by destruct (Hdist _ _ Hget) as (-> & Hin & _).
  - intros s Hs Hrem. exists 0. split; [by apply Hstart | lia].
Qed.

Lemma filter_within_get maxTimeSec dist v :
  NoDup (jm_keys dist) →
  jm_get (filter_within maxTimeSec dist) v =
    jm_get dist v ≫= λ d, if d <=? maxTimeSec then Some d else None.
Proof.
  unfold filter_within.
  set (f := λ (result : JsMap string Z) '(stationId, time),
              if time <=? maxTimeSec then jm_set result stationId time
              else result).
  assert (∀ l acc, NoDup (jm_keys l) →
            jm_get (foldl f acc l) v =
            match jm_get l v with
            | Some d => if d <=? maxTimeSec then Some d else jm_get acc v
            | None => jm_get acc v
            end) as Hgen.
  { induction l as [|[k d] l IH]; intros acc Hnd; [done|].
    unfold jm_keys in Hnd. simpl in Hnd. apply NoDup_cons in Hnd as [Hfresh Hnd].
    cbn [foldl jm_get]. rewrite IH by done. unfold f.
    destruct (decide (k = v)) as [->|Hne].
    - apply jm_get_None in Hfresh. rewrite Hfresh.
      destruct (d <=? maxTimeSec); [apply jm_get_set_eq | done].
    - destruct (d <=? maxTimeSec); [|done].
      by rewrite jm_get_set_ne. }
  intros Hnd. rewrite Hgen by done. simpl.
  destruct (jm_get dist v) as [d|]; simpl; [|done].
  by destruct (d <=? maxTimeSec).
Qed.

Lemma filter_within_NoDup maxTimeSec dist : NoDup (jm_keys (filter_within maxTimeSec dist)).
Proof.
  unfold filter_within.
  apply (foldl_invariant _ (λ _ (acc : JsMap string Z), NoDup (jm_keys acc))).
  - apply NoDup_nil_2.
  - intros _ [k d] acc Hacc _. destruct (d <=? maxTimeSec); [|done].
    by apply jm_set_NoDup.
Qed.

(** The search returns, for every station with a walk within the budget,
    the least time of such a walk. *)
Lemma findReachableStations_spec fuel startStations maxTimeSec graph r :
  findReachableStations fuel startStations maxTimeSec graph = Some r →
  ∀ v d, jm_get r v = Some d ↔
    d ≤ maxTimeSec ∧ Reach graph startStations maxTimeSec v d ∧
    ∀ d', Reach graph startStations maxTimeSec v d' → d ≤ d'.
Proof.
  unfold findReachableStations.
  pose proof (init_search_inv graph startStations maxTimeSec) as Hinit.
  destruct (init_search startStations) as [dist0 queue0]. cbn [fst snd] in Hinit.
  destruct (search_loop _ _ _ _ _) as [dist|] eqn:Hrun; [|done].
  intros [= <-] v d.
  pose proof (search_loop_inv _ _ _ _ _ _ _ Hinit Hrun) as Hinv.
  rewrite filter_within_get by apply Hinv.
  split.
  - destruct (jm_get dist v) as [d0|] eqn:Hget; simpl; [|done].
    destruct (Z.leb_spec d0 maxTimeSec) as [Hle|Hgt]; [|done].
    intros [= <-]. split; [done|]. split; [by eapply inv_sound|].
    intros d' Hd'.
    destruct (search_inv_complete _ _ _ _ _ _ Hinv Hd') as (d1 & Hd1 & Hle1).
    rewrite Hget in Hd1. injection Hd1 as <-. done.
  - intros (Hle & Hreach & Hmin).
    destruct (search_inv_complete _ _ _ _ _ _ Hinv Hreach) as (d1 & Hd1 & Hle1).
    rewrite Hd1. simpl.
    assert (d ≤ d1) by (apply Hmin; by eapply inv_sound).
    assert (d1 = d) as -> by lia.
    destruct (Z.leb_spec d maxTimeSec); [done | lia].
Qed.

Lemma findReachableStations_NoDup fuel startStations maxTimeSec graph r :
  findReachableStations fuel startStations maxTimeSec graph = Some r →
  NoDup (jm_keys r).
Proof.
  unfold findReachableStations. destruct (init_search startStations) as [dist0 queue0].
  destruct (search_loop _ _ _ _ _); [|done]. intros [= <-].
  apply filter_within_NoDup.
Qed.

Lemma findReachableStations_complete fuel startStations maxTimeSec graph r v d :
  findReachableStations fuel startStations maxTimeSec graph = Some r →
  Reach graph startStations maxTimeSec v d → d ≤ maxTimeSec →
  ∃ d', jm_get r v = Some d' ∧ d' ≤ d.
Proof.
  unfold findReachableStations.
  pose proof (init_search_inv graph startStations maxTimeSec) as Hinit.
  destruct (init_search startStations) as [dist0 queue0]. cbn [fst snd] in Hinit.
  destruct (search_loop _ _ _ _ _) as [dist|] eqn:Hrun; [|done].
  intros [= <-] Hreach Hd.
  pose proof (search_loop_inv _ _ _ _ _ _ _ Hinit Hrun) as Hinv.
  destruct (search_inv_complete _ _ _ _ _ _ Hinv Hreach) as (d1 & Hd1 & Hle1).
  exists d1. split; [|done].
  rewrite filter_within_get by apply Hinv. rewrite Hd1. simpl.
  destruct (Z.leb_spec d1 maxTimeSec); [done | lia].
Qed.

Lemma Reach_budget_mono graph startStations t1 t2 v d :
  t1 ≤ t2 → Reach graph startStations t1 v d → Reach graph startStations t2 v d.
Proof.
  intros Hle Hreach. induction Hreach as [s Hs Hrem|u d edges e Hu IH Hd Hg He Hw].
  - by apply Reach_start.
  - eapply Reach_step; [done | lia | done | done | lia].
Qed.

Lemma buildGraph_lookup network k :
  buildGraph network !! k =
    if decide (k ∈ Station.id <$> ProcessedNetwork.stations network)
    then Some (filter (λ e, Edge.fromId e = k) (ProcessedNetwork.edges network))
    else None.
Proof.
  unfold buildGraph. destruct network as [stations edges]. simpl.
  set (g0 := foldl (λ (g : Graph) station, <[Station.id station := []]> g) ∅ stations).
  assert (g0 !! k = if decide (k ∈ Station.id <$> stations) then Some [] else None) as Hg0.
  { unfold g0.
    pose proof (foldl_invariant
      (λ (g : Graph) station, <[Station.id station := []]> g)
      (λ pre (g : Graph),
         g !! k = if decide (k ∈ Station.id <$> pre) then Some [] else None)
      stations ∅) as Hfold.
    apply Hfold; clear Hfold.
    - rewrite lookup_empty. case_decide as Hin; [|done].
      by apply elem_of_nil in Hin.
    - intros pre s g Hg _. rewrite lookup_insert.
      assert (k ∈ Station.id <$> pre ++ [s] ↔
              k ∈ Station.id <$> pre ∨ Station.id s = k) as Hiff.
      { rewrite fmap_app, elem_of_app. simpl. rewrite list_elem_of_singleton.
        split; (intros [?|?]; [by left | by right]). }
      destruct (decide (Station.id s = k)) as [Heq|Hne].
      + rewrite decide_True; [done|]. apply Hiff. by right.
      + rewrite Hg. destruct (decide (k ∈ Station.id <$> pre)) as [Hin|Hnin].
        * rewrite decide_True; [done|]. apply Hiff. by left.
        * rewrite decide_False; [done|]. rewrite Hiff. tauto. }
  assert (∀ edges (g : Graph),
            foldl (λ (g : Graph) edge,
                     match g !! Edge.fromId edge with
                     | Some es => <[Edge.fromId edge := es ++ [edge]]> g
                     | None => g
                     end) g edges !! k
            = (λ es, es ++ filter (λ e, Edge.fromId e = k) edges) <$> g !! k) as Hgen.
  { clear. induction edges as [|e edges IH]; intros g; simpl.
    - destruct (g !! k); simpl; [|done]. by rewrite app_nil_r.
    - rewrite IH. destruct (decide (Edge.fromId e = k)) as [Hk|Hk].
      + rewrite filter_cons_True by done. subst k.
        destruct (g !! Edge.fromId e) as [es|] eqn:Hes.
        * rewrite lookup_insert_eq. simpl. by rewrite <- app_assoc.
        * by rewrite Hes.
      + rewrite filter_cons_False by done.
        destruct (g !! Edge.fromId e) as [es|] eqn:Hes; [|done].
        by rewrite lookup_insert_ne. }
  rewrite Hgen, Hg0. by case_decide.
Qed.

(** ** The search terminates on graphs with non-negative travel times *)

Lemma sum_list_fmap_le {A} (f f' : A → nat) (l : list A) :
  (∀ x, (f' x ≤ f x)%nat) → (sum_list (f' <$> l) ≤ sum_list (f <$> l))%nat.
Proof.
  intros Hle. induction l as [|x l IH]; [simpl; lia|].
  rewrite !fmap_cons. simpl. specialize (Hle x). lia.
Qed.

Lemma sum_list_fmap_lt {A} (f f' : A → nat) (l : list A) v :
  (∀ x, (f' x ≤ f x)%nat) → v ∈ l → (f' v < f v)%nat →
  (sum_list (f' <$> l) < sum_list (f <$> l))%nat.
Proof.
  intros Hle Hin Hlt. induction l as [|x l IH].
  - by apply elem_of_nil in Hin.
  - rewrite !fmap_cons. simpl. apply elem_of_cons in Hin as [<-|Hin].
    + pose proof (sum_list_fmap_le f f' l Hle). lia.
    + specialize (IH Hin). specialize (Hle x). lia.
Qed.

Lemma potential_set_lt universe maxTimeSec dist v new :
  v ∈ universe → 0 ≤ new ≤ maxTimeSec →
  (jm_get dist v = None ∨ ∃ d', jm_get dist v = Some d' ∧ new < d') →
  (potential universe maxTimeSec (jm_set dist v new) <
   potential universe maxTimeSec dist)%nat.
Proof.
  intros Hv Hnew Hold. unfold potential.
  apply sum_list_fmap_lt with (v := v); [|done|].
  - intros x. rewrite jm_get_set. case_decide as Hx; [subst x|lia].
    destruct Hold as [->|(d' & -> & Hlt)]; simpl; lia.
  - rewrite jm_get_set_eq.
    destruct Hold as [->|(d' & -> & Hlt)]; simpl; lia.
Qed.

Lemma elem_of_search_universe_target startStations (graph : Graph) u edges e :
  graph !! u = Some edges → e ∈ edges →
  Edge.toId e ∈ search_universe startStations graph.
Proof.
  intros Hg He. unfold search_universe. apply elem_of_app. right.
  apply list_elem_of_bind. exists (u, edges). split.
  - apply list_elem_of_fmap. by exists e.
  - by apply elem_of_map_to_list.
Qed.

Section SearchTerminates.
Context (graph : Graph) (startStations : list StartStation.t) (maxTimeSec : Z).
Context (Hnonneg : graph_nonneg graph).

Local Abbreviation universe := (search_universe startStations graph).
Local Abbreviation measure := (search_measure universe maxTimeSec).

Lemma relax_measure u c edges e st :
  graph !! u = Some edges → e ∈ edges → 0 ≤ c → queue_nonneg st.2 →
  (measure (relax maxTimeSec c st e) ≤ measure st)%nat ∧
  queue_nonneg (relax maxTimeSec c st e).2.
Proof.
  intros Hg He Hc Hq. destruct st as [dist queue]. cbn [snd] in Hq.
  pose proof (Hnonneg u edges e Hg He) as Hw.
  destruct (relax_cases maxTimeSec c dist queue e) as [[-> _]|(-> & Hle & Hold)].
  - split; [lia | done].
  - split.
    + unfold search_measure. cbn [fst snd].
      rewrite length_sort_queue, length_app. simpl.
      assert (Edge.toId e ∈ universe) as Hin
        by (by eapply elem_of_search_universe_target).
      pose proof (potential_set_lt universe maxTimeSec dist (Edge.toId e)
                    (c + Edge.travelTimeSec e) Hin ltac:(lia) Hold) as Hlt.
      lia.
    + cbn [snd]. intros c' u' Hin.
      apply elem_of_sort_queue, elem_of_app in Hin as [Hin|Hin]; [by eapply Hq|].
      apply list_elem_of_singleton in Hin as [= -> ->]. lia.
Qed.

Lemma relax_fold_measure u c edges st :
  graph !! u = Some edges → 0 ≤ c → queue_nonneg st.2 →
  (measure (foldl (relax maxTimeSec c) st edges) ≤ measure st)%nat ∧
  queue_nonneg (foldl (relax maxTimeSec c) st edges).2.
Proof.
  intros Hg Hc Hq.
  apply (foldl_invariant (relax maxTimeSec c)
           (λ _ st', (measure st' ≤ measure st)%nat ∧ queue_nonneg st'.2)).
  - split; [lia | done].
  - intros _ e st' [Hm Hq'] He.
    destruct (relax_measure u c edges e st' Hg He Hc Hq') as [Hm' Hq''].
    split; [lia | done].
Qed.

Lemma search_loop_terminates fuel dist queue :
  queue_nonneg queue → (measure (dist, queue) ≤ fuel)%nat →
  is_Some (search_loop fuel maxTimeSec graph dist queue).
Proof.
  revert dist queue. induction fuel as [|fuel IH]; intros dist queue Hq Hm.
  - destruct queue as [|[c u] rest]; simpl; [by eexists|].
    unfold search_measure in Hm. simpl in Hm. lia.
  - destruct queue as [|[c u] rest]; simpl; [by eexists|].
    assert (queue_nonneg rest) as Hrest.
    { intros c' u' Hin. eapply Hq. apply elem_of_cons. by right. }
    assert (0 ≤ c) as Hc.
    { eapply Hq. apply elem_of_cons. by left. }
    assert (measure (dist, rest) ≤ fuel)%nat as Hmrest.
    { unfold search_measure in *. simpl in *. lia. }
    destruct (match jm_get dist u with Some bestTime => bestTime <? c | None => false end);
      [by apply IH|].
    destruct (c <=? maxTimeSec); [|by apply IH].
    destruct (graph !! u) as [edges|] eqn:Hg; [|by apply IH].
    destruct (relax_fold_measure u c edges (dist, rest) Hg Hc Hrest) as [Hm' Hq'].
    destruct (foldl (relax maxTimeSec c) (dist, rest) edges) as [dist' queue'].
    apply IH; [done | lia].
Qed.
End SearchTerminates.

Lemma search_loop_fuel_mono fuel fuel' maxTimeSec graph dist queue r :
  search_loop fuel maxTimeSec graph dist queue = Some r → (fuel ≤ fuel')%nat →
  search_loop fuel' maxTimeSec graph dist queue = Some r.
Proof.
  revert fuel' dist queue. induction fuel as [|fuel IH]; intros fuel' dist queue Hrun Hle.
  - destruct queue as [|[c u] rest]; simpl in Hrun; [|done].
    by destruct fuel'.
  - destruct queue as [|[c u] rest]; simpl in Hrun.
    { by destruct fuel'. }
    destruct fuel' as [|fuel']; [lia|]. simpl.
    destruct (match jm_get dist u with Some bestTime => bestTime <? c | None => false end);
      [apply IH; [done | lia]|].
    destruct (c <=? maxTimeSec); [|apply IH; [done | lia]].
    destruct (graph !! u) as [edges|]; [|apply IH; [done | lia]].
    destruct (foldl (relax maxTimeSec c) (dist, rest) edges) as [dist' queue'].
    apply IH; [done | lia].
Qed.

Lemma findReachableStations_fuel_mono fuel fuel' startStations maxTimeSec graph r :
  findReachableStations fuel startStations maxTimeSec graph = Some r →
  (fuel ≤ fuel')%nat →
  findReachableStations fuel' startStations maxTimeSec graph = Some r.
Proof.
  unfold findReachableStations. destruct (init_search startStations) as [dist0 queue0].
  destruct (search_loop fuel _ _ _ _) as [dist|] eqn:Hrun; [|done].
  intros [= <-] Hle. by rewrite (search_loop_fuel_mono _ _ _ _ _ _ _ Hrun Hle).
Qed.

Lemma findReachableStations_terminates fuel startStations maxTimeSec graph :
  graph_nonneg graph →
  (search_fuel startStations maxTimeSec graph ≤ fuel)%nat →
  is_Some (findReachableStations fuel startStations maxTimeSec graph).
Proof.
  intros Hnonneg Hfuel. unfold findReachableStations, search_fuel in *.
  destruct (init_search_init_inv startStations) as [_ _ Hq _].
  destruct (init_search startStations) as [dist0 queue0]. cbn [fst snd] in *.
  destruct (search_loop_terminates graph startStations maxTimeSec Hnonneg
              fuel dist0 (sort_queue queue0)) as [dist Hrun].
  - intros c u Hin. rewrite elem_of_sort_queue in Hin. destruct (Hq _ _ Hin). lia.
  - unfold search_measure in *. cbn [fst snd] in *. by rewrite length_sort_queue.
  - rewrite Hrun. by eexists.
Qed.

(** ** The merge over start stations keeps the least total time *)

Lemma merge_into_get w m r v :
  NoDup (jm_keys r) →
  jm_get (merge_into w m r) v =
    match jm_get r v with
    | Some s => Some (match jm_get m v with
                      | Some T => Z.min T (w + s)
                      | None => w + s
                      end)
    | None => jm_get m v
    end.
Proof.
  unfold merge_into. revert m.
  induction r as [|[k s] r IH]; intros m Hnd; [done|].
  unfold jm_keys in Hnd. simpl in Hnd. apply NoDup_cons in Hnd as [Hfresh Hnd].
  cbn [foldl jm_get]. rewrite IH by done.
  destruct (decide (k = v)) as [->|Hne].
  - apply jm_get_None in Hfresh. rewrite Hfresh.
    destruct (jm_get m v) as [T|] eqn:Hm.
    + destruct (Z.ltb_spec (w + s) T) as [Hlt|Hge].
      * rewrite jm_get_set_eq. f_equal. lia.
      * rewrite Hm. f_equal. lia.
    + by rewrite jm_get_set_eq.
  - assert (∀ b : bool, jm_get (if b then jm_set m k (w + s) else m) v = jm_get m v)
      as Hsame by (intros []; [by apply jm_get_set_ne | done]).
    by rewrite Hsame.
Qed.

Lemma merge_into_NoDup w m r : NoDup (jm_keys m) → NoDup (jm_keys (merge_into w m r)).
Proof.
  intros Hm. unfold merge_into.
  apply (foldl_invariant _ (λ _ (acc : JsMap string Z), NoDup (jm_keys acc))); [done|].
  intros _ [k s] acc Hacc _.
  destruct (match jm_get acc k with Some existingTime => w + s <? existingTime | None => true end);
    [by apply jm_set_NoDup | done].
Qed.

Lemma candidate_total_app fuel maxTravelTimeSec graph l1 l2 v T :
  candidate_total fuel maxTravelTimeSec graph (l1 ++ l2) v T ↔
  candidate_total fuel maxTravelTimeSec graph l1 v T ∨
  candidate_total fuel maxTravelTimeSec graph l2 v T.
Proof.
  unfold candidate_total. split.
  - intros (n & r & s & Hin & Hrest). apply elem_of_app in Hin as [Hin|Hin];
      [left | right]; by exists n, r, s.
  - intros [(n & r & s & Hin & Hrest)|(n & r & s & Hin & Hrest)];
      exists n, r, s; (split; [|done]); apply elem_of_app; [by left | by right].
Qed.

Lemma merge_reachable_inv fuel nearbyStations maxTravelTimeSec graph merged :
  merge_reachable fuel nearbyStations maxTravelTimeSec graph = Some merged →
  merge_inv fuel maxTravelTimeSec graph nearbyStations merged.
Proof.
  unfold merge_reachable. revert merged.
  apply (foldl_invariant _
           (λ pre acc, ∀ merged, acc = Some merged →
                        merge_inv fuel maxTravelTimeSec graph pre merged)).
  - intros merged [= <-]. constructor.
    + apply NoDup_nil_2.
    + intros v T [=].
    + intros v T' (n & _ & _ & Hin & _). by apply elem_of_nil in Hin.
  - intros pre n acc Hacc _ merged' Hstep.
    destruct acc as [merged|]; [|done]. simpl in Hstep.
    destruct (Hacc merged eq_refl) as [Hnd Hsound Hleast].
    destruct (Z.leb_spec (NearbyStation.walkingTimeSec n) maxTravelTimeSec) as [Hw|Hw].
    + destruct (findReachableStations fuel _ _ graph) as [r|] eqn:Hr; [|done].
      simpl in Hstep. injection Hstep as <-.
      pose proof (findReachableStations_NoDup _ _ _ _ _ Hr) as Hndr.
      constructor.
      * by apply merge_into_NoDup.
      * intros v T. rewrite merge_into_get by done. rewrite candidate_total_app.
        destruct (jm_get r v) as [s|] eqn:Hs.
        -- assert (candidate_total fuel maxTravelTimeSec graph [n] v
                     (NearbyStation.walkingTimeSec n + s)) as Hn.
           { exists n, r, s. split; [by apply list_elem_of_singleton | done]. }
           destruct (jm_get merged v) as [T0|] eqn:HT0.
           ++ intros [= <-].
              destruct (Z.min_spec T0 (NearbyStation.walkingTimeSec n + s))
                as [[_ ->]|[_ ->]]; [left; by apply Hsound | by right].
           ++ intros [= <-]. by right.
        -- intros HT. left. by apply Hsound.
      * intros v T'. rewrite merge_into_get by done. rewrite candidate_total_app.
        intros [Hpre|(n' & r' & s' & Hin & _ & Hr' & Hs' & ->)].
        -- destruct (Hleast _ _ Hpre) as (T0 & HT0 & Hle). rewrite HT0.
           destruct (jm_get r v) as [s|]; eexists; (split; [done|]); lia.
        -- apply list_elem_of_singleton in Hin as ->.
           rewrite Hr in Hr'. injection Hr' as <-. rewrite Hs'.
           destruct (jm_get merged v) as [T0|]; eexists; (split; [done|]); lia.
    + injection Hstep as <-. constructor.
      * done.
      * intros v T HT. apply candidate_total_app. left. by apply Hsound.
      * intros v T' HT'. apply candidate_total_app in HT' as [Hpre|Hn].
        -- by apply Hleast.
        -- destruct Hn as (n' & _ & _ & Hin & Hle & _).
           apply list_elem_of_singleton in Hin as ->. lia.
Qed.

Lemma merge_inv_min_total fuel maxTravelTimeSec graph nearbyStations merged v T :
  merge_inv fuel maxTravelTimeSec graph nearbyStations merged →
  jm_get merged v = Some T ↔ min_total fuel maxTravelTimeSec graph nearbyStations v T.
Proof.
  intros [Hnd Hsound Hleast]. split.
  - intros HT. split; [by apply Hsound|].
    intros T' HT'. destruct (Hleast _ _ HT') as (T0 & HT0 & Hle).
    rewrite HT in HT0. injection HT0 as <-. done.
  - intros [Hcand Hmin]. destruct (Hleast _ _ Hcand) as (T0 & HT0 & Hle).
    assert (T ≤ T0) by (apply Hmin; by apply Hsound).
    by replace T with T0 by lia.
Qed.

(** ** Non-negative travel times *)

Lemma buildGraph_nonneg network : network_nonneg network → graph_nonneg (buildGraph network).
Proof.
  intros Hnet u edges e Hg He. rewrite buildGraph_lookup in Hg.
  case_decide; [|done]. injection Hg as <-.
  apply list_elem_of_filter in He as [_ He]. by apply Hnet.
Qed.

Lemma Reach_nonneg graph startStations maxTimeSec v d :
  graph_nonneg graph → Reach graph startStations maxTimeSec v d → 0 ≤ d.
Proof.
  intros Hnonneg Hreach.
  induction Hreach as [s Hs Hrem|u d edges e Hu IH Hd Hg He Hw]; [lia|].
  pose proof (Hnonneg u edges e Hg He). lia.
Qed.

(** With non-negative travel times a start station is in the result, at
    time 0, as soon as the budget is not negative. *)
Lemma findReachableStations_start fuel s maxTimeSec graph r :
  graph_nonneg graph → 0 ≤ StartStation.remainingTimeSec s → 0 ≤ maxTimeSec →
  findReachableStations fuel [s] maxTimeSec graph = Some r →
  jm_get r (StartStation.stationId s) = Some 0.
Proof.
  intros Hnonneg Hrem Ht Hr.
  apply (findReachableStations_spec _ _ _ _ _ Hr). split; [done|]. split.
  - apply Reach_start; [|done]. by apply list_elem_of_singleton.
  - intros d' Hd'. by eapply Reach_nonneg.
Qed.

(** ** The stable sort sorts *)

Lemma stable_sort_sorted {A} (leb : A → A → bool) l :
  (∀ x y, leb x y = true ∨ leb y x = true) →
  (∀ x y z, leb x y = true → leb y z = true → leb x z = true) →
  StronglySorted (λ x y, leb x y = true) (stable_sort leb l).
Proof.
  intros Htotal Htrans.
  assert (∀ x l, StronglySorted (λ x y, leb x y = true) l →
                 StronglySorted (λ x y, leb x y = true) (sort_insert leb x l)) as Hins.
  { intros x l0. induction l0 as [|y l0 IH]; intros Hs; simpl.
    - constructor; [constructor | constructor].
    - apply StronglySorted_inv in Hs as [Hs Hall].
      destruct (leb x y) eqn:Hxy.
      + constructor; [by constructor|].
        constructor; [done|]. eapply Forall_impl; [done|].
        intros z Hz. by eapply Htrans.
      + constructor; [by apply IH|].
        assert (leb y x = true) as Hyx by (destruct (Htotal x y); congruence).
        rewrite Forall_forall. intros z Hz.
        rewrite sort_insert_perm in Hz. apply elem_of_cons in Hz as [->|Hz]; [done|].
        rewrite Forall_forall in Hall. by apply Hall. }
  unfold stable_sort. induction l as [|x l IH]; simpl; [constructor|].
  by apply Hins.
Qed.

Lemma calculateWalkingTime_mono d1 d2 :
  (d1 <= d2)%Q →
  calculateWalkingTime d1 WALKING_SPEED_MPH ≤ calculateWalkingTime d2 WALKING_SPEED_MPH.
Proof.
  intros Hle. unfold calculateWalkingTime, Math_round, WALKING_SPEED_MPH, Qdiv.
  apply Qfloor_resp_le.
  apply Qplus_le_compat; [|apply Qle_refl].
  apply Qmult_le_compat_r; [|discriminate].
  apply Qmult_le_compat_r; [done | discriminate].
Qed.

Section IsochroneFacts.
Context (turf_distance : Q * Q → Q * Q → Q).
Context {Polygon : Type}.
Context (turf_buffer : Q * Q → Q → Polygon).
Context (turf_union : list Polygon → option Polygon).

Local Abbreviation nearest := (findNearestStations turf_distance).
Local Abbreviation isochrone := (createIsochrone turf_distance turf_buffer turf_union).

(** Every record of [findNearestStations] carries the walking time of its
    distance. *)
Lemma findNearestStations_record officeLat officeLon stations maxWalk n :
  n ∈ nearest officeLat officeLon stations maxWalk →
  NearbyStation.station n ∈ stations ∧
  NearbyStation.walkingTimeSec n
    = calculateWalkingTime (NearbyStation.distanceMiles n) WALKING_SPEED_MPH.
Proof.
  unfold findNearestStations. rewrite stable_sort_perm. revert n.
  apply (foldl_invariant _
           (λ _ (results : list NearbyStation.t), ∀ n, n ∈ results →
              NearbyStation.station n ∈ stations ∧
              NearbyStation.walkingTimeSec n
                = calculateWalkingTime (NearbyStation.distanceMiles n) WALKING_SPEED_MPH)).
  - intros n Hn. by apply elem_of_nil in Hn.
  - intros _ station results Hres Hst n.
    destruct (Qle_bool _ _); [|by apply Hres].
    intros Hn. apply elem_of_app in Hn as [Hn|Hn]; [by apply Hres|].
    by apply list_elem_of_singleton in Hn as ->.
Qed.

(** The first record is a nearest station: no record has a smaller walking
    time. *)
Lemma findNearestStations_head officeLat officeLon stations maxWalk n rest m :
  nearest officeLat officeLon stations maxWalk = n :: rest →
  m ∈ n :: rest →
  NearbyStation.walkingTimeSec n ≤ NearbyStation.walkingTimeSec m.
Proof.
  intros Hsorted Hm.
  assert (∀ x, x ∈ n :: rest →
            NearbyStation.walkingTimeSec x
              = calculateWalkingTime (NearbyStation.distanceMiles x) WALKING_SPEED_MPH)
    as Hrec.
  { intros x Hx. rewrite <- Hsorted in Hx.
    by apply findNearestStations_record in Hx as [_ ?]. }
  apply elem_of_cons in Hm as [->|Hm]; [lia|].
  rewrite (Hrec n), (Hrec m);
    [|apply elem_of_cons; by right | apply elem_of_cons; by left].
  apply calculateWalkingTime_mono.
  unfold findNearestStations in Hsorted.
  match type of Hsorted with stable_sort ?leb ?l = _ =>
    pose proof (stable_sort_sorted leb l) as Hss end.
  rewrite Hsorted in Hss.
  apply StronglySorted_inv in Hss as [_ Hall].
  - rewrite Forall_forall in Hall. apply Qle_bool_iff. by apply Hall.
  - intros x y. rewrite !Qle_bool_iff.
    destruct (Qlt_le_dec (NearbyStation.distanceMiles y) (NearbyStation.distanceMiles x));
      [right; by apply Qlt_le_weak | by left].
  - intros x y z. rewrite !Qle_bool_iff. apply Qle_trans.
Qed.

(** ** The outcomes of [createIsochrone] *)

Lemma createIsochrone_no_valid_start fuel office network maxT wd mwd :
  (∀ n, n ∈ nearest (GeocodeResult.latitude office)
              (GeocodeResult.longitude office)
              (ProcessedNetwork.stations network) mwd →
        maxT ≤ NearbyStation.walkingTimeSec n) →
  isochrone fuel office network maxT wd mwd = Some None.
Proof.
  intros Hall. unfold createIsochrone.
  destruct (length _ =? 0)%nat; [done|].
  match goal with |- context [filter ?P ?l] =>
    assert (filter P l = []) as -> end; [|done].
  apply filter_none. intros s Hs.
  apply list_elem_of_fmap in Hs as (n & -> & Hn). simpl.
  specialize (Hall n Hn). lia.
Qed.

Lemma createIsochrone_result fuel office network maxT wd mwd iso :
  isochrone fuel office network maxT wd mwd = Some (Some iso) →
  ∃ merged,
    merge_reachable fuel
      (nearest (GeocodeResult.latitude office) (GeocodeResult.longitude office)
         (ProcessedNetwork.stations network) mwd)
      maxT (buildGraph network) = Some merged ∧
    reachableStations iso
      = ((λ '(stationId, travelTimeSec), ReachableStation.mk stationId travelTimeSec)
           <$> merged) ∧
    totalStations iso = length merged.
Proof.
  unfold createIsochrone.
  destruct (length _ =? 0)%nat; [done|].
  destruct (length _ =? 0)%nat; [done|].
  destruct (merge_reachable _ _ _ _) as [merged|]; [|done]. simpl.
  destruct (length _ =? 0)%nat; [done|].
  destruct (unionBuffers _ _) as [poly|]; [|done].
  intros [= <-]. exists merged. simpl. split; [done|]. split; [done|].
  by rewrite length_fmap.
Qed.

Lemma search_fuel_le_isochrone_fuel nearbyStations maxT graph n :
  n ∈ nearbyStations →
  (search_fuel [start_of maxT n] (maxT - NearbyStation.walkingTimeSec n) graph
     ≤ isochrone_fuel nearbyStations maxT graph)%nat.
Proof.
  induction nearbyStations as [|m l IH]; intros Hn.
  - by apply elem_of_nil in Hn.
  - simpl. apply elem_of_cons in Hn as [->|Hn]; [lia|].
    specialize (IH Hn). lia.
Qed.

Lemma merge_reachable_terminates fuel nearbyStations maxT graph :
  graph_nonneg graph →
  (isochrone_fuel nearbyStations maxT graph ≤ fuel)%nat →
  is_Some (merge_reachable fuel nearbyStations maxT graph).
Proof.
  intros Hnonneg Hfuel. unfold merge_reachable.
  apply (foldl_invariant _ (λ _ (acc : option (JsMap string Z)), is_Some acc)).
  - by eexists.
  - intros _ n acc [merged ->] Hn. simpl.
    destruct (_ <=? _); [|by eexists].
    destruct (findReachableStations_terminates fuel [start_of maxT n]
                (maxT - NearbyStation.walkingTimeSec n) graph Hnonneg) as [r ->].
    + pose proof (search_fuel_le_isochrone_fuel nearbyStations maxT graph n Hn). lia.
    + by eexists.
Qed.

Lemma createIsochrone_terminates fuel office network maxT wd mwd :
  network_nonneg network →
  (isochrone_fuel
     (nearest (GeocodeResult.latitude office) (GeocodeResult.longitude office)
        (ProcessedNetwork.stations network) mwd)
     maxT (buildGraph network) ≤ fuel)%nat →
  is_Some (isochrone fuel office network maxT wd mwd).
Proof.
  intros Hnonneg Hfuel. unfold createIsochrone.
  destruct (length _ =? 0)%nat; [by eexists|].
  destruct (length _ =? 0)%nat; [by eexists|].
  destruct (merge_reachable_terminates fuel _ maxT (buildGraph network)
              (buildGraph_nonneg network Hnonneg) Hfuel) as [merged ->].
  simpl. destruct (length _ =? 0)%nat; [by eexists|].
  destruct (unionBuffers _ _); by eexists.
Qed.
End IsochroneFacts.

(** ** [createIsochrone] over a library that may throw *)

Lemma merge_reachable_nonempty fuel nearbyStations maxT graph merged n :
  graph_nonneg graph →
  (isochrone_fuel nearbyStations maxT graph ≤ fuel)%nat →
  merge_reachable fuel nearbyStations maxT graph = Some merged →
  n ∈ nearbyStations →
  NearbyStation.walkingTimeSec n < maxT →
  merged ≠ [].
Proof.
  intros Hgraph Hfuel Hmerge Hn Hwalk.
  pose proof (merge_reachable_inv _ _ _ _ _ Hmerge) as Hinv.
  assert (search_fuel [start_of maxT n] (maxT - NearbyStation.walkingTimeSec n) graph
          ≤ fuel)%nat as Hfuel_n.
  { etrans; [by apply search_fuel_le_isochrone_fuel|done]. }
  destruct (findReachableStations_terminates fuel [start_of maxT n]
              (maxT - NearbyStation.walkingTimeSec n) graph Hgraph Hfuel_n) as [r Hr].
  pose proof (findReachableStations_start fuel (start_of maxT n)
                (maxT - NearbyStation.walkingTimeSec n) graph r Hgraph) as Hstart.
  simpl in Hstart. specialize (Hstart ltac:(lia) ltac:(lia) Hr).
  destruct (minv_least _ _ _ _ _ Hinv (Station.id (NearbyStation.station n))
              (NearbyStation.walkingTimeSec n + 0)) as (T & HT & _).
  { exists n, r, 0. split; [done|]. split; [lia|]. by split. }
  intros ->. done.
Qed.

Lemma omap_id_Some {A} (l : list A) : omap id (Some <$> l) = l.
Proof.
  induction l as [|x l IH]; [done|].
  change (x :: omap id (Some <$> l) = x :: l). by rewrite IH.
Qed.

(** A loop whose body always returns is the loop without exceptions. *)
Lemma foldl_call_returning {A A' B} (f : A → B → call A) (g : A' → B → A')
    (h : A' → A) l a :
  (∀ a x, f (h a) x = Value (h (g a x))) →
  foldl_call f (h a) l = Value (h (foldl g a l)).
Proof.
  intros Hstep. revert a. induction l as [|x l IH]; intros a; [done|].
  cbn [foldl_call foldl]. rewrite Hstep. apply IH.
Qed.

Section ThrowingFacts.
Context (turf_distance : Q * Q → Q * Q → call Q).
Context {Polygon : Type}.
Context (turf_buffer : Q * Q → Q → call (option Polygon)).
Context (turf_union : list (option Polygon) → call (option Polygon)).

Local Abbreviation distance_to officeLat officeLon station :=
  (Throwing.calculateDistance turf_distance officeLat officeLon
     (Station.lat station) (Station.lon station)).
Local Abbreviation nearest := (Throwing.findNearestStations turf_distance).
Local Abbreviation isochrone :=
  (Throwing.createIsochrone turf_distance turf_buffer turf_union).
Local Abbreviation nearest_step officeLat officeLon maxWalk :=
  (λ (results : list NearbyStation.t) station,
     distance ← distance_to officeLat officeLon station;
     if Qle_bool distance maxWalk then
       let walkingTime := calculateWalkingTime distance WALKING_SPEED_MPH in
       Value (results ++ [NearbyStation.mk station distance walkingTime])
     else Value results).

(** The loop of [findNearestStations]: what it has collected when it
    ends. *)
Lemma nearest_loop officeLat officeLon maxWalk stations acc results :
  foldl_call (nearest_step officeLat officeLon maxWalk) acc stations = Value results →
  (∀ station, station ∈ stations →
     ∃ d, distance_to officeLat officeLon station = Value d) ∧
  (∀ n, n ∈ results ↔
        n ∈ acc ∨
        ∃ station d, station ∈ stations ∧
          distance_to officeLat officeLon station = Value d ∧
          Qle_bool d maxWalk = true ∧
          n = NearbyStation.mk station d (calculateWalkingTime d WALKING_SPEED_MPH)).
Proof.
  revert acc. induction stations as [|station stations IH]; intros acc; simpl.
  - intros [= <-]. split.
    + intros station Hin. by apply elem_of_nil in Hin.
    + intros n. split; [by left|]. intros [Hn|(station & d & Hin & _)]; [done|].
      by apply elem_of_nil in Hin.
  - destruct (distance_to officeLat officeLon station) as [d|] eqn:Hd; [|done].
    simpl. intros Hrun.
    destruct (Qle_bool d maxWalk) eqn:Hle; simpl in Hrun;
      apply IH in Hrun as [Hall Hmem]; (split;
        [intros s Hs; apply elem_of_cons in Hs as [->|Hs]; [by exists d | by apply Hall]|]);
      intros n; rewrite Hmem.
    + rewrite elem_of_app, list_elem_of_singleton. split.
      * intros [[Hn| ->]|(s & d' & Hs & Hrest)]; [by left| |].
        -- right. exists station, d. split; [apply elem_of_cons; by left|done].
        -- right. exists s, d'. split; [apply elem_of_cons; by right|done].
      * intros [Hn|(s & d' & Hs & Hd' & Hle' & ->)]; [left; by left|].
        apply elem_of_cons in Hs as [->|Hs].
        -- rewrite Hd in Hd'. injection Hd' as <-. left; by right.
        -- right. by exists s, d'.
    + split.
      * intros [Hn|(s & d' & Hs & Hrest)]; [by left|].
        right. exists s, d'. split; [apply elem_of_cons; by right|done].
      * intros [Hn|(s & d' & Hs & Hd' & Hle' & ->)]; [by left|].
        apply elem_of_cons in Hs as [->|Hs].
        -- rewrite Hd in Hd'. injection Hd' as <-. congruence.
        -- right. by exists s, d'.
Qed.

(** [findNearestStations] returns exactly when every distance does, with
    the stations in range, each with the walking time of its distance. *)
Lemma findNearestStations_Value officeLat officeLon stations maxWalk nearby :
  nearest officeLat officeLon stations maxWalk = Value nearby →
  ∀ n, n ∈ nearby ↔
       ∃ station d, station ∈ stations ∧
         distance_to officeLat officeLon station = Value d ∧
         Qle_bool d maxWalk = true ∧
         n = NearbyStation.mk station d (calculateWalkingTime d WALKING_SPEED_MPH).
Proof.
  unfold Throwing.findNearestStations.
  destruct (foldl_call _ _ _) as [results|] eqn:Hloop; [|done].
  simpl. intros [= <-] n. rewrite stable_sort_perm.
  apply nearest_loop in Hloop as [_ Hmem]. rewrite Hmem.
  split; [|by right]. intros [Hn|?]; [|done]. by apply elem_of_nil in Hn.
Qed.

Lemma findNearestStations_returns officeLat officeLon stations maxWalk :
  (∀ station, station ∈ stations →
     ∃ d, distance_to officeLat officeLon station = Value d) →
  ∃ nearby, nearest officeLat officeLon stations maxWalk = Value nearby.
Proof.
  intros Hall. unfold Throwing.findNearestStations.
  match goal with |- context [foldl_call ?f [] stations] =>
    assert (∀ acc, ∃ results, foldl_call f acc stations = Value results) as Hloop
  end.
  { induction stations as [|station stations IH]; intros acc; simpl; [by eexists|].
    destruct (Hall station) as [d ->]; [apply elem_of_cons; by left|]. simpl.
    destruct (Qle_bool d maxWalk); simpl; apply IH;
      intros s Hs; apply Hall, elem_of_cons; by right. }
  destruct (Hloop []) as [results ->]. simpl. by eexists.
Qed.

Lemma findNearestStations_throws officeLat officeLon stations maxWalk station :
  station ∈ stations →
  distance_to officeLat officeLon station = Throws →
  nearest officeLat officeLon stations maxWalk = Throws.
Proof.
  intros Hin Hthrows. unfold Throwing.findNearestStations.
  match goal with |- context [foldl_call ?f [] stations] =>
    assert (∀ acc, foldl_call f acc stations = Throws) as Hloop
  end.
  { induction stations as [|s stations IH]; intros acc; simpl;
      [by apply elem_of_nil in Hin|].
    destruct (distance_to officeLat officeLon s) as [d|] eqn:Hd; [|done]. simpl.
    apply elem_of_cons in Hin as [->|Hin]; [congruence|].
    destruct (Qle_bool d maxWalk); simpl; by apply IH. }
  by rewrite Hloop.
Qed.

(** *** The outcomes of [createIsochrone] *)

Lemma createIsochrone_throws_nearest fuel office network maxT wd mwd :
  nearest (GeocodeResult.latitude office) (GeocodeResult.longitude office)
    (ProcessedNetwork.stations network) mwd = Throws →
  isochrone fuel office network maxT wd mwd = Some Throws.
Proof. intros Hnear. unfold Throwing.createIsochrone. by rewrite Hnear. Qed.

Lemma createIsochrone_null_no_start fuel office network maxT wd mwd nearby :
  nearest (GeocodeResult.latitude office) (GeocodeResult.longitude office)
    (ProcessedNetwork.stations network) mwd = Value nearby →
  (∀ n, n ∈ nearby → maxT ≤ NearbyStation.walkingTimeSec n) →
  isochrone fuel office network maxT wd mwd = Some (Value None).
Proof.
  intros Hnear Hall. unfold Throwing.createIsochrone. rewrite Hnear.
  destruct (length _ =? 0)%nat; [done|].
  match goal with |- context [filter ?P ?l] =>
    assert (filter P l = []) as -> end; [|done].
  apply filter_none. intros s Hs.
  apply list_elem_of_fmap in Hs as (n & -> & Hn). simpl.
  specialize (Hall n Hn). lia.
Qed.

(** After the searches: the result is decided by the buffers and their
    union. *)
Lemma createIsochrone_after_merge fuel office network maxT wd mwd nearby merged n :
  nearest (GeocodeResult.latitude office) (GeocodeResult.longitude office)
    (ProcessedNetwork.stations network) mwd = Value nearby →
  merge_reachable fuel nearby maxT (buildGraph network) = Some merged →
  n ∈ nearby →
  NearbyStation.walkingTimeSec n < maxT →
  merged ≠ [] →
  isochrone fuel office network maxT wd mwd
    = Some (buffers ←
              Throwing.stationBuffers turf_buffer network wd
                ((λ '(stationId, travelTimeSec),
                    ReachableStation.mk stationId travelTimeSec) <$> merged);
            unionedPolygon ← Throwing.unionBuffers turf_union buffers;
            match unionedPolygon with
            | None => Value None
            | Some polygon =>
                Value (Some (mkIsochroneResult polygon
                               ((λ '(stationId, travelTimeSec),
                                   ReachableStation.mk stationId travelTimeSec)
                                  <$> merged)
                               (length merged)))
            end).
Proof.
  intros Hnear Hmerge Hn Hwalk Hne. unfold Throwing.createIsochrone. rewrite Hnear.
  destruct nearby as [|n0 rest]; [by apply elem_of_nil in Hn|].
  cbn [length Nat.eqb].
  match goal with |- context [filter ?P ?l] =>
    assert (filter P l ≠ []) as Hvalid end.
  { intros Hnil.
    assert (start_of maxT n ∈
              filter (λ s, 0 < StartStation.remainingTimeSec s)
                     (start_of maxT <$> n0 :: rest)) as Hin.
    { apply list_elem_of_filter. split; [simpl; lia|]. by apply list_elem_of_fmap_2. }
    rewrite Hnil in Hin. by apply elem_of_nil in Hin. }
  destruct (filter _ _) as [|s0 valid]; [done|]. cbn [length Nat.eqb].
  rewrite Hmerge. cbv zeta. rewrite length_fmap.
  destruct merged as [|entry merged']; [done|]. by cbn [length Nat.eqb].
Qed.

Lemma createIsochrone_null_union fuel office network maxT wd mwd nearby merged buffers :
  nearest (GeocodeResult.latitude office) (GeocodeResult.longitude office)
    (ProcessedNetwork.stations network) mwd = Value nearby →
  merge_reachable fuel nearby maxT (buildGraph network) = Some merged →
  Throwing.stationBuffers turf_buffer network wd
    ((λ '(stationId, travelTimeSec), ReachableStation.mk stationId travelTimeSec)
       <$> merged) = Value buffers →
  buffers = [] ∨ buffers = [None] ∨
  ((2 ≤ length buffers)%nat ∧ turf_union buffers = Value None) →
  isochrone fuel office network maxT wd mwd = Some (Value None).
Proof.
  intros Hnear Hmerge Hbuffers Hnothing. unfold Throwing.createIsochrone. rewrite Hnear.
  destruct (length _ =? 0)%nat; [done|].
  destruct (length _ =? 0)%nat; [done|].
  rewrite Hmerge. cbv zeta.
  destruct (length _ =? 0)%nat; [done|].
  rewrite Hbuffers. simpl.
  destruct Hnothing as [->|[->|[Hlen Hunion]]]; [done|done|].
  destruct buffers as [|b1 [|b2 buffers]]; simpl in Hlen; [lia|lia|].
  unfold Throwing.unionBuffers. by rewrite Hunion.
Qed.
End ThrowingFacts.

(** *** A library that never throws

    With a library whose calls all return, and whose buffers are never
    [undefined], [createIsochrone] returns what the definition over a total
    library gives. *)
Section ReturningLibrary.
Context (turf_distance : Q * Q → Q * Q → Q).
Context {Polygon : Type}.
Context (turf_buffer : Q * Q → Q → Polygon).
Context (turf_union : list Polygon → option Polygon).

Lemma findNearestStations_returning officeLat officeLon stations maxWalk :
  Throwing.findNearestStations (returning_distance turf_distance)
    officeLat officeLon stations maxWalk
  = Value (findNearestStations turf_distance officeLat officeLon stations maxWalk).
Proof.
  unfold Throwing.findNearestStations, findNearestStations. cbv zeta.
  match goal with |- context [foldl_call ?f [] stations] =>
    match goal with |- context [foldl ?g [] stations] =>
      pose proof (foldl_call_returning f g id stations []) as Hloop
    end
  end.
  unfold id in Hloop. rewrite Hloop; [done|].
  intros results station.
  unfold Throwing.calculateDistance, calculateDistance, returning_distance.
  simpl. by destruct (Qle_bool _ _).
Qed.

Lemma stationBuffers_returning network wd reachable :
  Throwing.stationBuffers (returning_buffer turf_buffer) network wd reachable
  = Value (Some <$> stationBuffers turf_buffer network wd reachable).
Proof.
  unfold Throwing.stationBuffers, stationBuffers. cbv zeta.
  match goal with |- context [foldl_call ?f [] reachable] =>
    match goal with |- context [foldl ?g [] reachable] =>
      pose proof (foldl_call_returning f g (fmap Some) reachable []) as Hloop
    end
  end.
  change (Some <$> []) with (@nil (option Polygon)) in Hloop.
  rewrite Hloop; [done|].
  intros buffers r. simpl.
  destruct (_ !! _) as [station|]; simpl; [|done]. by rewrite fmap_app.
Qed.

Lemma unionBuffers_returning buffers :
  Throwing.unionBuffers (returning_union turf_union) (Some <$> buffers)
  = Value (unionBuffers turf_union buffers).
Proof.
  destruct buffers as [|b1 [|b2 buffers]]; [done|done|].
  unfold Throwing.unionBuffers, unionBuffers, returning_union.
  cbn [fmap list_fmap]. by rewrite <- !fmap_cons, omap_id_Some.
Qed.

Lemma createIsochrone_returning fuel office network maxT wd mwd :
  Throwing.createIsochrone (returning_distance turf_distance)
    (returning_buffer turf_buffer) (returning_union turf_union)
    fuel office network maxT wd mwd
  = (λ result, Value result)
      <$> createIsochrone turf_distance turf_buffer turf_union
            fuel office network maxT wd mwd.
Proof.
  unfold Throwing.createIsochrone, createIsochrone.
  rewrite findNearestStations_returning. cbv zeta.
  destruct (length _ =? 0)%nat; [done|].
  destruct (length _ =? 0)%nat; [done|].
  destruct (merge_reachable _ _ _ _) as [merged|]; [|done]. simpl.
  destruct (length _ =? 0)%nat; [done|].
  rewrite stationBuffers_returning. simpl.
  rewrite unionBuffers_returning. simpl.
  by destruct (unionBuffers _ _).
Qed.
End ReturningLibrary.

(** ** The outcome monad *)

Lemma bind_Returned {A B} (f : A → outcome B) (m : outcome A) b :
  m ≫= f = Returned b → ∃ a, m = Returned a ∧ f a = Returned b.
Proof. destruct m as [a| |]; simpl; [|done..]. intros Hf. by exists a. Qed.

Lemma of_number_Returned {A} (o : option A) a : of_number o = Returned a → o = Some a.
Proof. destruct o; simpl; [|done]. by intros [= ->]. Qed.

Lemma foldlM_invariant {A B} (f : A → B → outcome A) (P : A → Prop) l a a' :
  P a →
  (∀ a x a', P a → x ∈ l → f a x = Returned a' → P a') →
  foldlM f a l = Returned a' → P a'.
Proof.
  revert a. induction l as [|x l IH]; intros a Ha Hstep; simpl.
  - by intros [= <-].
  - intros Hrun. apply bind_Returned in Hrun as (a1 & Hf & Hrun).
    apply (IH a1); [|by intros; eapply Hstep; eauto; apply elem_of_cons; right|done].
    eapply Hstep; [done| |done]. apply elem_of_cons. by left.
Qed.

(** ** Rounding and the median *)

Lemma Math_round_nearest q :
  (inject_Z (Math_round q) - (1 # 2) <= q)%Q ∧ (q < inject_Z (Math_round q) + (1 # 2))%Q.
Proof.
  unfold Math_round.
  pose proof (Qfloor_le (q + (1 # 2))) as Hlo.
  pose proof (Qlt_floor (q + (1 # 2))) as Hhi.
  rewrite inject_Z_plus in Hhi. split.
  - apply (Qplus_le_l _ _ (1 # 2)). ring_simplify. ring_simplify in Hlo. done.
  - apply (Qplus_lt_l _ _ (1 # 2)).
    eapply Qlt_le_trans; [exact Hhi|]. ring_simplify. apply Qle_refl.
Qed.

Lemma Math_round_bounds q lo hi :
  (inject_Z lo <= q)%Q → (q <= inject_Z hi)%Q → lo ≤ Math_round q ≤ hi.
Proof.
  intros Hlo Hhi. unfold Math_round. split.
  - rewrite <- (Qfloor_Z lo). apply Qfloor_resp_le.
    eapply Qle_trans; [exact Hlo|].
    rewrite <- (Qplus_0_r q) at 1. apply Qplus_le_compat; [apply Qle_refl | discriminate].
  - assert (Qfloor (inject_Z hi + (1 # 2)) = hi) as <-.
    { unfold Qfloor. simpl. symmetry. apply Z.div_unique with (r := 1); lia. }
    apply Qfloor_resp_le. apply Qplus_le_compat; [done | apply Qle_refl].
Qed.

Lemma StronglySorted_impl {A} (R R' : A → A → Prop) l :
  (∀ x y, R x y → R' x y) → StronglySorted R l → StronglySorted R' l.
Proof.
  intros Himpl Hs. induction Hs as [|x l Hs IH Hall]; constructor; [done|].
  eapply Forall_impl; [done|]. intros y. apply Himpl.
Qed.

Lemma sort_Z_sorted (numbers : list Z) : StronglySorted Z.le (stable_sort Z.leb numbers).
Proof.
  apply (StronglySorted_impl (λ x y, (x <=? y) = true)).
  - intros x y. apply Z.leb_le.
  - apply stable_sort_sorted.
    + intros x y. rewrite !Z.leb_le. lia.
    + intros x y z. rewrite !Z.leb_le. lia.
Qed.

Lemma median_statistical numbers m : median numbers = Some m → statistical_median numbers m.
Proof.
  unfold median. set (sorted := stable_sort Z.leb numbers).
  set (n := length sorted). intros Hmed.
  exists sorted. split; [apply stable_sort_perm|]. split; [apply sort_Z_sorted|].
  pose proof (Z.div_mod (Z.of_nat n) 2 ltac:(lia)) as Hdiv.
  pose proof (Z.mod_pos_bound (Z.of_nat n) 2 ltac:(lia)) as Hmod.
  destruct (Z.eqb_spec (Z.of_nat n mod 2) 0) as [Heven|Hodd].
  - right. unfold js_index in Hmed.
    destruct (Z.ltb_spec (Z.of_nat n / 2 - 1) 0) as [Hneg|Hpos]; [done|].
    destruct (Z.ltb_spec (Z.of_nat n / 2) 0) as [Hneg'|_]; [lia|].
    destruct (sorted !! Z.to_nat (Z.of_nat n / 2 - 1)) as [a|] eqn:Ha; [|done].
    destruct (sorted !! Z.to_nat (Z.of_nat n / 2)) as [b|] eqn:Hb; [|done].
    simpl in Hmed. injection Hmed as <-.
    exists (Z.to_nat (Z.of_nat n / 2 - 1)), a, b.
    split; [fold n; lia|]. split; [done|]. split; [|done].
    by replace (Z.to_nat (Z.of_nat n / 2 - 1) + 1)%nat with (Z.to_nat (Z.of_nat n / 2)) by lia.
  - left. unfold js_index in Hmed.
    destruct (Z.ltb_spec (Z.of_nat n / 2) 0) as [Hneg|_]; [lia|].
    destruct (sorted !! Z.to_nat (Z.of_nat n / 2)) as [a|] eqn:Ha; [|done].
    simpl in Hmed. injection Hmed as <-.
    exists (Z.to_nat (Z.of_nat n / 2)), a.
    split; [fold n; lia|]. by split.
Qed.

Lemma median_nonempty numbers : numbers ≠ [] → is_Some (median numbers).
Proof.
  intros Hne. unfold median. set (sorted := stable_sort Z.leb numbers).
  assert (0 < length sorted)%nat as Hlen.
  { unfold sorted. rewrite stable_sort_perm. destruct numbers; [done | simpl; lia]. }
  set (n := length sorted) in *.
  pose proof (Z.div_mod (Z.of_nat n) 2 ltac:(lia)) as Hdiv.
  pose proof (Z.mod_pos_bound (Z.of_nat n) 2 ltac:(lia)) as Hmod.
  unfold js_index.
  destruct (Z.eqb_spec (Z.of_nat n mod 2) 0) as [Heven|Hodd].
  - destruct (Z.ltb_spec (Z.of_nat n / 2 - 1) 0) as [Hneg|Hpos]; [lia|].
    destruct (Z.ltb_spec (Z.of_nat n / 2) 0) as [Hneg'|_]; [lia|].
    destruct (lookup_lt_is_Some_2 sorted (Z.to_nat (Z.of_nat n / 2 - 1))) as [a ->];
      [fold n; lia|].
    destruct (lookup_lt_is_Some_2 sorted (Z.to_nat (Z.of_nat n / 2))) as [b ->];
      [fold n; lia|].
    by eexists.
  - destruct (Z.ltb_spec (Z.of_nat n / 2) 0) as [Hneg|_]; [lia|].
    destruct (lookup_lt_is_Some_2 sorted (Z.to_nat (Z.of_nat n / 2))) as [a ->];
      [fold n; lia|].
    by eexists.
Qed.

Lemma statistical_median_bounds numbers m lo hi :
  Forall (λ t, lo ≤ t ≤ hi) numbers → statistical_median numbers m →
  (inject_Z lo <= m)%Q ∧ (m <= inject_Z hi)%Q.
Proof.
  intros Hall (sorted & Hperm & _ & Hmid).
  rewrite <- Hperm in Hall. rewrite Forall_forall in Hall.
  assert (∀ i a, sorted !! i = Some a → (inject_Z lo <= inject_Z a)%Q ∧
                                      (inject_Z a <= inject_Z hi)%Q) as Hin.
  { intros i a Ha. apply list_elem_of_lookup_2 in Ha. apply Hall in Ha.
    rewrite <- !Zle_Qle. lia. }
  destruct Hmid as [(k & a & _ & Ha & ->)|(k & a & b & _ & Ha & Hb & ->)].
  - by eapply Hin.
  - destruct (Hin _ _ Ha) as [Ha1 Ha2]. destruct (Hin _ _ Hb) as [Hb1 Hb2].
    split.
    + apply Qle_shift_div_l; [reflexivity | lra].
    + apply Qle_shift_div_r; [reflexivity | lra].
Qed.

(** ** The third pass records plausible travel times only *)

Lemma jm_set_elem {K V} `{EqDecision K} (m : JsMap K V) k v k' v' :
  (k', v') ∈ jm_set m k v → (k' = k ∧ v' = v) ∨ (k', v') ∈ m.
Proof.
  induction m as [|[k0 v0] m IH]; simpl.
  - intros Hin. apply list_elem_of_singleton in Hin as [= -> ->]. by left.
  - destruct (decide (k0 = k)) as [->|Hne]; intros Hin.
    + apply elem_of_cons in Hin as [[= -> ->]|Hin]; [by left|].
      right. apply elem_of_cons. by right.
    + apply elem_of_cons in Hin as [[= -> ->]|Hin].
      * right. apply elem_of_cons. by left.
      * destruct (IH Hin) as [?|?]; [by left|]. right. apply elem_of_cons. by right.
Qed.

Lemma observe_Some stopToParent routeId fromStop toStop edgeKey t :
  observe stopToParent routeId fromStop toStop = Returned (Some (edgeKey, t)) →
  parentOf stopToParent (StopTime.stopId fromStop)
    ≠ parentOf stopToParent (StopTime.stopId toStop) ∧
  edgeKey = template (parentOf stopToParent (StopTime.stopId fromStop)) +:+ "|" +:+
            template (parentOf stopToParent (StopTime.stopId toStop)) +:+ "|" +:+ routeId ∧
  plausible t ∧
  ∃ fromTime toTime,
    timeToSeconds (StopTime.departureTime fromStop) = Returned fromTime ∧
    timeToSeconds (StopTime.arrivalTime toStop) = Returned toTime ∧
    t = adjustedTravelTime fromTime toTime.
Proof.
  unfold observe. case_decide as Hsame; [done|].
  intros Hrun. apply bind_Returned in Hrun as (fromTime & Hfrom & Hrun).
  apply bind_Returned in Hrun as (toTime & Hto & Hrun).
  destruct (Z.ltb_spec (adjustedTravelTime fromTime toTime) 0) as [Hneg|Hpos];
    [done|].
  destruct (Z.ltb_spec 3600 (adjustedTravelTime fromTime toTime)) as [Hbig|Hsmall];
    [done|].
  simpl in Hrun. injection Hrun as <- <-.
  split; [done|]. split; [done|]. split; [done|]. by exists fromTime, toTime.
Qed.

Lemma observe_None stopToParent routeId fromStop toStop :
  observe stopToParent routeId fromStop toStop = Returned None →
  parentOf stopToParent (StopTime.stopId fromStop)
    = parentOf stopToParent (StopTime.stopId toStop) ∨
  ∃ fromTime toTime,
    timeToSeconds (StopTime.departureTime fromStop) = Returned fromTime ∧
    timeToSeconds (StopTime.arrivalTime toStop) = Returned toTime ∧
    ¬ plausible (adjustedTravelTime fromTime toTime).
Proof.
  unfold observe. case_decide as Hsame; [by left|].
  intros Hrun. apply bind_Returned in Hrun as (fromTime & Hfrom & Hrun).
  apply bind_Returned in Hrun as (toTime & Hto & Hrun).
  right. exists fromTime, toTime. split; [done|]. split; [done|].
  unfold plausible.
  destruct (Z.ltb_spec (adjustedTravelTime fromTime toTime) 0) as [Hneg|Hpos];
    [lia|].
  destruct (Z.ltb_spec 3600 (adjustedTravelTime fromTime toTime)) as [Hbig|Hsmall];
    [lia | done].
Qed.

Lemma count_char_app c s1 s2 :
  count_char c (s1 +:+ s2) = (count_char c s1 + count_char c s2)%nat.
Proof.
  induction s1 as [|c' s1 IH]; [done|].
  change (String c' s1 +:+ s2) with (String c' (s1 +:+ s2)).
  cbn [count_char]. rewrite IH. lia.
Qed.

Lemma count_char_key fromId toId routeId :
  (2 ≤ count_char "|" (fromId +:+ "|" +:+ toId +:+ "|" +:+ routeId))%nat.
Proof.
  rewrite count_char_app.
  change ("|" +:+ toId +:+ "|" +:+ routeId)
    with (String "|" (toId +:+ String "|" routeId)).
  cbn [count_char]. rewrite count_char_app. cbn [count_char].
  rewrite Ascii.eqb_refl. lia.
Qed.

Lemma record_observation_inv edgeTravelTimes observation :
  travel_times_inv edgeTravelTimes →
  (∀ edgeKey t, observation = Some (edgeKey, t) →
     plausible t ∧ (2 ≤ count_char "|" edgeKey)%nat) →
  travel_times_inv (record_observation edgeTravelTimes observation).
Proof.
  intros [Hnd Hkey Hpl] Hobs. destruct observation as [[edgeKey t]|]; [|done].
  destruct (Hobs edgeKey t eq_refl) as [Ht Hbars].
  simpl. constructor.
  - by apply jm_set_NoDup.
  - intros k ts Hin. apply jm_set_elem in Hin as [[-> ->]|Hin]; [done | by eapply Hkey].
  - intros k ts Hin. apply jm_set_elem in Hin as [[-> ->]|Hin]; [|by eapply Hpl].
    split; [by destruct (default [] _)|].
    apply Forall_app. split; [|by apply Forall_singleton].
    destruct (jm_get edgeTravelTimes edgeKey) as [ts|] eqn:Hget; simpl; [|done].
    apply jm_get_Some_elem in Hget. by apply Hpl in Hget as [_ ?].
Qed.

Lemma collectTravelTimes_inv stopToParent tripToRoute tripStopTimes edgeTravelTimes :
  collectTravelTimes stopToParent tripToRoute tripStopTimes = Returned edgeTravelTimes →
  travel_times_inv edgeTravelTimes.
Proof.
  unfold collectTravelTimes. apply foldlM_invariant.
  - constructor; [apply NoDup_nil_2 | |]; intros k ts Hin; by apply elem_of_nil in Hin.
  - intros ett [tripId stops] ett' Hett _.
    destruct (cell_get tripToRoute tripId) as [routeId|]; [|by intros [= <-]].
    destruct (truthy (Some routeId)); [|by intros [= <-]].
    apply foldlM_invariant; [done|].
    intros ett1 [fromStop toStop] ett2 Hett1 _ Hstep.
    apply bind_Returned in Hstep as (observation & Hobs & [= <-]).
    apply record_observation_inv; [done|].
    intros edgeKey t ->. apply observe_Some in Hobs as (_ & -> & ? & _).
    split; [done | apply count_char_key].
Qed.

(** ** The aggregation emits one edge per key *)

Lemma aggregateEdges_Forall2 edgeTravelTimes edges :
  aggregateEdges edgeTravelTimes = Returned edges →
  Forall2 aggregate_of edgeTravelTimes edges.
Proof.
  unfold aggregateEdges.
  set (f := λ (edges : list Edge.t) '(edgeKey, travelTimes),
              match split_on "|" edgeKey with
              | fromId :: toId :: routeId :: _ =>
                  medianTime ← of_number (median travelTimes);
                  Returned (edges ++ [Edge.mk fromId toId (Math_round medianTime) routeId])
              | _ => OutOfModel
              end).
  assert (∀ l acc edges, foldlM f acc l = Returned edges →
            ∃ new, edges = acc ++ new ∧ Forall2 aggregate_of l new) as Hgen.
  { induction l as [|[edgeKey travelTimes] l IH]; intros acc es; simpl.
    - intros [= <-]. exists []. by rewrite app_nil_r.
    - intros Hrun. apply bind_Returned in Hrun as (acc1 & Hf & Hrun).
      destruct (IH _ _ Hrun) as (new & -> & Hnew).
      destruct (split_on "|" edgeKey) as [|fromId [|toId [|routeId rest]]] eqn:Hsplit;
        try done.
      apply bind_Returned in Hf as (m & Hm & [= <-]).
      apply of_number_Returned in Hm.
      exists (Edge.mk fromId toId (Math_round m) routeId :: new).
      split; [by rewrite <- app_assoc|].
      constructor; [|done]. split; simpl.
      + by exists rest.
      + exists m. split; [done|]. split; [by apply median_statistical|].
        split; [done|]. apply Math_round_nearest. }
  intros Hrun. destruct (Hgen _ _ _ Hrun) as (new & -> & Hnew). done.
Qed.

Lemma aggregate_of_plausible entry e :
  Forall plausible entry.2 → aggregate_of entry e →
  plausible (Edge.travelTimeSec e).
Proof.
  intros Hall (_ & m & _ & Hstat & -> & _).
  destruct (statistical_median_bounds _ _ 0 3600 Hall Hstat) as [Hlo Hhi].
  unfold plausible. by apply Math_round_bounds.
Qed.

Lemma aggregateEdges_plausible edgeTravelTimes edges e :
  travel_times_inv edgeTravelTimes →
  aggregateEdges edgeTravelTimes = Returned edges →
  e ∈ edges → plausible (Edge.travelTimeSec e).
Proof.
  intros [_ _ Hpl] Hagg He. apply aggregateEdges_Forall2 in Hagg.
  apply list_elem_of_lookup in He as [i Hi].
  destruct (Forall2_lookup_r _ _ _ _ _ Hagg Hi) as ([edgeKey ts] & Hentry & Hof).
  apply list_elem_of_lookup_2 in Hentry. apply Hpl in Hentry as [Hne Hall].
  by apply (aggregate_of_plausible (edgeKey, ts)).
Qed.

Lemma length_split_go sep current s :
  length (split_go sep current s) = S (count_char sep s).
Proof.
  revert current. induction s as [|c s IH]; intros current; [done|].
  cbn [split_go count_char]. destruct (Ascii.eqb c sep); simpl; by rewrite IH.
Qed.

(** On the map the third pass collects, the aggregation stays within the
    model and emits its edges. *)
Lemma aggregateEdges_returns edgeTravelTimes :
  travel_times_inv edgeTravelTimes →
  ∃ edges, aggregateEdges edgeTravelTimes = Returned edges.
Proof.
  intros [_ Hkey Hpl]. unfold aggregateEdges.
  set (f := λ (edges : list Edge.t) '(edgeKey, travelTimes),
              match split_on "|" edgeKey with
              | fromId :: toId :: routeId :: _ =>
                  medianTime ← of_number (median travelTimes);
                  Returned (edges ++ [Edge.mk fromId toId (Math_round medianTime) routeId])
              | _ => OutOfModel
              end).
  assert (∀ l acc,
            (∀ k ts, (k, ts) ∈ l → (2 ≤ count_char "|" k)%nat ∧ ts ≠ []) →
            ∃ edges, foldlM f acc l = Returned edges) as Hgen.
  { induction l as [|[edgeKey ts] l IH]; intros acc Hok; simpl.
    - by eexists.
    - destruct (Hok edgeKey ts) as [Hbars Hne]; [apply elem_of_cons; by left|].
      pose proof (length_split_go "|" EmptyString edgeKey) as Hlen.
      fold (split_on "|" edgeKey) in Hlen.
      destruct (split_on "|" edgeKey) as [|fromId [|toId [|routeId rest]]];
        simpl in Hlen; try lia.
      destruct (median_nonempty ts Hne) as [m ->]. simpl.
      apply IH. intros k ts' Hin. apply Hok. apply elem_of_cons. by right. }
  apply Hgen. intros k ts Hin. split; [by eapply Hkey|]. by eapply Hpl.
Qed.

(** ** The passes behind a returned network *)

Lemma preprocessGTFS_edges fs network :
  preprocessGTFS fs = Returned network →
  ∃ stopToParent tripToRoute tripStopTimes edgeTravelTimes,
    collectTravelTimes stopToParent tripToRoute tripStopTimes
      = Returned edgeTravelTimes ∧
    aggregateEdges edgeTravelTimes = Returned (ProcessedNetwork.edges network).
Proof.
  unfold preprocessGTFS. intros Hrun.
  apply bind_Returned in Hrun as (stops & _ & Hrun).
  apply bind_Returned in Hrun as (stopTimes & _ & Hrun).
  apply bind_Returned in Hrun as (trips & _ & Hrun).
  apply bind_Returned in Hrun as (routes & _ & Hrun).
  destruct stops as [|stopsHeader stopRows]; [done|].
  destruct stopTimes as [|stopTimesHeader stopTimeRows]; [done|].
  destruct trips as [|tripsHeader tripRows]; [done|].
  destruct routes as [|routesHeader routeRows]; [done|].
  apply bind_Returned in Hrun as ([stationsMap stopToParent] & _ & Hrun).
  apply bind_Returned in Hrun as (tripStopTimes & _ & Hrun).
  apply bind_Returned in Hrun as (edgeTravelTimes & Hcollect & Hrun).
  apply bind_Returned in Hrun as (edges & Hagg & [= <-]).
  by exists stopToParent, (readTrips tripsHeader tripRows), tripStopTimes, edgeTravelTimes.
Qed.

Lemma indexOf_absent header name (row : list string) :
  name ∉ header → indexOf header name = -1 ∧ js_index row (indexOf header name) = None.
Proof.
  intros Hnot. assert (∀ i, indexOf_from i header name = -1) as Hidx.
  { induction header as [|y ys IH]; intros i; simpl; [done|].
    apply not_elem_of_cons in Hnot as [Hne Hnot].
    rewrite decide_False by (by intros ->). by apply IH. }
  unfold indexOf. by rewrite Hidx.
Qed.

(** ** An edge key splits back into its three identifiers *)

Lemma string_app_cons c s t : String c s +:+ t = String c (s +:+ t).
Proof. reflexivity. Qed.

Lemma string_app_nil_l s : EmptyString +:+ s = s.
Proof. reflexivity. Qed.

Lemma string_app_nil_r s : s +:+ EmptyString = s.
Proof. induction s as [|c s IH]; [done|]. by rewrite string_app_cons, IH. Qed.

Lemma rev_app_app s1 s2 s3 :
  String.rev_app s1 s2 +:+ s3 = String.rev_app s1 (s2 +:+ s3).
Proof.
  revert s2. induction s1 as [|c s1 IH]; intros s2; [done|].
  cbn [String.rev_app]. by rewrite IH.
Qed.

Lemma rev_cons_app c current a :
  String.rev (String c current) +:+ a = String.rev current +:+ String c a.
Proof. unfold String.rev. cbn [String.rev_app]. by rewrite !rev_app_app. Qed.

Lemma split_go_part sep current a rest :
  contains sep a = false →
  split_go sep current (a +:+ String sep rest)
    = (String.rev current +:+ a) :: split_go sep EmptyString rest.
Proof.
  revert current. induction a as [|c a IH]; intros current Hno.
  - rewrite string_app_nil_l, string_app_nil_r. cbn [split_go].
    by rewrite Ascii.eqb_refl.
  - simpl in Hno. apply orb_false_iff in Hno as [Hc Hno].
    rewrite string_app_cons. cbn [split_go]. rewrite Hc.
    rewrite IH by done. by rewrite rev_cons_app.
Qed.

Lemma split_go_last sep current a :
  contains sep a = false → split_go sep current a = [String.rev current +:+ a].
Proof.
  revert current. induction a as [|c a IH]; intros current Hno.
  - by rewrite string_app_nil_r.
  - simpl in Hno. apply orb_false_iff in Hno as [Hc Hno].
    cbn [split_go]. rewrite Hc. rewrite IH by done. by rewrite rev_cons_app.
Qed.


(** ** The third pass with [NaN] *)

Lemma all_numbers_fmap values : WithNaN.all_numbers (Some <$> values) = Some values.
Proof. unfold WithNaN.all_numbers. by apply mapM_fmap_Some. Qed.

Lemma all_numbers_Some numbers values :
  WithNaN.all_numbers numbers = Some values → numbers = Some <$> values.
Proof.
  unfold WithNaN.all_numbers. intros Hall. apply mapM_Some_1 in Hall.
  induction Hall as [|x y l k Hxy _ IH]; [done|]. simpl in Hxy. by rewrite Hxy, IH.
Qed.

Lemma js_index_fmap_Some (values : list Z) i :
  mjoin (js_index (Some <$> values) i) = js_index values i.
Proof.
  unfold js_index. destruct (i <? 0); [done|].
  rewrite list_lookup_fmap. by destruct (values !! Z.to_nat i).
Qed.

(** On numbers, the median with [NaN] is the median. *)
Lemma median_numbers values : WithNaN.median (Some <$> values) = Returned (median values).
Proof.
  unfold WithNaN.median, WithNaN.sort_numbers, median.
  rewrite all_numbers_fmap. simpl. rewrite length_fmap.
  destruct (_ =? 0); [|by rewrite js_index_fmap_Some].
  rewrite !js_index_fmap_Some.
  destruct (js_index _ (_ - 1)) as [a|]; [|done]. simpl.
  by destruct (js_index _ _) as [b|].
Qed.

(** The median of an array that holds [NaN] alone is [NaN]. *)
Lemma median_NaN : WithNaN.median [None] = Returned None.
Proof. reflexivity. Qed.

(** What [observe] records: the difference of the two times itself, or
    with 86400 added when it is negative, provided this is within the
    guard; or [NaN] when one of the times is. *)
Lemma observe_NaN_Some stopToParent routeId fromStop toStop edgeKey t :
  WithNaN.observe stopToParent routeId fromStop toStop = Returned (Some (edgeKey, t)) →
  parentOf stopToParent (StopTime.stopId fromStop)
    ≠ parentOf stopToParent (StopTime.stopId toStop) ∧
  edgeKey = template (parentOf stopToParent (StopTime.stopId fromStop)) +:+ "|" +:+
            template (parentOf stopToParent (StopTime.stopId toStop)) +:+ "|" +:+ routeId ∧
  ∃ fromTime toTime,
    WithNaN.timeToSeconds (StopTime.departureTime fromStop) = Returned fromTime ∧
    WithNaN.timeToSeconds (StopTime.arrivalTime toStop) = Returned toTime ∧
    match fromTime, toTime with
    | Some a, Some b =>
        (0 ≤ b - a ≤ 3600 ∧ t = Some (b - a)) ∨
        (b - a < 0 ∧ 0 ≤ b - a + 86400 ≤ 3600 ∧ t = Some (b - a + 86400))
    | _, _ => t = None
    end.
Proof.
  unfold WithNaN.observe. case_decide as Hsame; [done|].
  intros Hrun. apply bind_Returned in Hrun as (fromTime & Hfrom & Hrun).
  apply bind_Returned in Hrun as (toTime & Hto & Hrun).
  split; [done|]. cbv zeta in Hrun.
  destruct (_ || _) eqn:Hguard; [done|].
  injection Hrun as <- <-. split; [done|].
  exists fromTime, toTime. split; [done|]. split; [done|].
  apply orb_false_iff in Hguard as [Hneg Hbig].
  unfold WithNaN.adjustedTravelTime in *.
  destruct fromTime as [a|], toTime as [b|]; try done. simpl in *.
  destruct (Z.ltb_spec (b - a) 0) as [Hlt|Hge]; simpl in *.
  - right. apply Z.ltb_ge in Hneg, Hbig. done.
  - left. apply Z.ltb_ge in Hbig. done.
Qed.

Lemma observe_NaN_None stopToParent routeId fromStop toStop :
  WithNaN.observe stopToParent routeId fromStop toStop = Returned None →
  parentOf stopToParent (StopTime.stopId fromStop)
    = parentOf stopToParent (StopTime.stopId toStop) ∨
  ∃ a b,
    WithNaN.timeToSeconds (StopTime.departureTime fromStop) = Returned (Some a) ∧
    WithNaN.timeToSeconds (StopTime.arrivalTime toStop) = Returned (Some b) ∧
    (3600 < b - a ∨ b - a + 86400 < 0 ∨ (b - a < 0 ∧ 3600 < b - a + 86400)).
Proof.
  unfold WithNaN.observe. case_decide as Hsame; [by left|].
  intros Hrun. apply bind_Returned in Hrun as (fromTime & Hfrom & Hrun).
  apply bind_Returned in Hrun as (toTime & Hto & Hrun).
  right. cbv zeta in Hrun.
  destruct (_ || _) eqn:Hguard; [|done].
  unfold WithNaN.adjustedTravelTime in Hguard.
  destruct fromTime as [a|], toTime as [b|]; try done. simpl in Hguard.
  exists a, b. split; [done|]. split; [done|].
  destruct (Z.ltb_spec (b - a) 0) as [Hlt|Hge]; simpl in Hguard;
    apply orb_true_iff in Hguard as [Hg|Hg]; apply Z.ltb_lt in Hg; lia.
Qed.

Lemma record_observation_NaN_inv edgeTravelTimes observation :
  emitted_times_inv edgeTravelTimes →
  (∀ edgeKey t, observation = Some (edgeKey, t) →
     plausible_or_NaN t ∧
     ∃ fromId toId routeId, edgeKey = fromId +:+ "|" +:+ toId +:+ "|" +:+ routeId) →
  emitted_times_inv (WithNaN.record_observation edgeTravelTimes observation).
Proof.
  intros [Hnd Hkey Hpl] Hobs. destruct observation as [[edgeKey t]|]; [|done].
  destruct (Hobs edgeKey t eq_refl) as [Ht Hbars].
  simpl. constructor.
  - by apply jm_set_NoDup.
  - intros k ts Hin. apply jm_set_elem in Hin as [[-> ->]|Hin]; [done | by eapply Hkey].
  - intros k ts Hin. apply jm_set_elem in Hin as [[-> ->]|Hin]; [|by eapply Hpl].
    split; [by destruct (default [] _)|].
    apply Forall_app. split; [|by apply Forall_singleton].
    destruct (jm_get edgeTravelTimes edgeKey) as [ts|] eqn:Hget; simpl; [|done].
    apply jm_get_Some_elem in Hget. by apply Hpl in Hget as [_ ?].
Qed.

Lemma collectTravelTimes_NaN_inv stopToParent tripToRoute tripStopTimes edgeTravelTimes :
  WithNaN.collectTravelTimes stopToParent tripToRoute tripStopTimes
    = Returned edgeTravelTimes →
  emitted_times_inv edgeTravelTimes.
Proof.
  unfold WithNaN.collectTravelTimes. apply foldlM_invariant.
  - constructor; [apply NoDup_nil_2 | |]; intros k ts Hin; by apply elem_of_nil in Hin.
  - intros ett [tripId stops] ett' Hett _.
    destruct (cell_get tripToRoute tripId) as [routeId|]; [|by intros [= <-]].
    destruct (truthy (Some routeId)); [|by intros [= <-]].
    apply foldlM_invariant; [done|].
    intros ett1 [fromStop toStop] ett2 Hett1 _ Hstep.
    apply bind_Returned in Hstep as (observation & Hobs & [= <-]).
    apply record_observation_NaN_inv; [done|].
    intros edgeKey t ->.
    apply observe_NaN_Some in Hobs as (_ & -> & fromTime & toTime & _ & _ & Ht).
    split; [|by eexists _, _, _].
    destruct fromTime as [a|], toTime as [b|]; try (by rewrite Ht).
    destruct Ht as [[? ->]|(? & ? & ->)]; simpl; unfold plausible; lia.
Qed.




(** The passes behind a network returned with its emitted edges. *)
Lemma preprocessGTFS_NaN_edges fs network :
  WithNaN.preprocessGTFS fs = Returned network →
  ∃ stopToParent tripToRoute tripStopTimes edgeTravelTimes,
    WithNaN.collectTravelTimes stopToParent tripToRoute tripStopTimes
      = Returned edgeTravelTimes ∧
    WithNaN.aggregateEdges edgeTravelTimes = Returned (EmittedNetwork.edges network).
Proof.
  unfold WithNaN.preprocessGTFS. intros Hrun.
  apply bind_Returned in Hrun as (stops & _ & Hrun).
  apply bind_Returned in Hrun as (stopTimes & _ & Hrun).
  apply bind_Returned in Hrun as (trips & _ & Hrun).
  apply bind_Returned in Hrun as (routes & _ & Hrun).
  destruct stops as [|stopsHeader stopRows]; [done|].
  destruct stopTimes as [|stopTimesHeader stopTimeRows]; [done|].
  destruct trips as [|tripsHeader tripRows]; [done|].
  destruct routes as [|routesHeader routeRows]; [done|].
  apply bind_Returned in Hrun as ([stationsMap stopToParent] & _ & Hrun).
  apply bind_Returned in Hrun as (tripStopTimes & _ & Hrun).
  apply bind_Returned in Hrun as (edgeTravelTimes & Hcollect & Hrun).
  apply bind_Returned in Hrun as (edges & Hagg & [= <-]).
  by exists stopToParent, (readTrips tripsHeader tripRows), tripStopTimes, edgeTravelTimes.
Qed.

(** ** Emitted travel times are within the guard, or [NaN] *)

Lemma sort_numbers_plausible numbers sorted :
  Forall plausible_or_NaN numbers →
  WithNaN.sort_numbers numbers = Returned sorted →
  Forall plausible_or_NaN sorted.
Proof.
  intros Hall. unfold WithNaN.sort_numbers.
  destruct (WithNaN.all_numbers numbers) as [values|] eqn:Hvalues.
  - intros [= <-]. apply all_numbers_Some in Hvalues as ->.
    rewrite Forall_fmap in *. by rewrite stable_sort_perm.
  - destruct (omap id numbers) as [|x rest]; [by intros [= <-]|].
    destruct (forallb _ _); [by intros [= <-] | done].
Qed.

Lemma js_index_plausible (sorted : list (option Z)) i a :
  Forall plausible_or_NaN sorted → mjoin (js_index sorted i) = Some a → plausible a.
Proof.
  intros Hall. unfold js_index. destruct (i <? 0); [done|].
  destruct (sorted !! Z.to_nat i) as [[b|]|] eqn:Hi; [|done..].
  intros [= <-]. rewrite Forall_forall in Hall.
  apply list_elem_of_lookup_2 in Hi. by apply (Hall (Some b)) in Hi.
Qed.

Lemma median_NaN_bounds numbers m :
  Forall plausible_or_NaN numbers →
  WithNaN.median numbers = Returned (Some m) →
  (inject_Z 0 <= m)%Q ∧ (m <= inject_Z 3600)%Q.
Proof.
  intros Hall. unfold WithNaN.median. intros Hrun.
  apply bind_Returned in Hrun as (sorted & Hsorted & Hrun).
  pose proof (sort_numbers_plausible _ _ Hall Hsorted) as Hpl. cbv zeta in Hrun.
  destruct (_ =? 0).
  - injection Hrun as Hrun.
    destruct (mjoin (js_index sorted (_ - 1))) as [a|] eqn:Ha; [|done].
    destruct (mjoin (js_index sorted _)) as [b|] eqn:Hb in Hrun; [|done].
    injection Hrun as <-.
    apply (js_index_plausible _ _ _ Hpl) in Ha, Hb. unfold plausible in *.
    assert (inject_Z 0 <= inject_Z a)%Q by (rewrite <- Zle_Qle; lia).
    assert (inject_Z 0 <= inject_Z b)%Q by (rewrite <- Zle_Qle; lia).
    assert (inject_Z a <= inject_Z 3600)%Q by (rewrite <- Zle_Qle; lia).
    assert (inject_Z b <= inject_Z 3600)%Q by (rewrite <- Zle_Qle; lia).
    split.
    + apply Qle_shift_div_l; [reflexivity | lra].
    + apply Qle_shift_div_r; [reflexivity | lra].
  - injection Hrun as Hrun.
    destruct (mjoin (js_index sorted _)) as [a|] eqn:Ha; [|done].
    injection Hrun as <-. apply (js_index_plausible _ _ _ Hpl) in Ha.
    unfold plausible in Ha. rewrite <- !Zle_Qle. lia.
Qed.

Lemma aggregateEdges_NaN_bounds edgeTravelTimes edges e t :
  emitted_times_inv edgeTravelTimes →
  WithNaN.aggregateEdges edgeTravelTimes = Returned edges →
  e ∈ edges → EmittedEdge.travelTimeSec e = Some t → 0 ≤ t ≤ 3600.
Proof.
  intros [_ _ Hpl]. unfold WithNaN.aggregateEdges.
  set (f := λ (edges : list EmittedEdge.t) '(edgeKey, travelTimes),
              match split_on "|" edgeKey with
              | fromId :: toId :: routeId :: _ =>
                  medianTime ← WithNaN.median travelTimes;
                  Returned (edges ++
                            [EmittedEdge.mk fromId toId (Math_round <$> medianTime)
                                            routeId])
              | _ => OutOfModel
              end).
  intros Hrun. revert e t.
  apply (foldlM_invariant f
           (λ edges, ∀ e t, e ∈ edges → EmittedEdge.travelTimeSec e = Some t →
                            0 ≤ t ≤ 3600) edgeTravelTimes [] edges); [| |done].
  - intros e t Hin. by apply elem_of_nil in Hin.
  - intros acc [edgeKey ts] acc' Hacc Hentry Hstep e t He Ht. simpl in Hstep.
    destruct (split_on "|" edgeKey) as [|fromId [|toId [|routeId rest]]]; try done.
    apply bind_Returned in Hstep as (m & Hm & [= <-]).
    apply elem_of_app in He as [He|He]; [by eapply Hacc|].
    apply list_elem_of_singleton in He as ->. simpl in Ht.
    destruct m as [m|]; [|done]. injection Ht as <-.
    destruct (Hpl _ _ Hentry) as [_ Hall].
    destruct (median_NaN_bounds _ _ Hall Hm) as [Hlo Hhi].
    by apply Math_round_bounds.
Qed.

(** ** The passes on whole seconds are the passes with [NaN], restricted

    Whenever the definitions on whole seconds return, the ones with [NaN]
    return the same, as numbers. *)

Lemma foldlM_simulation {A A' B B'} (R : A → A' → Prop) (g : B → B')
    (f : A → B → outcome A) (f' : A' → B' → outcome A') l a a' r :
  R a a' →
  (∀ a a' x r, R a a' → x ∈ l → f a x = Returned r →
               ∃ r', f' a' (g x) = Returned r' ∧ R r r') →
  foldlM f a l = Returned r →
  ∃ r', foldlM f' a' (g <$> l) = Returned r' ∧ R r r'.
Proof.
  revert a a'. induction l as [|x l IH]; intros a a' Ha Hstep; simpl.
  - intros [= <-]. by exists a'.
  - intros Hrun. apply bind_Returned in Hrun as (a1 & Hf & Hrun).
    destruct (Hstep a a' x a1 Ha ltac:(apply elem_of_cons; by left) Hf)
      as (a1' & -> & Ha1). simpl.
    apply (IH a1 a1' Ha1); [|done].
    intros b b' y s Hb Hy. apply Hstep; [done|]. apply elem_of_cons. by right.
Qed.

Lemma timeToSeconds_WithNaN timeStr t :
  timeToSeconds timeStr = Returned t →
  WithNaN.timeToSeconds timeStr = Returned (Some t).
Proof.
  unfold timeToSeconds, WithNaN.timeToSeconds. destruct timeStr as [str|]; [|done].
  destruct (split_on ":" str) as [|h [|m [|s rest]]]; simpl; try done.
  - by destruct (js_Number h).
  - by destruct (js_Number h), (js_Number m).
  - destruct (js_Number h) as [hours|], (js_Number m) as [minutes|],
      (js_Number s) as [seconds|]; try done.
    destruct (_ <=? _); [|done]. by intros [= <-].
Qed.

Lemma observe_WithNaN stopToParent routeId fromStop toStop observation :
  observe stopToParent routeId fromStop toStop = Returned observation →
  WithNaN.observe stopToParent routeId fromStop toStop
    = Returned ((λ entry : string * Z, (entry.1, Some entry.2)) <$> observation).
Proof.
  unfold observe, WithNaN.observe. case_decide; [by intros [= <-]|].
  intros Hrun. apply bind_Returned in Hrun as (fromTime & Hfrom & Hrun).
  apply bind_Returned in Hrun as (toTime & Hto & Hrun).
  rewrite (timeToSeconds_WithNaN _ _ Hfrom), (timeToSeconds_WithNaN _ _ Hto). simpl.
  unfold WithNaN.adjustedTravelTime, adjustedTravelTime in *. simpl.
  destruct (toTime - fromTime <? 0); simpl;
    destruct (_ || _); by injection Hrun as <-.
Qed.

Lemma jm_get_as_numbers edgeTravelTimes edgeKey :
  jm_get (as_numbers edgeTravelTimes) edgeKey
    = (λ travelTimes : list Z, Some <$> travelTimes) <$> jm_get edgeTravelTimes edgeKey.
Proof.
  induction edgeTravelTimes as [|[k ts] m IH]; [done|].
  change (as_numbers ((k, ts) :: m)) with ((k, Some <$> ts) :: as_numbers m).
  cbn [jm_get]. by destruct (decide (k = edgeKey)).
Qed.

Lemma jm_set_as_numbers edgeTravelTimes edgeKey travelTimes :
  jm_set (as_numbers edgeTravelTimes) edgeKey (Some <$> travelTimes)
    = as_numbers (jm_set edgeTravelTimes edgeKey travelTimes).
Proof.
  induction edgeTravelTimes as [|[k ts] m IH]; [done|].
  change (as_numbers ((k, ts) :: m)) with ((k, Some <$> ts) :: as_numbers m).
  cbn [jm_set]. destruct (decide (k = edgeKey)); [done|].
  change (as_numbers ((k, ts) :: jm_set m edgeKey travelTimes))
    with ((k, Some <$> ts) :: as_numbers (jm_set m edgeKey travelTimes)).
  by rewrite IH.
Qed.

Lemma record_observation_WithNaN edgeTravelTimes observation :
  WithNaN.record_observation (as_numbers edgeTravelTimes)
    ((λ entry : string * Z, (entry.1, Some entry.2)) <$> observation)
    = as_numbers (record_observation edgeTravelTimes observation).
Proof.
  destruct observation as [[edgeKey t]|]; [|done]. simpl.
  rewrite jm_get_as_numbers, <- jm_set_as_numbers. f_equal.
  rewrite fmap_app. by destruct (jm_get edgeTravelTimes edgeKey).
Qed.

Lemma collectTravelTimes_WithNaN stopToParent tripToRoute tripStopTimes edgeTravelTimes :
  collectTravelTimes stopToParent tripToRoute tripStopTimes = Returned edgeTravelTimes →
  WithNaN.collectTravelTimes stopToParent tripToRoute tripStopTimes
    = Returned (as_numbers edgeTravelTimes).
Proof.
  unfold collectTravelTimes, WithNaN.collectTravelTimes. intros Hrun.
  eapply (foldlM_simulation (λ ett ett', ett' = as_numbers ett) id) in Hrun
    as (ett' & Hrun' & ->); [by rewrite list_fmap_id in Hrun'|done|].
  intros ett ? [tripId stops] r -> _. cbv beta iota delta [id].
  destruct (cell_get tripToRoute tripId) as [routeId|];
    [|intros [= <-]; by eexists].
  destruct (truthy (Some routeId)); [|intros [= <-]; by eexists].
  intros Hinner.
  eapply (foldlM_simulation (λ ett ett', ett' = as_numbers ett) id) in Hinner
    as (ett' & Hinner' & ->); [rewrite list_fmap_id in Hinner'; by eexists|done|].
  intros ett1 ? [fromStop toStop] r1 -> _ Hstep. cbv beta iota delta [id].
  apply bind_Returned in Hstep as (observation & Hobs & [= <-]).
  rewrite (observe_WithNaN _ _ _ _ _ Hobs). simpl.
  eexists. split; [done|]. apply record_observation_WithNaN.
Qed.

Lemma aggregateEdges_WithNaN edgeTravelTimes edges :
  aggregateEdges edgeTravelTimes = Returned edges →
  WithNaN.aggregateEdges (as_numbers edgeTravelTimes) = Returned (emitted <$> edges).
Proof.
  unfold aggregateEdges, WithNaN.aggregateEdges, as_numbers. intros Hrun.
  eapply (foldlM_simulation (λ es es', es' = emitted <$> es)
            (λ entry : string * list Z, (entry.1, Some <$> entry.2))) in Hrun
    as (es' & Hrun' & ->); [done..|].
  intros es ? [edgeKey ts] r -> _. simpl.
  destruct (split_on "|" edgeKey) as [|fromId [|toId [|routeId rest]]]; try done.
  intros Hstep. apply bind_Returned in Hstep as (m & Hm & [= <-]).
  apply of_number_Returned in Hm. rewrite median_numbers, Hm. simpl.
  eexists. split; [done|]. by rewrite fmap_app.
Qed.

Lemma preprocessGTFS_WithNaN fs network :
  preprocessGTFS fs = Returned network →
  WithNaN.preprocessGTFS fs
    = Returned (EmittedNetwork.mk (ProcessedNetwork.stations network)
                                  (emitted <$> ProcessedNetwork.edges network)).
Proof.
  unfold preprocessGTFS, WithNaN.preprocessGTFS. intros Hrun.
  apply bind_Returned in Hrun as (stops & -> & Hrun).
  apply bind_Returned in Hrun as (stopTimes & -> & Hrun).
  apply bind_Returned in Hrun as (trips & -> & Hrun).
  apply bind_Returned in Hrun as (routes & -> & Hrun). simpl.
  destruct stops as [|stopsHeader stopRows]; [done|].
  destruct stopTimes as [|stopTimesHeader stopTimeRows]; [done|].
  destruct trips as [|tripsHeader tripRows]; [done|].
  destruct routes as [|routesHeader routeRows]; [done|].
  apply bind_Returned in Hrun as ([stationsMap stopToParent] & -> & Hrun).
  apply bind_Returned in Hrun as (tripStopTimes & -> & Hrun).
  apply bind_Returned in Hrun as (edgeTravelTimes & Hcollect & Hrun).
  apply bind_Returned in Hrun as (edges & Hagg & [= <-]). simpl.
  rewrite (collectTravelTimes_WithNaN _ _ _ _ Hcollect). simpl.
  by rewrite (aggregateEdges_WithNaN _ _ Hagg).
Qed.

(** ** Read errors *)

Lemma not_read_error_bind {A B} (m : outcome A) (k : A → outcome B) :
  not_read_error m → (∀ a, not_read_error (k a)) → not_read_error (m ≫= k).
Proof.
  intros Hm Hk path. destruct m as [a|e|]; simpl; [apply Hk | | done].
  intros [= ->]. by apply (Hm path).
Qed.

Lemma not_read_error_foldlM {A B} (f : A → B → outcome A) a l :
  (∀ a x, not_read_error (f a x)) → not_read_error (foldlM f a l).
Proof.
  intros Hf. revert a. induction l as [|x l IH]; intros a; simpl; [done|].
  apply not_read_error_bind; [apply Hf | apply IH].
Qed.

Lemma not_read_error_of_number {A} (o : option A) : not_read_error (of_number o).
Proof. by destruct o. Qed.

Lemma not_read_error_timeToSeconds timeStr : not_read_error (timeToSeconds timeStr).
Proof.
  intros path. unfold timeToSeconds. destruct timeStr as [str|]; [|done].
  destruct (_ !! 0%nat) as [[?|]|]; try done.
  destruct (_ !! 1%nat) as [[?|]|]; try done.
  destruct (_ !! 2%nat) as [[?|]|]; try done.
  cbv zeta. by destruct (_ <=? _).
Qed.

Lemma not_read_error_Returned {A} (a : A) : not_read_error (Returned a).
Proof. by intros path. Qed.

Lemma not_read_error_OutOfModel {A} : not_read_error (@OutOfModel A).
Proof. by intros path. Qed.

Lemma not_read_error_passes stopsHeader stopRows stopTimesHeader stopTimeRows
    tripsHeader tripRows routesHeader routeRows :
  not_read_error
    ('(stationsMap, stopToParent) ← readStations stopsHeader stopRows;
     let tripToRoute := readTrips tripsHeader tripRows in
     let routeIdToShortName := readRoutes routesHeader routeRows in
     let stopToRoutes :=
       collectRoutes stopTimesHeader stopTimeRows stopToParent tripToRoute
                     routeIdToShortName in
     let stationsMap := attachRoutes stationsMap stopToRoutes in
     tripStopTimes ← groupStopTimes stopTimesHeader stopTimeRows;
     edgeTravelTimes ← collectTravelTimes stopToParent tripToRoute tripStopTimes;
     edges ← aggregateEdges edgeTravelTimes;
     let stations := stationsMap.*2 in
     Returned (ProcessedNetwork.mk stations edges)).
Proof.
  apply not_read_error_bind.
  { apply not_read_error_foldlM. intros [stationsMap stopToParent] row.
    cbv zeta. case_decide.
    - repeat (apply not_read_error_bind; [apply not_read_error_of_number|intros ?]).
      apply not_read_error_Returned.
    - destruct (js_index row (indexOf stopsHeader "parent_station"));
        [|apply not_read_error_Returned].
      destruct (truthy _); apply not_read_error_Returned. }
  intros [stationsMap stopToParent]. cbv zeta.
  apply not_read_error_bind.
  { apply not_read_error_foldlM. intros tripStopTimes row. cbv zeta.
    apply not_read_error_bind; [apply not_read_error_of_number|].
    intros ?. apply not_read_error_Returned. }
  intros tripStopTimes. apply not_read_error_bind.
  { apply not_read_error_foldlM. intros ett [tripId stops]. cbv zeta.
    destruct (cell_get _ tripId) as [routeId|]; [|apply not_read_error_Returned].
    destruct (truthy _); [|apply not_read_error_Returned].
    apply not_read_error_foldlM. intros ett' [fromStop toStop].
    apply not_read_error_bind; [|intros ?; apply not_read_error_Returned].
    unfold observe. case_decide; [apply not_read_error_Returned|].
    apply not_read_error_bind; [apply not_read_error_timeToSeconds|intros fromTime].
    apply not_read_error_bind; [apply not_read_error_timeToSeconds|intros toTime].
    destruct (_ || _); apply not_read_error_Returned. }
  intros ett. apply not_read_error_bind; [|intros ?; apply not_read_error_Returned].
  apply not_read_error_foldlM. intros edges [edgeKey travelTimes].
  destruct (split_on "|" edgeKey) as [|? [|? [|? ?]]];
    try apply not_read_error_OutOfModel.
  apply not_read_error_bind; [apply not_read_error_of_number|].
  intros ?. apply not_read_error_Returned.
Qed.

Lemma split_go_nonempty sep current s : split_go sep current s ≠ [].
Proof.
  revert current. induction s as [|c s IH]; intros current; simpl; [done|].
  destruct (Ascii.eqb c sep); [done | apply IH].
Qed.

Lemma parse_fields_nonempty line result current inQuotes :
  parse_fields line result current inQuotes ≠ [].
Proof.
  revert result current inQuotes.
  induction line as [|c line IH]; intros result current inQuotes; simpl.
  - by destruct result.
  - destruct (Ascii.eqb c "034"); [apply IH|].
    destruct (_ && _); apply IH.
Qed.

Lemma preprocessGTFS_ENOENT_iff (fs : string → option string) (path : string) :
  preprocessGTFS fs = Threw (ENOENT path) ↔
  ∃ before after, required_files = before ++ path :: after ∧ fs path = None ∧
                  ∀ file, file ∈ before → is_Some (fs file).
Proof.
  unfold preprocessGTFS, parseCSV, required_files. split.
  - destruct (fs "stops.txt") as [stops|] eqn:Hstops.
    2:{ intros [= <-]. exists [], ["stop_times.txt"; "trips.txt"; "routes.txt"].
        split; [done|]. split; [done|]. by intros file ?%elem_of_nil. }
    destruct (fs "stop_times.txt") as [stopTimes|] eqn:HstopTimes.
    2:{ intros [= <-]. exists ["stops.txt"], ["trips.txt"; "routes.txt"].
        split; [done|]. split; [done|]. intros file Hin.
        apply list_elem_of_singleton in Hin as ->. by rewrite Hstops. }
    destruct (fs "trips.txt") as [trips|] eqn:Htrips.
    2:{ intros [= <-]. exists ["stops.txt"; "stop_times.txt"], ["routes.txt"].
        split; [done|]. split; [done|]. intros file Hin.
        repeat (apply elem_of_cons in Hin as [->|Hin]; [by eexists|]).
        by apply elem_of_nil in Hin. }
    destruct (fs "routes.txt") as [routes|] eqn:Hroutes.
    2:{ intros [= <-]. exists ["stops.txt"; "stop_times.txt"; "trips.txt"], [].
        split; [done|]. split; [done|]. intros file Hin.
        repeat (apply elem_of_cons in Hin as [->|Hin]; [by eexists|]).
        by apply elem_of_nil in Hin. }
    cbn [mbind outcome_bind]. intros Hthrew. exfalso. revert Hthrew.
    destruct (_ <$> split_on "010" (trim stops)) as [|h1 r1]; [done|].
    destruct (_ <$> split_on "010" (trim stopTimes)) as [|h2 r2]; [done|].
    destruct (_ <$> split_on "010" (trim trips)) as [|h3 r3]; [done|].
    destruct (_ <$> split_on "010" (trim routes)) as [|h4 r4]; [done|].
    apply not_read_error_passes.
  - intros (before & after & Hsplit & Hnone & Hbefore).
    assert (∀ file, file ∈ before → fs file ≠ None) as Hpresent.
    { intros file Hin Hfile. destruct (Hbefore file Hin) as [? ?]. congruence. }
    destruct before as [|b1 [|b2 [|b3 [|b4 before]]]]; simplify_eq/=.
    + by rewrite Hnone.
    + destruct (fs "stops.txt") eqn:H1; [|by destruct (Hpresent "stops.txt");
        [apply elem_of_cons; by left|]].
      by rewrite Hnone.
    + destruct (fs "stops.txt") eqn:H1; [|by destruct (Hpresent "stops.txt");
        [apply elem_of_cons; by left|]].
      destruct (fs "stop_times.txt") eqn:H2; [|by destruct (Hpresent "stop_times.txt");
        [apply elem_of_cons; right; apply elem_of_cons; by left|]].
      by rewrite Hnone.
    + destruct (fs "stops.txt") eqn:H1; [|by destruct (Hpresent "stops.txt");
        [apply elem_of_cons; by left|]].
      destruct (fs "stop_times.txt") eqn:H2; [|by destruct (Hpresent "stop_times.txt");
        [apply elem_of_cons; right; apply elem_of_cons; by left|]].
      destruct (fs "trips.txt") eqn:H3; [|by destruct (Hpresent "trips.txt");
        [do 2 (apply elem_of_cons; right); apply elem_of_cons; by left|]].
      by rewrite Hnone.
    + by destruct before.
Qed.


(** ** The passes behind a returned network, and absent headers *)

Lemma preprocessGTFS_passes fs network :
  preprocessGTFS fs = Returned network →
  ∃ stopsHeader stopRows stopTimesHeader stopTimeRows tripsHeader tripRows
    routesHeader routeRows stationsMap stopToParent tripStopTimes edgeTravelTimes,
    parseCSV fs "stops.txt" = Returned (stopsHeader :: stopRows) ∧
    parseCSV fs "stop_times.txt" = Returned (stopTimesHeader :: stopTimeRows) ∧
    parseCSV fs "trips.txt" = Returned (tripsHeader :: tripRows) ∧
    parseCSV fs "routes.txt" = Returned (routesHeader :: routeRows) ∧
    readStations stopsHeader stopRows = Returned (stationsMap, stopToParent) ∧
    groupStopTimes stopTimesHeader stopTimeRows = Returned tripStopTimes ∧
    collectTravelTimes stopToParent (readTrips tripsHeader tripRows) tripStopTimes
      = Returned edgeTravelTimes ∧
    aggregateEdges edgeTravelTimes = Returned (ProcessedNetwork.edges network) ∧
    ProcessedNetwork.stations network
      = (attachRoutes stationsMap
           (collectRoutes stopTimesHeader stopTimeRows stopToParent
              (readTrips tripsHeader tripRows) (readRoutes routesHeader routeRows))).*2.
Proof.
  unfold preprocessGTFS. intros Hrun.
  apply bind_Returned in Hrun as (stops & Hstops & Hrun).
  apply bind_Returned in Hrun as (stopTimes & HstopTimes & Hrun).
  apply bind_Returned in Hrun as (trips & Htrips & Hrun).
  apply bind_Returned in Hrun as (routes & Hroutes & Hrun).
  destruct stops as [|stopsHeader stopRows]; [done|].
  destruct stopTimes as [|stopTimesHeader stopTimeRows]; [done|].
  destruct trips as [|tripsHeader tripRows]; [done|].
  destruct routes as [|routesHeader routeRows]; [done|].
  apply bind_Returned in Hrun as ([stationsMap stopToParent] & Hread & Hrun).
  apply bind_Returned in Hrun as (tripStopTimes & Hgroup & Hrun).
  apply bind_Returned in Hrun as (edgeTravelTimes & Hcollect & Hrun).
  apply bind_Returned in Hrun as (edges & Hagg & [= <-]).
  by exists stopsHeader, stopRows, stopTimesHeader, stopTimeRows, tripsHeader, tripRows,
    routesHeader, routeRows, stationsMap, stopToParent, tripStopTimes, edgeTravelTimes.
Qed.

(** Without the [location_type] header no row is a station. *)
Lemma readStations_no_location_type stopsHeader rows stationsMap stopToParent :
  "location_type" ∉ stopsHeader →
  readStations stopsHeader rows = Returned (stationsMap, stopToParent) →
  stationsMap = [].
Proof.
  intros Habsent. unfold readStations. intros Hrun.
  apply (foldlM_invariant _ (λ acc, acc.1 = []) _ _ _) in Hrun; [done..|].
  intros [sm sp] row [sm' sp'] Hnil _ Hstep. cbv zeta in Hstep. simpl in *.
  destruct (indexOf_absent stopsHeader "location_type" row Habsent) as [_ Hcell].
  rewrite Hcell in Hstep. rewrite decide_False in Hstep by done.
  destruct (js_index row (indexOf stopsHeader "parent_station")) as [parent|];
    [|by injection Hstep as <- <-].
  destruct (truthy (Some parent)); by injection Hstep as <- <-.
Qed.

(** The times of the grouped stops are the cells of their rows. *)
Lemma groupStopTimes_times stopTimesHeader rows tripStopTimes :
  groupStopTimes stopTimesHeader rows = Returned tripStopTimes →
  ∀ tripId stops stop, (tripId, stops) ∈ tripStopTimes → stop ∈ stops →
    ∃ row, row ∈ rows ∧
      StopTime.arrivalTime stop = js_index row (indexOf stopTimesHeader "arrival_time") ∧
      StopTime.departureTime stop
        = js_index row (indexOf stopTimesHeader "departure_time").
Proof.
  unfold groupStopTimes.
  apply (foldlM_invariant _
           (λ tst, ∀ tripId stops stop, (tripId, stops) ∈ tst → stop ∈ stops →
              ∃ row, row ∈ rows ∧
                StopTime.arrivalTime stop
                  = js_index row (indexOf stopTimesHeader "arrival_time") ∧
                StopTime.departureTime stop
                  = js_index row (indexOf stopTimesHeader "departure_time"))).
  - intros tripId stops stop Hin. by apply elem_of_nil in Hin.
  - intros tst row tst' Hinv Hrow Hstep tripId stops stop Hin Hstop.
    cbv zeta in Hstep. apply bind_Returned in Hstep as (sequence & _ & [= <-]).
    apply jm_set_elem in Hin as [[-> ->]|Hin]; [|by eapply Hinv].
    apply elem_of_app in Hstop as [Hstop|Hstop].
    + destruct (jm_get tst _) as [old|] eqn:Hget; simpl in Hstop;
        [|by apply elem_of_nil in Hstop].
      apply jm_get_Some_elem in Hget. by eapply Hinv.
    + apply list_elem_of_singleton in Hstop as ->. by exists row.
Qed.

(** A pair without the departure time of its first stop, or without the
    arrival time of its second one, is never recorded: the parents are the
    same, or [timeToSeconds] throws on [undefined]. *)
Lemma observe_untimed stopToParent routeId fromStop toStop observation :
  StopTime.departureTime fromStop = None ∨ StopTime.arrivalTime toStop = None →
  observe stopToParent routeId fromStop toStop = Returned observation →
  observation = None.
Proof.
  intros Huntimed. unfold observe. case_decide; [by intros [= <-]|].
  intros Hrun. apply bind_Returned in Hrun as (fromTime & Hfrom & Hrun).
  apply bind_Returned in Hrun as (toTime & Hto & Hrun).
  destruct Huntimed as [Hdep|Harr].
  - by rewrite Hdep in Hfrom.
  - by rewrite Harr in Hto.
Qed.

Lemma observe_untimed_throws stopToParent routeId fromStop toStop :
  parentOf stopToParent (StopTime.stopId fromStop)
    ≠ parentOf stopToParent (StopTime.stopId toStop) →
  (StopTime.departureTime fromStop = None →
   observe stopToParent routeId fromStop toStop = Threw TypeError) ∧
  (∀ fromTime,
     timeToSeconds (StopTime.departureTime fromStop) = Returned fromTime →
     StopTime.arrivalTime toStop = None →
     observe stopToParent routeId fromStop toStop = Threw TypeError).
Proof.
  intros Hparents. unfold observe. rewrite decide_False by done. split.
  - by intros ->.
  - intros fromTime -> ->. done.
Qed.

Lemma collectTravelTimes_untimed stopToParent tripToRoute tripStopTimes edgeTravelTimes :
  (∀ tripId stops stop, (tripId, stops) ∈ tripStopTimes → stop ∈ stops →
     StopTime.departureTime stop = None) ∨
  (∀ tripId stops stop, (tripId, stops) ∈ tripStopTimes → stop ∈ stops →
     StopTime.arrivalTime stop = None) →
  collectTravelTimes stopToParent tripToRoute tripStopTimes = Returned edgeTravelTimes →
  edgeTravelTimes = [].
Proof.
  intros Huntimed. unfold collectTravelTimes. intros Hrun.
  apply (foldlM_invariant _ (λ ett, ett = []) _ _ _) in Hrun; [done..|].
  intros ett [tripId stops] ett' -> Hentry Hstep.
  destruct (cell_get tripToRoute tripId) as [routeId|]; [|by injection Hstep as <-].
  destruct (truthy (Some routeId)); [|by injection Hstep as <-].
  apply (foldlM_invariant _ (λ ett, ett = []) _ _ _) in Hstep; [done..|].
  intros ett1 [fromStop toStop] ett2 -> Hpair Hpush.
  apply bind_Returned in Hpush as (observation & Hobs & [= <-]).
  apply observe_untimed in Hobs as ->; [done|].
  unfold consecutive in Hpair.
  pose proof (elem_of_zip_l _ _ _ _ Hpair) as Hfrom.
  pose proof (elem_of_zip_r _ _ _ _ Hpair) as Hto.
  apply subseteq_drop in Hto.
  rewrite stable_sort_perm in Hfrom, Hto.
  destruct Huntimed as [Hdep|Harr]; [left|right]; eauto.
Qed.

(** Without the [departure_time] or the [arrival_time] header no edge is
    emitted. *)
Lemma preprocessGTFS_no_time_header fs network stopTimesHeader rows :
  parseCSV fs "stop_times.txt" = Returned (stopTimesHeader :: rows) →
  "departure_time" ∉ stopTimesHeader ∨ "arrival_time" ∉ stopTimesHeader →
  preprocessGTFS fs = Returned network →
  ProcessedNetwork.edges network = [].
Proof.
  intros Hparse Habsent Hrun.
  apply preprocessGTFS_passes in Hrun
    as (h1 & r1 & h2 & r2 & h3 & r3 & h4 & r4 & sm & stp & tst & ett &
        _ & Hparse' & _ & _ & _ & Hgroup & Hcollect & Hagg & _).
  rewrite Hparse in Hparse'. injection Hparse' as <- <-.
  pose proof (groupStopTimes_times _ _ _ Hgroup) as Htimes.
  apply collectTravelTimes_untimed in Hcollect as ->.
  - by injection Hagg as <-.
  - destruct Habsent as [Hdep|Harr]; [left|right];
      intros tripId stops stop Hin Hstop;
      destruct (Htimes _ _ _ Hin Hstop) as (row & _ & Harrival & Hdeparture).
    + rewrite Hdeparture. by apply indexOf_absent.
    + rewrite Harrival. by apply indexOf_absent.
Qed.

Lemma preprocessGTFS_no_location_type fs network stopsHeader rows :
  parseCSV fs "stops.txt" = Returned (stopsHeader :: rows) →
  "location_type" ∉ stopsHeader →
  preprocessGTFS fs = Returned network →
  ProcessedNetwork.stations network = [].
Proof.
  intros Hparse Habsent Hrun.
  apply preprocessGTFS_passes in Hrun
    as (h1 & r1 & h2 & r2 & h3 & r3 & h4 & r4 & sm & stp & tst & ett &
        Hparse' & _ & _ & _ & Hread & _ & _ & _ & ->).
  rewrite Hparse in Hparse'. injection Hparse' as <- <-.
  by apply readStations_no_location_type in Hread as ->.
Qed.

(** * Properties stated by the specification *)

(** ** Reachability search *)

(** C1: on the line graph A -(60)-> B -(120)-> C with the single start
    station A, whose remaining time is non-negative, the search returns
    exactly {A:0, B:60, C:180} for the budget 200 and exactly {A:0, B:60}
    for the budget 170; three iterations of the loop are enough. *)
Theorem findReachableStations_line (fuel : nat) (rem : Z) (r1 r2 : string) :
  0 ≤ rem → (3 ≤ fuel)%nat →
  findReachableStations fuel [StartStation.mk "A" rem] 200
      (buildGraph (line_network r1 r2))
    = Some [("A", 0); ("B", 60); ("C", 180)] ∧
  findReachableStations fuel [StartStation.mk "A" rem] 170
      (buildGraph (line_network r1 r2))
    = Some [("A", 0); ("B", 60)].
Proof.
  intros Hrem Hfuel.
  assert ((0 <=? rem) = true) as Hb by (by apply Z.leb_le).
  split; apply findReachableStations_fuel_mono with (fuel := 3%nat); try done;
    unfold findReachableStations, init_search;
    cbn [foldl StartStation.remainingTimeSec]; rewrite Hb; vm_compute; reflexivity.
Qed.

Lemma findReachableStations_line_witness :
  findReachableStations 3 [StartStation.mk "A" 0] 200
      (buildGraph (line_network "1" "2"))
    = Some [("A", 0); ("B", 60); ("C", 180)] ∧
  findReachableStations 3 [StartStation.mk "A" 0] 170
      (buildGraph (line_network "1" "2"))
    = Some [("A", 0); ("B", 60)].
Proof. apply findReachableStations_line; lia. Defined.

(** C2: the search is monotonic in the budget.  Whenever the searches with
    budgets t1 <= t2 return, every station of the first result is in the
    second; and on a graph with non-negative travel times both searches
    return once the fuel reaches an explicit bound. *)
Theorem findReachableStations_monotonic (graph : Graph)
    (startStations : list StartStation.t) (t1 t2 : Z) :
  t1 ≤ t2 →
  (∀ fuel1 fuel2 r1 r2,
     findReachableStations fuel1 startStations t1 graph = Some r1 →
     findReachableStations fuel2 startStations t2 graph = Some r2 →
     ∀ stationId, is_Some (jm_get r1 stationId) → is_Some (jm_get r2 stationId)) ∧
  (graph_nonneg graph →
   ∀ fuel, (max (search_fuel startStations t1 graph)
                (search_fuel startStations t2 graph) ≤ fuel)%nat →
     is_Some (findReachableStations fuel startStations t1 graph) ∧
     is_Some (findReachableStations fuel startStations t2 graph)).
Proof.
  intros Hle. split.
  - intros fuel1 fuel2 r1 r2 Hr1 Hr2 v [d Hd].
    apply (findReachableStations_spec _ _ _ _ _ Hr1) in Hd as (Hd & Hreach & _).
    apply (Reach_budget_mono _ _ t1 t2) in Hreach; [|done].
    destruct (findReachableStations_complete _ _ _ _ _ v d Hr2 Hreach)
      as (d' & Hd' & _); [lia|].
    by exists d'.
  - intros Hnonneg fuel Hfuel.
    split; apply findReachableStations_terminates; try done; lia.
Qed.

Lemma findReachableStations_monotonic_witness :
  (∀ fuel1 fuel2 r1 r2,
     findReachableStations fuel1 [StartStation.mk "A" 0] 170
        (buildGraph (line_network "1" "2")) = Some r1 →
     findReachableStations fuel2 [StartStation.mk "A" 0] 200
        (buildGraph (line_network "1" "2")) = Some r2 →
     ∀ stationId, is_Some (jm_get r1 stationId) → is_Some (jm_get r2 stationId)) ∧
  (graph_nonneg (buildGraph (line_network "1" "2")) →
   ∀ fuel, (max (search_fuel [StartStation.mk "A" 0] 170
                   (buildGraph (line_network "1" "2")))
                (search_fuel [StartStation.mk "A" 0] 200
                   (buildGraph (line_network "1" "2"))) ≤ fuel)%nat →
     is_Some (findReachableStations fuel [StartStation.mk "A" 0] 170
                (buildGraph (line_network "1" "2"))) ∧
     is_Some (findReachableStations fuel [StartStation.mk "A" 0] 200
                (buildGraph (line_network "1" "2")))).
Proof. apply findReachableStations_monotonic. lia. Defined.

(** ** Graph index *)

(** C9: the graph built from a network has an entry for every station of
    the network, holding exactly the network's edges that leave the station,
    in order; for a station without outgoing edges the entry is the empty
    array, so the lookup of a known station never fails. *)
Theorem buildGraph_station_entry (network : ProcessedNetwork.t) (station : Station.t) :
  station ∈ ProcessedNetwork.stations network →
  buildGraph network !! Station.id station
    = Some (filter (λ e, Edge.fromId e = Station.id station)
                   (ProcessedNetwork.edges network)) ∧
  ((∀ e, e ∈ ProcessedNetwork.edges network → Edge.fromId e ≠ Station.id station) →
   buildGraph network !! Station.id station = Some []).
Proof.
  intros Hin.
  assert (buildGraph network !! Station.id station
          = Some (filter (λ e, Edge.fromId e = Station.id station)
                         (ProcessedNetwork.edges network))) as Hlook.
  { rewrite buildGraph_lookup. rewrite decide_True; [done|].
    apply list_elem_of_fmap. by exists station. }
  split; [done|]. intros Hnone. rewrite Hlook. f_equal.
  by apply filter_none.
Qed.

Lemma buildGraph_station_entry_witness :
  buildGraph (line_network "1" "2") !! "C"
    = Some (filter (λ e, Edge.fromId e = "C")
                   (ProcessedNetwork.edges (line_network "1" "2"))) ∧
  ((∀ e, e ∈ ProcessedNetwork.edges (line_network "1" "2") → Edge.fromId e ≠ "C") →
   buildGraph (line_network "1" "2") !! "C" = Some []).
Proof.
  apply (buildGraph_station_entry (line_network "1" "2")
           (Station.mk "C" "C" 0 0 false [])).
  simpl. apply elem_of_cons; right. apply elem_of_cons; right.
  apply elem_of_cons; by left.
Defined.

(** ** Isochrone synthesis *)

Section IsochroneProperties.
Context (turf_distance : Q * Q → Q * Q → Q).
Context {Polygon : Type}.
Context (turf_buffer : Q * Q → Q → Polygon).
Context (turf_union : list Polygon → option Polygon).

Local Abbreviation nearest office network mwd :=
  (findNearestStations turf_distance (GeocodeResult.latitude office)
     (GeocodeResult.longitude office) (ProcessedNetwork.stations network) mwd).
Local Abbreviation isochrone := (createIsochrone turf_distance turf_buffer turf_union).

(** C3: on a network with non-negative travel times and with enough fuel
    for the searches, the loop of step 4 ends with a map that holds, for
    each station, exactly the least total time over the nearby stations
    whose walking time is within the budget: the walking time to that
    nearby station plus the transit time found by the search run from it
    alone, as the single start station, with the budget that remains.  When
    some nearby station has a walking time below the budget this map is not
    empty, and [createIsochrone] returns it, entry by entry and in its
    order, as the reachable stations of its result, together with the union
    of their buffers; the result is [null] only when that union is. *)
Theorem createIsochrone_min_merge (fuel : nat) (office : GeocodeResult.t)
    (network : ProcessedNetwork.t) (maxTravelTimeSec : Z) (wd mwd : Q) :
  network_nonneg network →
  (isochrone_fuel (nearest office network mwd) maxTravelTimeSec (buildGraph network)
     ≤ fuel)%nat →
  ∃ merged,
    merge_reachable fuel (nearest office network mwd) maxTravelTimeSec
      (buildGraph network) = Some merged ∧
    NoDup (jm_keys merged) ∧
    (∀ v T, jm_get merged v = Some T ↔
            min_total fuel maxTravelTimeSec (buildGraph network)
              (nearest office network mwd) v T) ∧
    ((∃ n, n ∈ nearest office network mwd ∧
           NearbyStation.walkingTimeSec n < maxTravelTimeSec) →
     merged ≠ [] ∧
     isochrone fuel office network maxTravelTimeSec wd mwd
       = Some ((λ unionedPolygon,
                  mkIsochroneResult unionedPolygon
                    ((λ '(stationId, travelTimeSec),
                        ReachableStation.mk stationId travelTimeSec) <$> merged)
                    (length merged))
               <$> unionBuffers turf_union
                     (stationBuffers turf_buffer network wd
                        ((λ '(stationId, travelTimeSec),
                            ReachableStation.mk stationId travelTimeSec) <$> merged)))).
Proof.
  intros Hnonneg Hfuel.
  pose proof (buildGraph_nonneg _ Hnonneg) as Hgraph.
  destruct (merge_reachable_terminates fuel (nearest office network mwd)
              maxTravelTimeSec (buildGraph network) Hgraph Hfuel) as [merged Hmerge].
  exists merged. split; [done|].
  pose proof (merge_reachable_inv _ _ _ _ _ Hmerge) as Hinv.
  split; [apply Hinv|]. split; [intros v T; by apply merge_inv_min_total|].
  intros (n & Hn & Hwalk).
  assert (merged ≠ []) as Hne.
  { assert (search_fuel [start_of maxTravelTimeSec n]
              (maxTravelTimeSec - NearbyStation.walkingTimeSec n) (buildGraph network)
            ≤ fuel)%nat as Hfuel_n.
    { etrans; [by apply search_fuel_le_isochrone_fuel|done]. }
    destruct (findReachableStations_terminates fuel [start_of maxTravelTimeSec n]
                (maxTravelTimeSec - NearbyStation.walkingTimeSec n)
                (buildGraph network) Hgraph Hfuel_n) as [r Hr].
    pose proof (findReachableStations_start fuel (start_of maxTravelTimeSec n)
                  (maxTravelTimeSec - NearbyStation.walkingTimeSec n)
                  (buildGraph network) r Hgraph) as Hstart.
    simpl in Hstart. specialize (Hstart ltac:(lia) ltac:(lia) Hr).
    destruct (minv_least _ _ _ _ _ Hinv (Station.id (NearbyStation.station n))
                (NearbyStation.walkingTimeSec n + 0)) as (T & HT & _).
    { exists n, r, 0. split; [done|]. split; [lia|]. by split. }
    intros ->. done. }
  split; [done|]. unfold createIsochrone.
  destruct (nearest office network mwd) as [|n0 rest] eqn:Hnear;
    [by apply elem_of_nil in Hn|].
  cbn [length Nat.eqb].
  match goal with |- context [filter ?P ?l] =>
    assert (filter P l ≠ []) as Hvalid end.
  { intros Hnil.
    assert (start_of maxTravelTimeSec n ∈
              filter (λ s, 0 < StartStation.remainingTimeSec s)
                     (start_of maxTravelTimeSec <$> n0 :: rest)) as Hin.
    { apply list_elem_of_filter. split; [simpl; lia|]. by apply list_elem_of_fmap_2. }
    rewrite Hnil in Hin. by apply elem_of_nil in Hin. }
  destruct (filter _ _) as [|s0 valid]; [done|]. cbn [length Nat.eqb].
  rewrite Hmerge. simpl. rewrite length_fmap.
  destruct merged as [|entry merged']; [done|]. cbn [length Nat.eqb].
  by destruct (unionBuffers _ _).
Qed.

(** C10: when some station is within walking range and none has a walking
    time strictly below the budget, [createIsochrone] returns [null]; so it
    does when the walking time of the nearest station equals the budget,
    although the search from that station, with the remaining time 0,
    returns it at time 0, a total of exactly the budget. *)
Theorem createIsochrone_zero_remaining (fuel : nat) (office : GeocodeResult.t)
    (network : ProcessedNetwork.t) (maxTravelTimeSec : Z) (wd mwd : Q)
    (n : NearbyStation.t) (rest : list NearbyStation.t) :
  nearest office network mwd = n :: rest →
  (∀ m, m ∈ n :: rest → ¬ NearbyStation.walkingTimeSec m < maxTravelTimeSec) ∨
  NearbyStation.walkingTimeSec n = maxTravelTimeSec →
  isochrone fuel office network maxTravelTimeSec wd mwd = Some None ∧
  (NearbyStation.walkingTimeSec n = maxTravelTimeSec →
   network_nonneg network →
   (search_fuel [start_of maxTravelTimeSec n] 0 (buildGraph network) ≤ fuel)%nat →
   ∃ r, findReachableStations fuel [start_of maxTravelTimeSec n]
          (maxTravelTimeSec - NearbyStation.walkingTimeSec n) (buildGraph network)
          = Some r ∧
        jm_get r (Station.id (NearbyStation.station n)) = Some 0).
Proof.
  intros Hnear Hcase. split.
  - apply createIsochrone_no_valid_start. rewrite Hnear. intros m Hm.
    destruct Hcase as [Hall|Heq].
    + specialize (Hall m Hm). lia.
    + pose proof (findNearestStations_head _ _ _ _ _ _ _ m Hnear Hm). lia.
  - intros Heq Hnonneg Hfuel. rewrite Heq, Z.sub_diag.
    apply buildGraph_nonneg in Hnonneg.
    destruct (findReachableStations_terminates fuel [start_of maxTravelTimeSec n] 0
                (buildGraph network) Hnonneg Hfuel) as [r Hr].
    exists r. split; [done|].
    apply (findReachableStations_start fuel (start_of maxTravelTimeSec n) 0
             (buildGraph network) r); try done.
    simpl. lia.
Qed.
End IsochroneProperties.

Section IsochroneOutcomes.
Context (turf_distance : Q * Q → Q * Q → call Q).
Context {Polygon : Type}.
Context (turf_buffer : Q * Q → Q → call (option Polygon)).
Context (turf_union : list (option Polygon) → call (option Polygon)).

Local Abbreviation distance_to office station :=
  (Throwing.calculateDistance turf_distance (GeocodeResult.latitude office)
     (GeocodeResult.longitude office) (Station.lat station) (Station.lon station)).
Local Abbreviation nearest office network mwd :=
  (Throwing.findNearestStations turf_distance (GeocodeResult.latitude office)
     (GeocodeResult.longitude office) (ProcessedNetwork.stations network) mwd).
Local Abbreviation isochrone :=
  (Throwing.createIsochrone turf_distance turf_buffer turf_union).
Local Abbreviation reachable_of merged :=
  ((λ '(stationId, travelTimeSec), ReachableStation.mk stationId travelTimeSec)
     <$> merged).

(** C5: over a geometry library whose calls may throw, [createIsochrone]
    returns [null], and does not throw, in each of three situations: the
    distance of every station from the office is above the maximum walking
    distance; the walking time of every station within that distance is
    above the budget; the searches have returned, the buffers have been
    built, and their union yields nothing, which is the case when there is
    no buffer, when the only buffer is [undefined], and when the library's
    union of two or more buffers gives [null].  On a network with
    non-negative travel times and with enough fuel the searches do return.
    An error is another outcome: [createIsochrone] has no [try], and throws
    when a distance, a buffer or the union of two or more buffers does. *)
Theorem createIsochrone_no_result (fuel : nat) (office : GeocodeResult.t)
    (network : ProcessedNetwork.t) (maxTravelTimeSec : Z) (wd mwd : Q) :
  ((∀ station, station ∈ ProcessedNetwork.stations network →
      ∃ d, distance_to office station = Value d ∧ Qle_bool d mwd = false) →
   isochrone fuel office network maxTravelTimeSec wd mwd = Some (Value None)) ∧
  ((∀ station, station ∈ ProcessedNetwork.stations network →
      ∃ d, distance_to office station = Value d ∧
           (Qle_bool d mwd = true →
            maxTravelTimeSec < calculateWalkingTime d WALKING_SPEED_MPH)) →
   isochrone fuel office network maxTravelTimeSec wd mwd = Some (Value None)) ∧
  (∀ nearby merged buffers,
     nearest office network mwd = Value nearby →
     merge_reachable fuel nearby maxTravelTimeSec (buildGraph network) = Some merged →
     Throwing.stationBuffers turf_buffer network wd (reachable_of merged)
       = Value buffers →
     buffers = [] ∨ buffers = [None] ∨
     ((2 ≤ length buffers)%nat ∧ turf_union buffers = Value None) →
     isochrone fuel office network maxTravelTimeSec wd mwd = Some (Value None)) ∧
  (∀ nearby,
     nearest office network mwd = Value nearby →
     network_nonneg network →
     (isochrone_fuel nearby maxTravelTimeSec (buildGraph network) ≤ fuel)%nat →
     ∃ merged,
       merge_reachable fuel nearby maxTravelTimeSec (buildGraph network)
         = Some merged) ∧
  (∀ station,
     station ∈ ProcessedNetwork.stations network →
     distance_to office station = Throws →
     isochrone fuel office network maxTravelTimeSec wd mwd = Some Throws) ∧
  (∀ nearby merged n,
     nearest office network mwd = Value nearby →
     network_nonneg network →
     (isochrone_fuel nearby maxTravelTimeSec (buildGraph network) ≤ fuel)%nat →
     merge_reachable fuel nearby maxTravelTimeSec (buildGraph network) = Some merged →
     n ∈ nearby →
     NearbyStation.walkingTimeSec n < maxTravelTimeSec →
     Throwing.stationBuffers turf_buffer network wd (reachable_of merged) = Throws ∨
     (∃ buffers,
        Throwing.stationBuffers turf_buffer network wd (reachable_of merged)
          = Value buffers ∧
        (2 ≤ length buffers)%nat ∧ turf_union buffers = Throws) →
     isochrone fuel office network maxTravelTimeSec wd mwd = Some Throws).
Proof.
  assert (∀ above : Q → Prop,
            (∀ d, above d → Qle_bool d mwd = true →
                  maxTravelTimeSec ≤ calculateWalkingTime d WALKING_SPEED_MPH) →
            (∀ station, station ∈ ProcessedNetwork.stations network →
               ∃ d, distance_to office station = Value d ∧ above d) →
            isochrone fuel office network maxTravelTimeSec wd mwd = Some (Value None))
    as Hnull.
  { intros above Habove Hall.
    destruct (findNearestStations_returns turf_distance
                (GeocodeResult.latitude office) (GeocodeResult.longitude office)
                (ProcessedNetwork.stations network) mwd) as [nearby Hnear].
    { intros station Hin. destruct (Hall station Hin) as (d & Hd & _). by exists d. }
    apply (createIsochrone_null_no_start _ _ _ _ _ _ _ _ _ nearby Hnear).
    intros n Hn.
    apply (findNearestStations_Value _ _ _ _ _ _ Hnear) in Hn
      as (station & d & Hin & Hd & Hle & ->).
    destruct (Hall station Hin) as (d' & Hd' & Hd'above).
    rewrite Hd in Hd'. injection Hd' as <-. simpl. by apply Habove. }
  split; [|split; [|split; [|split; [|split]]]].
  - intros Hall. apply (Hnull (λ d, Qle_bool d mwd = false)); [|done].
    intros d Hfalse Htrue. congruence.
  - intros Hall.
    apply (Hnull (λ d, Qle_bool d mwd = true →
                       maxTravelTimeSec < calculateWalkingTime d WALKING_SPEED_MPH));
      [|done].
    intros d Habove Hle. specialize (Habove Hle). lia.
  - intros nearby merged buffers. apply createIsochrone_null_union.
  - intros nearby _ Hnonneg Hfuel.
    apply (merge_reachable_terminates fuel nearby maxTravelTimeSec (buildGraph network));
      [by apply buildGraph_nonneg | done].
  - intros station Hin Hthrows. apply createIsochrone_throws_nearest.
    by eapply findNearestStations_throws.
  - intros nearby merged n Hnear Hnonneg Hfuel Hmerge Hn Hwalk Hthrows.
    rewrite (createIsochrone_after_merge _ _ _ _ _ _ _ _ _ nearby merged n
               Hnear Hmerge Hn Hwalk).
    + destruct Hthrows as [->|(buffers & -> & Hlen & Hunion)]; [done|].
      simpl. destruct buffers as [|b1 [|b2 buffers]]; simpl in Hlen; [lia|lia|].
      unfold Throwing.unionBuffers. by rewrite Hunion.
    + eapply merge_reachable_nonempty; [by apply buildGraph_nonneg|done..].
Qed.
End IsochroneOutcomes.

Lemma createIsochrone_min_merge_witness :
  (∃ merged,
     merge_reachable 3000
       (findNearestStations example_distance (GeocodeResult.latitude (example_office 0))
          (GeocodeResult.longitude (example_office 0))
          (ProcessedNetwork.stations example_network) (1 # 2))
       400 (buildGraph example_network) = Some merged ∧
     NoDup (jm_keys merged) ∧
     (∀ v T, jm_get merged v = Some T ↔
             min_total 3000 400 (buildGraph example_network)
               (findNearestStations example_distance
                  (GeocodeResult.latitude (example_office 0))
                  (GeocodeResult.longitude (example_office 0))
                  (ProcessedNetwork.stations example_network) (1 # 2)) v T) ∧
     ((∃ n, n ∈ findNearestStations example_distance
                  (GeocodeResult.latitude (example_office 0))
                  (GeocodeResult.longitude (example_office 0))
                  (ProcessedNetwork.stations example_network) (1 # 2) ∧
            NearbyStation.walkingTimeSec n < 400) →
      merged ≠ [] ∧
      createIsochrone example_distance example_buffer example_union
        3000 (example_office 0) example_network 400 (1 # 2) (1 # 2)
        = Some ((λ unionedPolygon,
                   mkIsochroneResult unionedPolygon
                     ((λ '(stationId, travelTimeSec),
                         ReachableStation.mk stationId travelTimeSec) <$> merged)
                     (length merged))
                <$> unionBuffers example_union
                      (stationBuffers example_buffer example_network (1 # 2)
                         ((λ '(stationId, travelTimeSec),
                             ReachableStation.mk stationId travelTimeSec) <$> merged))))) ∧
  merge_reachable 3000
    (findNearestStations example_distance (GeocodeResult.latitude (example_office 0))
       (GeocodeResult.longitude (example_office 0))
       (ProcessedNetwork.stations example_network) (1 # 2))
    400 (buildGraph example_network) = Some [("A", 0); ("B", 60); ("C", 180)] ∧
  createIsochrone example_distance example_buffer example_union
    3000 (example_office 0) example_network 400 (1 # 2) (1 # 2)
    = Some (Some example_isochrone).
Proof.
  split; [|split; vm_compute; reflexivity].
  apply (createIsochrone_min_merge example_distance example_buffer example_union
           3000 (example_office 0) example_network 400 (1 # 2) (1 # 2)).
  - intros e He. repeat (apply elem_of_cons in He as [->|He]; [simpl; lia|]).
    by apply elem_of_nil in He.
  - apply Nat.leb_le. vm_compute. reflexivity.
Defined.

Lemma createIsochrone_no_result_witness :
  Throwing.createIsochrone (returning_distance example_distance)
    (returning_buffer example_buffer) (returning_union example_union)
    0 (example_office 5) example_network 400 (1 # 2) (1 # 2) = Some (Value None) ∧
  Throwing.createIsochrone (returning_distance example_distance)
    (returning_buffer example_buffer) (returning_union example_union)
    0 (example_office (1 # 8)) example_network 100 (1 # 2) (1 # 2)
    = Some (Value None) ∧
  Throwing.createIsochrone (returning_distance example_distance)
    (returning_buffer example_buffer) null_union
    3000 (example_office 0) example_network 400 (1 # 2) (1 # 2) = Some (Value None) ∧
  Throwing.createIsochrone throwing_distance
    (returning_buffer example_buffer) (returning_union example_union)
    3000 (example_office 0) example_network 400 (1 # 2) (1 # 2) = Some Throws ∧
  Throwing.createIsochrone (returning_distance example_distance)
    (returning_buffer example_buffer) throwing_union
    3000 (example_office 0) example_network 400 (1 # 2) (1 # 2) = Some Throws.
Proof.
  split; [|split; [|split; [|split]]].
  - apply (proj1
             (createIsochrone_no_result (returning_distance example_distance)
                (returning_buffer example_buffer) (returning_union example_union)
                0 (example_office 5) example_network 400 (1 # 2) (1 # 2))).
    intros station Hin.
    repeat (apply elem_of_cons in Hin as [->|Hin];
            [eexists; split; vm_compute; reflexivity|]).
    by apply elem_of_nil in Hin.
  - apply (proj1 (proj2
             (createIsochrone_no_result (returning_distance example_distance)
                (returning_buffer example_buffer) (returning_union example_union)
                0 (example_office (1 # 8)) example_network 100 (1 # 2) (1 # 2)))).
    intros station Hin.
    repeat (apply elem_of_cons in Hin as [->|Hin];
            [eexists; split; [vm_compute; reflexivity|];
             vm_compute; first [reflexivity | discriminate]|]).
    by apply elem_of_nil in Hin.
  - eapply (proj1 (proj2 (proj2
              (createIsochrone_no_result (returning_distance example_distance)
                 (returning_buffer example_buffer) null_union
                 3000 (example_office 0) example_network 400 (1 # 2) (1 # 2))))).
    + vm_compute. reflexivity.
    + vm_compute. reflexivity.
    + vm_compute. reflexivity.
    + right. right. split; [simpl; lia | reflexivity].
  - apply (proj1 (proj2 (proj2 (proj2 (proj2
             (createIsochrone_no_result throwing_distance
                (returning_buffer example_buffer) (returning_union example_union)
                3000 (example_office 0) example_network 400 (1 # 2) (1 # 2))))))
             (Station.mk "A" "First" 0 0 false ["1"])).
    + apply elem_of_cons. by left.
    + reflexivity.
  - eapply (proj2 (proj2 (proj2 (proj2 (proj2
              (createIsochrone_no_result (returning_distance example_distance)
                 (returning_buffer example_buffer) throwing_union
                 3000 (example_office 0) example_network 400 (1 # 2) (1 # 2))))))
              _ _ (NearbyStation.mk (Station.mk "A" "First" 0 0 false ["1"]) 0 0)).
    + vm_compute. reflexivity.
    + intros e He. repeat (apply elem_of_cons in He as [->|He]; [simpl; lia|]).
      by apply elem_of_nil in He.
    + apply Nat.leb_le. vm_compute. reflexivity.
    + vm_compute. reflexivity.
    + apply elem_of_cons. by left.
    + simpl. lia.
    + right. eexists. split; [vm_compute; reflexivity|].
      split; [simpl; lia | reflexivity].
Defined.

Lemma createIsochrone_zero_remaining_witness :
  createIsochrone example_distance example_buffer example_union
    10 (example_office (-1 # 4)) example_network 300 (1 # 2) (1 # 2) = Some None ∧
  (NearbyStation.walkingTimeSec
     (NearbyStation.mk (Station.mk "A" "First" 0 0 false ["1"]) (1 # 4) 300) = 300 →
   network_nonneg example_network →
   (search_fuel
      [start_of 300 (NearbyStation.mk (Station.mk "A" "First" 0 0 false ["1"]) (1 # 4) 300)]
      0 (buildGraph example_network) ≤ 10)%nat →
   ∃ r, findReachableStations 10
          [start_of 300 (NearbyStation.mk (Station.mk "A" "First" 0 0 false ["1"]) (1 # 4) 300)]
          (300 - NearbyStation.walkingTimeSec
                   (NearbyStation.mk (Station.mk "A" "First" 0 0 false ["1"]) (1 # 4) 300))
          (buildGraph example_network) = Some r ∧
        jm_get r (Station.id (NearbyStation.station
                   (NearbyStation.mk (Station.mk "A" "First" 0 0 false ["1"]) (1 # 4) 300)))
          = Some 0).
Proof.
  apply (createIsochrone_zero_remaining example_distance example_buffer example_union
           10 (example_office (-1 # 4)) example_network 300 (1 # 2) (1 # 2)
           (NearbyStation.mk (Station.mk "A" "First" 0 0 false ["1"]) (1 # 4) 300)
           [NearbyStation.mk (Station.mk "B" "Second" (1 # 4) 0 false ["1"]) (8 # 16) 600]).
  - vm_compute. reflexivity.
  - right. reflexivity.
Defined.
(** ** GTFS preprocessing *)

(** C4, as the code has it: [preprocessGTFS] throws the read error of the
    runtime for a path exactly when that path is the first missing one of
    the four files, in the order stops, stop_times, trips, routes; so it
    throws when any of them is missing, and [main] then exits with code 1,
    as for every error.  No header is checked.  Without the
    [location_type] header every network returned has no station; without
    the [departure_time] or the [arrival_time] header every network
    returned has no edge, because a pair of consecutive stops with
    different parents makes [timeToSeconds] throw a [TypeError] on
    [undefined], as it does on the feed [example_feed_no_departure]. *)
Theorem preprocessGTFS_missing_file (fs : string → option string) :
  (∀ path, preprocessGTFS fs = Threw (ENOENT path) ↔
     ∃ before after, required_files = before ++ path :: after ∧ fs path = None ∧
                     ∀ file, file ∈ before → is_Some (fs file)) ∧
  ((∃ file, file ∈ required_files ∧ fs file = None) →
   ∃ path, path ∈ required_files ∧ fs path = None ∧
           preprocessGTFS fs = Threw (ENOENT path)) ∧
  (∀ error, preprocessGTFS fs = Threw error → main fs = Returned (Exit 1)) ∧
  (∀ stopsHeader rows network,
     parseCSV fs "stops.txt" = Returned (stopsHeader :: rows) →
     "location_type" ∉ stopsHeader →
     preprocessGTFS fs = Returned network →
     ProcessedNetwork.stations network = []) ∧
  (∀ stopTimesHeader rows network,
     parseCSV fs "stop_times.txt" = Returned (stopTimesHeader :: rows) →
     "departure_time" ∉ stopTimesHeader ∨ "arrival_time" ∉ stopTimesHeader →
     preprocessGTFS fs = Returned network →
     ProcessedNetwork.edges network = []) ∧
  (∀ stopToParent routeId fromStop toStop,
     parentOf stopToParent (StopTime.stopId fromStop)
       ≠ parentOf stopToParent (StopTime.stopId toStop) →
     (StopTime.departureTime fromStop = None →
      observe stopToParent routeId fromStop toStop = Threw TypeError) ∧
     (∀ fromTime,
        timeToSeconds (StopTime.departureTime fromStop) = Returned fromTime →
        StopTime.arrivalTime toStop = None →
        observe stopToParent routeId fromStop toStop = Threw TypeError)) ∧
  preprocessGTFS example_feed_no_departure = Threw TypeError ∧
  main example_feed_no_departure = Returned (Exit 1).
Proof.
  split; [apply preprocessGTFS_ENOENT_iff|]. split.
  { intros (file & Hfile & Hnone).
    unfold preprocessGTFS, parseCSV, required_files in *.
    destruct (fs "stops.txt") as [stops|] eqn:Hstops.
    2:{ exists "stops.txt". split; [|done]. apply elem_of_cons. by left. }
    destruct (fs "stop_times.txt") as [stopTimes|] eqn:HstopTimes.
    2:{ exists "stop_times.txt". split; [|done].
        apply elem_of_cons; right. apply elem_of_cons; by left. }
    destruct (fs "trips.txt") as [trips|] eqn:Htrips.
    2:{ exists "trips.txt". split; [|done].
        do 2 (apply elem_of_cons; right). apply elem_of_cons; by left. }
    destruct (fs "routes.txt") as [routes|] eqn:Hroutes.
    2:{ exists "routes.txt". split; [|done].
        do 3 (apply elem_of_cons; right). apply elem_of_cons; by left. }
    repeat (apply elem_of_cons in Hfile as [->|Hfile]; [congruence|]).
    by apply elem_of_nil in Hfile. }
  split; [intros error Hthrew; unfold main; by rewrite Hthrew|].
  split; [intros h rows network; apply preprocessGTFS_no_location_type|].
  split; [intros h rows network; apply preprocessGTFS_no_time_header|].
  split; [apply observe_untimed_throws|].
  split; vm_compute; reflexivity.
Qed.

(** C4, as stated, fails: the stops table of this feed has no
    [location_type] header, and the run returns a network, without
    stations, instead of failing. *)
Lemma preprocessGTFS_absent_header_returns :
  (∃ rows, parseCSV example_feed_no_location_type "stops.txt"
             = Returned (["stop_id"; "stop_name"; "stop_lat"; "stop_lon";
                          "parent_station"] :: rows)) ∧
  ("location_type" ∉ ["stop_id"; "stop_name"; "stop_lat"; "stop_lon"; "parent_station"]) ∧
  preprocessGTFS example_feed_no_location_type
    = Returned (ProcessedNetwork.mk [] [Edge.mk "101" "103" 100 "1"]) ∧
  main example_feed_no_location_type
    = Returned (Wrote (ProcessedNetwork.mk [] [Edge.mk "101" "103" 100 "1"])).
Proof.
  split; [eexists; vm_compute; reflexivity|].
  split; [|split; vm_compute; reflexivity].
  intros Hin. repeat (apply elem_of_cons in Hin as [[=]|Hin]). by apply elem_of_nil in Hin.
Qed.

(** C6: the guard of the third pass lets [NaN] through.  In the feed
    [example_feed_untimed] the middle stop of the trip is not a timepoint
    and has blank times; [timeToSeconds] of a blank time is [NaN], both
    comparisons of the guard fail on it, and the script emits two edges
    whose travel time is [NaN].  Apart from [NaN] the claim holds of every
    feed: the travel time of an emitted edge, when it is a number, is
    between 0 and 3600; a pair is recorded with the difference of its two
    times itself, or with that difference plus 86400 when it is negative,
    and only when its parent stations differ and this time is within the
    bounds; a pair of numbers outside the bounds, or with one parent
    station, is not recorded at all. *)
Theorem preprocessGTFS_untimed_stop_NaN :
  (network ← WithNaN.preprocessGTFS example_feed_untimed;
   Returned (EmittedNetwork.edges network))
    = Returned [EmittedEdge.mk "101" "103" None "1";
                EmittedEdge.mk "103" "104" None "1"] ∧
  WithNaN.timeToSeconds (Some EmptyString) = Returned None ∧
  (∀ fs network e t,
     WithNaN.preprocessGTFS fs = Returned network →
     e ∈ EmittedNetwork.edges network →
     EmittedEdge.travelTimeSec e = Some t → 0 ≤ t ≤ 3600) ∧
  (∀ stopToParent routeId fromStop toStop edgeKey t,
     WithNaN.observe stopToParent routeId fromStop toStop
       = Returned (Some (edgeKey, t)) →
     parentOf stopToParent (StopTime.stopId fromStop)
       ≠ parentOf stopToParent (StopTime.stopId toStop) ∧
     ∃ fromTime toTime,
       WithNaN.timeToSeconds (StopTime.departureTime fromStop) = Returned fromTime ∧
       WithNaN.timeToSeconds (StopTime.arrivalTime toStop) = Returned toTime ∧
       match fromTime, toTime with
       | Some a, Some b =>
           (0 ≤ b - a ≤ 3600 ∧ t = Some (b - a)) ∨
           (b - a < 0 ∧ 0 ≤ b - a + 86400 ≤ 3600 ∧ t = Some (b - a + 86400))
       | _, _ => t = None
       end) ∧
  (∀ stopToParent routeId fromStop toStop,
     WithNaN.observe stopToParent routeId fromStop toStop = Returned None →
     parentOf stopToParent (StopTime.stopId fromStop)
       = parentOf stopToParent (StopTime.stopId toStop) ∨
     ∃ a b,
       WithNaN.timeToSeconds (StopTime.departureTime fromStop) = Returned (Some a) ∧
       WithNaN.timeToSeconds (StopTime.arrivalTime toStop) = Returned (Some b) ∧
       (3600 < b - a ∨ b - a + 86400 < 0 ∨ (b - a < 0 ∧ 3600 < b - a + 86400))) ∧
  (∀ edgeTravelTimes, WithNaN.record_observation edgeTravelTimes None = edgeTravelTimes).
Proof.
  split; [vm_compute; reflexivity|]. split; [reflexivity|]. split.
  { intros fs network e t Hrun He Ht.
    apply preprocessGTFS_NaN_edges in Hrun as (stp & ttr & tst & ett & Hcollect & Hagg).
    apply collectTravelTimes_NaN_inv in Hcollect.
    by apply (aggregateEdges_NaN_bounds ett _ e t Hcollect Hagg). }
  split.
  { intros stopToParent routeId fromStop toStop edgeKey t Hobs.
    apply observe_NaN_Some in Hobs as (Hne & _ & Htimes). by split. }
  split; [apply observe_NaN_None | done].
Qed.




(** C8: a negative difference between the arrival at the next stop and
    the departure from the previous one is corrected by adding 86400
    seconds, and the pair is recorded with the corrected time when that is
    at most one hour; the departure 23:59:50 followed by the arrival
    00:00:20 gives 30 seconds. *)
Theorem overnight_correction (stopToParent : gmap (option string) string)
    (routeId : string) (fromStop toStop : StopTime.t) (fromTime toTime : Z) :
  timeToSeconds (StopTime.departureTime fromStop) = Returned fromTime →
  timeToSeconds (StopTime.arrivalTime toStop) = Returned toTime →
  toTime - fromTime < 0 →
  adjustedTravelTime fromTime toTime = toTime - fromTime + 86400 ∧
  (parentOf stopToParent (StopTime.stopId fromStop)
     ≠ parentOf stopToParent (StopTime.stopId toStop) →
   0 ≤ toTime - fromTime + 86400 ≤ 3600 →
   ∃ edgeKey, observe stopToParent routeId fromStop toStop
                = Returned (Some (edgeKey, toTime - fromTime + 86400))) ∧
  timeToSeconds (Some "23:59:50") = Returned 86390 ∧
  timeToSeconds (Some "00:00:20") = Returned 20 ∧
  adjustedTravelTime 86390 20 = 30.
Proof.
  intros Hfrom Hto Hneg.
  assert (adjustedTravelTime fromTime toTime = toTime - fromTime + 86400) as Hadj.
  { unfold adjustedTravelTime. destruct (Z.ltb_spec (toTime - fromTime) 0); [done | lia]. }
  split; [done|]. split; [|by vm_compute].
  intros Hparents Hrange. unfold observe.
  rewrite decide_False by done. rewrite Hfrom, Hto. simpl. rewrite Hadj.
  destruct (Z.ltb_spec (toTime - fromTime + 86400) 0); [lia|].
  destruct (Z.ltb_spec 3600 (toTime - fromTime + 86400)); [lia|].
  simpl. by eexists.
Qed.

Lemma overnight_correction_witness :
  adjustedTravelTime 86390 20 = 20 - 86390 + 86400 ∧
  (parentOf ∅ (Some "101S") ≠ parentOf ∅ (Some "103S") →
   0 ≤ 20 - 86390 + 86400 ≤ 3600 →
   ∃ edgeKey,
     observe ∅ "1" (StopTime.mk (Some "101S") (Some "23:59:00") (Some "23:59:50") 1)
               (StopTime.mk (Some "103S") (Some "00:00:20") (Some "00:00:40") 2)
       = Returned (Some (edgeKey, 20 - 86390 + 86400))) ∧
  timeToSeconds (Some "23:59:50") = Returned 86390 ∧
  timeToSeconds (Some "00:00:20") = Returned 20 ∧
  adjustedTravelTime 86390 20 = 30.
Proof.
  apply (overnight_correction ∅ "1"
           (StopTime.mk (Some "101S") (Some "23:59:00") (Some "23:59:50") 1)
           (StopTime.mk (Some "103S") (Some "00:00:20") (Some "00:00:40") 2)
           86390 20).
  - vm_compute. reflexivity.
  - vm_compute. reflexivity.
  - lia.
Defined.

(** * Further properties of the code *)

(** ** Reachability search and graph index *)

Lemma jm_no_key_nil {K V} `{EqDecision K} (m : JsMap K V) :
  (∀ k, jm_get m k = None) → m = [].
Proof.
  destruct m as [|[k v] m]; [done|]. intros Hnone.
  specialize (Hnone k). simpl in Hnone. by rewrite decide_True in Hnone.
Qed.

Lemma search_loop_over_budget fuel maxTimeSec graph dist queue :
  (∀ c u, (c, u) ∈ queue → maxTimeSec < c) →
  (length queue ≤ fuel)%nat →
  search_loop fuel maxTimeSec graph dist queue = Some dist.
Proof.
  revert queue. induction fuel as [|fuel IH]; intros queue Hover Hlen.
  - destruct queue; [done | simpl in Hlen; lia].
  - destruct queue as [|[c u] rest]; [done|]. simpl in *.
    assert (maxTimeSec < c) as Hc by (eapply Hover; apply elem_of_cons; by left).
    assert (search_loop fuel maxTimeSec graph dist rest = Some dist) as Hrest.
    { apply IH; [|lia]. intros c' u' Hin. eapply Hover. apply elem_of_cons. by right. }
    destruct (match jm_get dist u with Some bestTime => bestTime <? c | None => false end);
      [done|].
    by destruct (Z.leb_spec c maxTimeSec); [lia|].
Qed.

Lemma init_search_length startStations :
  (length (init_search startStations).2 ≤ length startStations)%nat.
Proof.
  unfold init_search.
  apply (foldl_invariant _
           (λ pre (st : JsMap string Z * list (Z * string)),
              (length st.2 ≤ length pre)%nat)).
  - simpl. lia.
  - intros pre s [dist queue] Hlen _. rewrite length_app. simpl in *.
    destruct (0 <=? StartStation.remainingTimeSec s); simpl;
      [rewrite length_app; simpl|]; lia.
Qed.

Lemma init_search_same_sign starts1 starts2 :
  Forall2 (λ a b, StartStation.stationId a = StartStation.stationId b ∧
                  (0 ≤ StartStation.remainingTimeSec a ↔
                   0 ≤ StartStation.remainingTimeSec b))
          starts1 starts2 →
  init_search starts1 = init_search starts2.
Proof.
  unfold init_search. generalize (@nil (string * Z), @nil (Z * string)) as st.
  intros st Hall. revert st.
  induction Hall as [|a b l1 l2 [Hid Hsign] Hall IH]; intros [dist queue]; [done|].
  cbn [foldl]. rewrite Hid.
  assert ((0 <=? StartStation.remainingTimeSec a)
          = (0 <=? StartStation.remainingTimeSec b)) as ->; [|apply IH].
  destruct (Z.leb_spec 0 (StartStation.remainingTimeSec a)),
           (Z.leb_spec 0 (StartStation.remainingTimeSec b)); try done; lia.
Qed.

Lemma findReachableStations_start_in fuel startStations s maxTimeSec graph r :
  graph_nonneg graph → s ∈ startStations →
  0 ≤ StartStation.remainingTimeSec s → 0 ≤ maxTimeSec →
  findReachableStations fuel startStations maxTimeSec graph = Some r →
  jm_get r (StartStation.stationId s) = Some 0.
Proof.
  intros Hnonneg Hs Hrem Ht Hr.
  apply (findReachableStations_spec _ _ _ _ _ Hr). split; [done|]. split.
  - by apply Reach_start.
  - intros d' Hd'. by eapply Reach_nonneg.
Qed.

(** X1: the search returns shortest times.  A station is in the result
    with time [d] exactly when [d] is within the budget and is the least
    time of a walk that starts at a start station with non-negative
    remaining time and whose every prefix stays within the budget. *)
Theorem findReachableStations_least_time (fuel : nat)
    (startStations : list StartStation.t) (maxTimeSec : Z) (graph : Graph)
    (r : JsMap string Z) :
  findReachableStations fuel startStations maxTimeSec graph = Some r →
  ∀ v d, jm_get r v = Some d ↔
    d ≤ maxTimeSec ∧ Reach graph startStations maxTimeSec v d ∧
    ∀ d', Reach graph startStations maxTimeSec v d' → d ≤ d'.
Proof. apply findReachableStations_spec. Qed.

Lemma findReachableStations_least_time_witness :
  jm_get [("A", 0); ("B", 60); ("C", 180)] "C" = Some 180 ↔
    180 ≤ 200 ∧
    Reach (buildGraph (line_network "1" "2")) [StartStation.mk "A" 0] 200 "C" 180 ∧
    ∀ d', Reach (buildGraph (line_network "1" "2")) [StartStation.mk "A" 0] 200 "C" d' →
          180 ≤ d'.
Proof.
  apply (findReachableStations_least_time 3). vm_compute. reflexivity.
Defined.

(** X2: the result is closed under the edges of the graph.  If [u] is
    returned with time [d] and an edge from [u] fits in the budget, its
    target is returned with a time of at most [d] plus the travel time of
    the edge. *)
Theorem findReachableStations_edge_relaxed (fuel : nat)
    (startStations : list StartStation.t) (maxTimeSec : Z) (graph : Graph)
    (r : JsMap string Z) (u : string) (d : Z) (edges : list Edge.t) (e : Edge.t) :
  findReachableStations fuel startStations maxTimeSec graph = Some r →
  jm_get r u = Some d → graph !! u = Some edges → e ∈ edges →
  d + Edge.travelTimeSec e ≤ maxTimeSec →
  ∃ d', jm_get r (Edge.toId e) = Some d' ∧ d' ≤ d + Edge.travelTimeSec e.
Proof.
  intros Hr Hu Hg He Hw.
  apply (findReachableStations_spec _ _ _ _ _ Hr) in Hu as (Hd & Hreach & _).
  eapply findReachableStations_complete; [done| |done].
  by eapply Reach_step.
Qed.

Lemma findReachableStations_edge_relaxed_witness :
  ∃ d', jm_get [("A", 0); ("B", 60); ("C", 180)]
          (Edge.toId (Edge.mk "B" "C" 120 "2")) = Some d' ∧
        d' ≤ 60 + Edge.travelTimeSec (Edge.mk "B" "C" 120 "2").
Proof.
  apply (findReachableStations_edge_relaxed 3 [StartStation.mk "A" 0] 200
           (buildGraph (line_network "1" "2")) _ "B" 60 [Edge.mk "B" "C" 120 "2"]).
  - vm_compute. reflexivity.
  - reflexivity.
  - vm_compute. reflexivity.
  - apply elem_of_cons. by left.
  - simpl. lia.
Defined.

(** X3: on a graph with non-negative travel times and for a budget that is
    not negative, every returned time lies between 0 and the budget, and
    every start station with non-negative remaining time is returned with
    time 0, whether or not the graph has an entry for it. *)
Theorem findReachableStations_times_bounded (fuel : nat)
    (startStations : list StartStation.t) (maxTimeSec : Z) (graph : Graph)
    (r : JsMap string Z) :
  graph_nonneg graph → 0 ≤ maxTimeSec →
  findReachableStations fuel startStations maxTimeSec graph = Some r →
  (∀ v d, jm_get r v = Some d → 0 ≤ d ≤ maxTimeSec) ∧
  (∀ s, s ∈ startStations → 0 ≤ StartStation.remainingTimeSec s →
        jm_get r (StartStation.stationId s) = Some 0).
Proof.
  intros Hnonneg Ht Hr. split.
  - intros v d Hd.
    apply (findReachableStations_spec _ _ _ _ _ Hr) in Hd as (Hle & Hreach & _).
    split; [exact (Reach_nonneg _ _ _ _ _ Hnonneg Hreach) | done].
  - intros s Hs Hrem.
    exact (findReachableStations_start_in fuel startStations s maxTimeSec graph r
             Hnonneg Hs Hrem Ht Hr).
Qed.

Lemma findReachableStations_times_bounded_witness :
  (∀ v d, jm_get [("Z", 0); ("A", 0); ("B", 60)] v = Some d → 0 ≤ d ≤ 100) ∧
  (∀ s, s ∈ [StartStation.mk "Z" 7; StartStation.mk "A" 0] →
        0 ≤ StartStation.remainingTimeSec s →
        jm_get [("Z", 0); ("A", 0); ("B", 60)] (StartStation.stationId s) = Some 0).
Proof.
  apply (findReachableStations_times_bounded 5
           [StartStation.mk "Z" 7; StartStation.mk "A" 0] 100
           (buildGraph (line_network "1" "2"))).
  - apply buildGraph_nonneg. intros e He.
    repeat (apply elem_of_cons in He as [->|He]; [simpl; lia|]).
    by apply elem_of_nil in He.
  - lia.
  - vm_compute. reflexivity.
Defined.

(** X4: with a negative budget, or without a start station whose remaining
    time is non-negative, the search returns the empty map, on every graph,
    as soon as the fuel covers one iteration per start station. *)
Theorem findReachableStations_nothing (fuel : nat)
    (startStations : list StartStation.t) (maxTimeSec : Z) (graph : Graph) :
  maxTimeSec < 0 ∨
  (∀ s, s ∈ startStations → StartStation.remainingTimeSec s < 0) →
  (length startStations ≤ fuel)%nat →
  findReachableStations fuel startStations maxTimeSec graph = Some [].
Proof.
  intros Hcase Hfuel.
  assert (∀ v d, ¬ (Reach graph startStations maxTimeSec v d ∧ d ≤ maxTimeSec))
    as Hnone.
  { intros v d [Hreach Hd]. destruct Hcase as [Hneg|Hstarts].
    - assert (d = 0); [|lia].
      clear Hd. induction Hreach as [|u d edges e Hu IH Hd' Hg He Hw]; [done|].
      specialize (IH). lia.
    - clear Hd. induction Hreach as [s Hs Hrem|]; [|done].
      specialize (Hstarts s Hs). lia. }
  assert (is_Some (findReachableStations fuel startStations maxTimeSec graph))
    as [r Hr].
  { unfold findReachableStations.
    pose proof (init_search_init_inv startStations) as [_ Hdist Hq _].
    pose proof (init_search_length startStations) as Hlen.
    destruct (init_search startStations) as [dist queue]. cbn [fst snd] in *.
    rewrite search_loop_over_budget; [by eexists| |by rewrite length_sort_queue; lia].
    intros c u Hin. rewrite elem_of_sort_queue in Hin.
    destruct (Hq _ _ Hin) as [-> Hget].
    destruct Hcase as [Hneg|Hstarts]; [done|].
    destruct (Hdist _ _ Hget) as (_ & _ & s & Hs & Hrem & _).
    specialize (Hstarts s Hs). lia. }
  rewrite Hr. f_equal. apply jm_no_key_nil. intros v.
  destruct (jm_get r v) as [d|] eqn:Hd; [|done].
  apply (findReachableStations_spec _ _ _ _ _ Hr) in Hd as (Hle & Hreach & _).
  by destruct (Hnone v d).
Qed.

Lemma findReachableStations_nothing_witness :
  findReachableStations 1 [StartStation.mk "A" 30] (-1)
    (buildGraph (line_network "1" "2")) = Some [] ∧
  findReachableStations 1 [StartStation.mk "A" (-30)] 200
    (buildGraph (line_network "1" "2")) = Some [].
Proof.
  split; apply findReachableStations_nothing.
  - left. lia.
  - simpl. lia.
  - right. intros s Hs. apply list_elem_of_singleton in Hs as ->. simpl. lia.
  - simpl. lia.
Defined.

(** X5: the search reads the remaining time of a start station only for
    its sign: start lists with the same station ids and the same signs give
    the same result, the budget being [maxTimeSec] alone. *)
Theorem findReachableStations_remaining_sign (fuel : nat)
    (starts1 starts2 : list StartStation.t) (maxTimeSec : Z) (graph : Graph) :
  Forall2 (λ a b, StartStation.stationId a = StartStation.stationId b ∧
                  (0 ≤ StartStation.remainingTimeSec a ↔
                   0 ≤ StartStation.remainingTimeSec b))
          starts1 starts2 →
  findReachableStations fuel starts1 maxTimeSec graph
    = findReachableStations fuel starts2 maxTimeSec graph.
Proof.
  intros Hall. unfold findReachableStations.
  by rewrite (init_search_same_sign _ _ Hall).
Qed.

Lemma findReachableStations_remaining_sign_witness :
  findReachableStations 3 [StartStation.mk "A" 5] 200
    (buildGraph (line_network "1" "2"))
  = findReachableStations 3 [StartStation.mk "A" 5000] 200
      (buildGraph (line_network "1" "2")).
Proof.
  apply findReachableStations_remaining_sign.
  constructor; [|constructor]. simpl. split; [done | lia].
Defined.

(** X6: the graph holds nothing but the network.  An id that is not a
    station id has no entry, an edge leaving an unknown station is dropped,
    and every edge stored under an id is an edge of the network that leaves
    that station. *)
Theorem buildGraph_only_network (network : ProcessedNetwork.t) :
  (∀ k, k ∉ Station.id <$> ProcessedNetwork.stations network →
        buildGraph network !! k = None) ∧
  (∀ k edges e, buildGraph network !! k = Some edges → e ∈ edges →
        e ∈ ProcessedNetwork.edges network ∧ Edge.fromId e = k ∧
        k ∈ Station.id <$> ProcessedNetwork.stations network).
Proof.
  split.
  - intros k Hk. rewrite buildGraph_lookup. by rewrite decide_False.
  - intros k edges e Hg He. rewrite buildGraph_lookup in Hg.
    case_decide as Hk; [|done]. injection Hg as <-.
    apply list_elem_of_filter in He as [Hfrom He]. done.
Qed.

(** ** Walking distances and isochrone synthesis *)

Lemma Reach_starts_mono graph starts1 starts2 maxTimeSec v d :
  (∀ s, s ∈ starts1 → 0 ≤ StartStation.remainingTimeSec s →
        ∃ s', s' ∈ starts2 ∧ StartStation.stationId s' = StartStation.stationId s ∧
              0 ≤ StartStation.remainingTimeSec s') →
  Reach graph starts1 maxTimeSec v d → Reach graph starts2 maxTimeSec v d.
Proof.
  intros Hstarts Hreach.
  induction Hreach as [s Hs Hrem|u d edges e Hu IH Hd Hg He Hw].
  - destruct (Hstarts s Hs Hrem) as (s' & Hs' & <- & Hrem'). by apply Reach_start.
  - by eapply Reach_step.
Qed.

(** Every search behind a merged map has returned. *)
Lemma merge_reachable_searches fuel nearbyStations maxT graph merged n :
  merge_reachable fuel nearbyStations maxT graph = Some merged →
  n ∈ nearbyStations → NearbyStation.walkingTimeSec n ≤ maxT →
  is_Some (findReachableStations fuel [start_of maxT n]
             (maxT - NearbyStation.walkingTimeSec n) graph).
Proof.
  unfold merge_reachable. intros Hrun Hn Hw. revert n Hn Hw.
  assert (is_Some (Some merged)) as Hsome by (by eexists). rewrite <- Hrun in Hsome.
  clear Hrun. revert Hsome.
  apply (foldl_invariant _
           (λ pre (acc : option (JsMap string Z)),
              is_Some acc →
              ∀ n, n ∈ pre → NearbyStation.walkingTimeSec n ≤ maxT →
                   is_Some (findReachableStations fuel [start_of maxT n]
                              (maxT - NearbyStation.walkingTimeSec n) graph))).
  - intros _ n Hn. by apply elem_of_nil in Hn.
  - intros pre m acc IH _ Hsome n Hn Hw.
    destruct acc as [reachableStationsMap|]; [|by destruct Hsome]. simpl in Hsome.
    apply elem_of_app in Hn as [Hn|Hn]; [apply IH; [by eexists | done..]|].
    apply list_elem_of_singleton in Hn as ->.
    destruct (Z.leb_spec (NearbyStation.walkingTimeSec m) maxT); [|lia].
    destruct (findReachableStations fuel _ _ graph); [by eexists | by destruct Hsome].
Qed.

(** The rounding to a grid keeps the order. *)
Lemma to_grid_mono bits x y :
  (x <= y)%Q → (Rounded.to_grid bits x <= Rounded.to_grid bits y)%Q.
Proof.
  intros Hle. unfold Rounded.to_grid, Qdiv.
  assert (0 <= inject_Z (2 ^ bits))%Q as Hscale.
  { rewrite <- (Zle_Qle 0). apply Z.pow_nonneg. lia. }
  apply Qmult_le_compat_r; [|by apply Qinv_le_0_compat].
  rewrite <- Zle_Qle. apply Qfloor_resp_le.
  apply Qplus_le_compat; [|apply Qle_refl].
  by apply Qmult_le_compat_r.
Qed.

Section IsochroneExtras.
Context (turf_distance : Q * Q → Q * Q → Q).
Context {Polygon : Type}.
Context (turf_buffer : Q * Q → Q → Polygon).
Context (turf_union : list Polygon → option Polygon).

Local Abbreviation nearest office network mwd :=
  (findNearestStations turf_distance (GeocodeResult.latitude office)
     (GeocodeResult.longitude office) (ProcessedNetwork.stations network) mwd).
Local Abbreviation isochrone := (createIsochrone turf_distance turf_buffer turf_union).

(** X7: the nearby stations are exactly the stations within the maximum
    walking distance, each with its distance and the walking time of that
    distance, sorted by distance in ascending order; a station farther away
    never appears. *)
Theorem findNearestStations_within_range (officeLat officeLon : Q)
    (stations : list Station.t) (maxWalkDistanceMiles : Q) :
  (∀ n, n ∈ findNearestStations turf_distance officeLat officeLon stations
              maxWalkDistanceMiles ↔
        ∃ station, station ∈ stations ∧
          let distance := calculateDistance turf_distance officeLat officeLon
                            (Station.lat station) (Station.lon station) in
          (distance <= maxWalkDistanceMiles)%Q ∧
          n = NearbyStation.mk station distance
                (calculateWalkingTime distance WALKING_SPEED_MPH)) ∧
  StronglySorted (λ a b, (NearbyStation.distanceMiles a
                          <= NearbyStation.distanceMiles b)%Q)
    (findNearestStations turf_distance officeLat officeLon stations
       maxWalkDistanceMiles).
Proof.
  unfold findNearestStations. split.
  - intros n. rewrite stable_sort_perm. revert n.
    apply (foldl_invariant _
             (λ pre (results : list NearbyStation.t), ∀ n, n ∈ results ↔
                ∃ station, station ∈ pre ∧
                  let distance := calculateDistance turf_distance officeLat officeLon
                                    (Station.lat station) (Station.lon station) in
                  (distance <= maxWalkDistanceMiles)%Q ∧
                  n = NearbyStation.mk station distance
                        (calculateWalkingTime distance WALKING_SPEED_MPH))).
    + intros n. split; [by intros ?%elem_of_nil|].
      intros (station & Hin & _). by apply elem_of_nil in Hin.
    + intros pre station results IH _ n. cbv zeta.
      destruct (Qle_bool _ maxWalkDistanceMiles) eqn:Hle.
      * apply Qle_bool_iff in Hle. rewrite elem_of_app, list_elem_of_singleton, IH.
        split.
        -- intros [(st & Hst & Hd & ->) | ->].
           ++ exists st. split; [apply elem_of_app; by left | done].
           ++ exists station. split; [|done]. apply elem_of_app. right.
              by apply list_elem_of_singleton.
        -- intros (st & Hst & Hd & ->). apply elem_of_app in Hst as [Hst|Hst].
           ++ left. by exists st.
           ++ apply list_elem_of_singleton in Hst as ->. by right.
      * rewrite IH. split.
        -- intros (st & Hst & Hd & ->). exists st.
           split; [apply elem_of_app; by left | done].
        -- intros (st & Hst & Hd & ->). apply elem_of_app in Hst as [Hst|Hst].
           ++ by exists st.
           ++ apply list_elem_of_singleton in Hst as ->. cbv zeta in Hd.
              apply Qle_bool_iff in Hd. congruence.
  - apply (StronglySorted_impl
             (λ a b, Qle_bool (NearbyStation.distanceMiles a)
                              (NearbyStation.distanceMiles b) = true)).
    + intros a b. apply Qle_bool_iff.
    + apply stable_sort_sorted.
      * intros x y. rewrite !Qle_bool_iff.
        destruct (Qlt_le_dec (NearbyStation.distanceMiles y)
                             (NearbyStation.distanceMiles x));
          [right; by apply Qlt_le_weak | by left].
      * intros x y z. rewrite !Qle_bool_iff. apply Qle_trans.
Qed.

(** X9: a returned isochrone is well formed.  Its count is the number of
    its reachable stations, no station is listed twice, every total time is
    within the budget, and its polygon is the union of the buffers of its
    stations. *)
Theorem createIsochrone_well_formed (fuel : nat) (office : GeocodeResult.t)
    (network : ProcessedNetwork.t) (maxTravelTimeSec : Z) (wd mwd : Q)
    (iso : IsochroneResult) :
  isochrone fuel office network maxTravelTimeSec wd mwd = Some (Some iso) →
  totalStations iso = length (reachableStations iso) ∧
  NoDup (ReachableStation.stationId <$> reachableStations iso) ∧
  (∀ r, r ∈ reachableStations iso → ReachableStation.travelTimeSec r ≤ maxTravelTimeSec) ∧
  unionBuffers turf_union (stationBuffers turf_buffer network wd (reachableStations iso))
    = Some (polygon iso).
Proof.
  intros Hiso.
  assert (unionBuffers turf_union
            (stationBuffers turf_buffer network wd (reachableStations iso))
          = Some (polygon iso)) as Hpoly.
  { revert Hiso. unfold createIsochrone.
    destruct (length _ =? 0)%nat; [done|].
    destruct (length _ =? 0)%nat; [done|].
    destruct (merge_reachable _ _ _ _) as [merged'|]; [|done]. simpl.
    destruct (length _ =? 0)%nat; [done|].
    destruct (unionBuffers _ _) as [poly|] eqn:Hunion; [|done].
    by intros [= <-]. }
  pose proof (createIsochrone_result _ _ _ _ _ _ _ _ _ _ Hiso)
    as (merged & Hmerge & Hreach & Htotal).
  apply merge_reachable_inv in Hmerge as [Hnd Hsound _].
  split; [|split; [|split; [|done]]]; rewrite Hreach.
  - by rewrite length_fmap.
  - rewrite <- list_fmap_compose.
    replace (fmap _ merged) with (jm_keys merged); [done|].
    unfold jm_keys. apply list_fmap_ext. by intros _ [k v] _.
  - intros r Hr. apply list_elem_of_fmap in Hr as ([v T] & -> & Hin). simpl.
    apply jm_elem_get in Hin; [|done].
    destruct (Hsound _ _ Hin) as (n & r & s & _ & _ & Hr & Hs & ->).
    apply (findReachableStations_spec _ _ _ _ _ Hr) in Hs as (Hle & _). lia.
Qed.

(** X10: on a network with non-negative travel times, every nearby station
    whose walking time is within the budget is itself in a returned
    isochrone, with a total time of at most its walking time. *)
Theorem createIsochrone_nearby_reachable (fuel : nat) (office : GeocodeResult.t)
    (network : ProcessedNetwork.t) (maxTravelTimeSec : Z) (wd mwd : Q)
    (iso : IsochroneResult) (n : NearbyStation.t) :
  network_nonneg network →
  isochrone fuel office network maxTravelTimeSec wd mwd = Some (Some iso) →
  n ∈ nearest office network mwd →
  NearbyStation.walkingTimeSec n ≤ maxTravelTimeSec →
  ∃ T, ReachableStation.mk (Station.id (NearbyStation.station n)) T
         ∈ reachableStations iso ∧
       T ≤ NearbyStation.walkingTimeSec n.
Proof.
  intros Hnonneg Hiso Hn Hw.
  apply createIsochrone_result in Hiso as (merged & Hmerge & Heq & _). rewrite Heq.
  destruct (merge_reachable_searches _ _ _ _ _ n Hmerge Hn Hw) as [r Hr].
  apply merge_reachable_inv in Hmerge as [_ _ Hleast].
  destruct (Hleast (Station.id (NearbyStation.station n))
              (NearbyStation.walkingTimeSec n + 0)) as (T & HT & Hle).
  { exists n, r, 0. split; [done|]. split; [done|]. split; [done|]. split; [|done].
    apply (findReachableStations_start fuel (start_of maxTravelTimeSec n)
             (maxTravelTimeSec - NearbyStation.walkingTimeSec n)
             (buildGraph network) r); [by apply buildGraph_nonneg | simpl; lia | lia | done]. }
  exists T. split; [|lia].
  apply list_elem_of_fmap. exists (Station.id (NearbyStation.station n), T).
  split; [done|]. by apply jm_get_Some_elem.
Qed.

(** X11: isochrones nest.  When the isochrones of two budgets are returned
    for the same office and network, every station of the smaller budget is
    a station of the larger one, with a total time that is no longer. *)
Theorem createIsochrone_budget_monotone (fuel : nat) (office : GeocodeResult.t)
    (network : ProcessedNetwork.t) (t1 t2 : Z) (wd mwd : Q)
    (iso1 iso2 : IsochroneResult) :
  t1 ≤ t2 →
  isochrone fuel office network t1 wd mwd = Some (Some iso1) →
  isochrone fuel office network t2 wd mwd = Some (Some iso2) →
  ∀ r1, r1 ∈ reachableStations iso1 →
    ∃ r2, r2 ∈ reachableStations iso2 ∧
          ReachableStation.stationId r2 = ReachableStation.stationId r1 ∧
          ReachableStation.travelTimeSec r2 ≤ ReachableStation.travelTimeSec r1.
Proof.
  intros Hle Hiso1 Hiso2 r1 Hr1.
  apply createIsochrone_result in Hiso1 as (merged1 & Hmerge1 & Heq1 & _).
  apply createIsochrone_result in Hiso2 as (merged2 & Hmerge2 & Heq2 & _).
  rewrite Heq1 in Hr1. rewrite Heq2.
  apply list_elem_of_fmap in Hr1 as ([v T1] & -> & Hin1). simpl.
  pose proof (merge_reachable_inv _ _ _ _ _ Hmerge1) as [Hnd1 Hsound1 _].
  pose proof (merge_reachable_inv _ _ _ _ _ Hmerge2) as [_ _ Hleast2].
  apply jm_elem_get in Hin1; [|done].
  destruct (Hsound1 _ _ Hin1) as (n & ra & s & Hn & Hw & Hra & Hs & ->).
  destruct (merge_reachable_searches _ _ _ _ _ n Hmerge2 Hn ltac:(lia)) as [rb Hrb].
  apply (findReachableStations_spec _ _ _ _ _ Hra) in Hs as (Hs & Hreach & _).
  apply (Reach_budget_mono _ _ _ (t2 - NearbyStation.walkingTimeSec n)) in Hreach;
    [|lia].
  apply (Reach_starts_mono _ _ [start_of t2 n]) in Hreach.
  2:{ intros s0 Hs0 _. apply list_elem_of_singleton in Hs0 as ->.
      exists (start_of t2 n). split; [by apply list_elem_of_singleton|].
      split; [done|]. simpl. lia. }
  destruct (findReachableStations_complete _ _ _ _ _ v s Hrb Hreach ltac:(lia))
    as (s2 & Hs2 & Hle2).
  destruct (Hleast2 v (NearbyStation.walkingTimeSec n + s2)) as (T2 & HT2 & HleT).
  { exists n, rb, s2. split; [done|]. split; [lia|]. done. }
  exists (ReachableStation.mk v T2). split; [|simpl; split; [done | lia]].
  apply list_elem_of_fmap. exists (v, T2). split; [done|]. by apply jm_get_Some_elem.
Qed.
End IsochroneExtras.

(** X8: with the arithmetic of the code, where the division and the
    multiplication round their exact results by a rounding that keeps the
    order and does not send 0 below 0 (as the rounding to the nearest
    double does), and for a positive walking speed, the walking time grows
    with the distance and is not negative for a distance that is not
    negative; without rounding it is the walking time of the exact
    arithmetic. *)
Theorem calculateWalkingTime_rounds (fl : Q → Q) (distanceMiles walkSpeedMph : Q) :
  (∀ x y, (x <= y)%Q → (fl x <= fl y)%Q) →
  (0 <= fl 0)%Q →
  (0 < walkSpeedMph)%Q →
  (∀ farther, (distanceMiles <= farther)%Q →
     Rounded.calculateWalkingTime fl distanceMiles walkSpeedMph
       ≤ Rounded.calculateWalkingTime fl farther walkSpeedMph) ∧
  ((0 <= distanceMiles)%Q →
   0 ≤ Rounded.calculateWalkingTime fl distanceMiles walkSpeedMph) ∧
  Rounded.calculateWalkingTime (λ x, x) distanceMiles walkSpeedMph
    = calculateWalkingTime distanceMiles walkSpeedMph.
Proof.
  intros Hmono Hzero Hspeed. split; [|split; [|done]].
  - intros farther Hle. unfold Rounded.calculateWalkingTime, Math_round.
    apply Qfloor_resp_le. apply Qplus_le_compat; [|apply Qle_refl].
    apply Hmono. apply Qmult_le_compat_r; [|discriminate].
    apply Hmono. unfold Qdiv. apply Qmult_le_compat_r; [done|].
    by apply Qinv_le_0_compat, Qlt_le_weak.
  - intros Hd. unfold Rounded.calculateWalkingTime, Math_round.
    change 0 with (Qfloor 0). apply Qfloor_resp_le.
    assert (0 <= fl (distanceMiles / walkSpeedMph))%Q as Hhours.
    { eapply Qle_trans; [exact Hzero|]. apply Hmono.
      apply Qmult_le_0_compat; [done|].
      by apply Qinv_le_0_compat, Qlt_le_weak. }
    assert (0 <= fl (fl (distanceMiles / walkSpeedMph) * 3600))%Q as Hsec.
    { eapply Qle_trans; [exact Hzero|]. apply Hmono.
      apply Qmult_le_0_compat; [done | discriminate]. }
    lra.
Qed.

Lemma calculateWalkingTime_rounds_witness :
  (∀ farther, ((1 # 4) <= farther)%Q →
     Rounded.calculateWalkingTime (Rounded.to_grid 20) (1 # 4) WALKING_SPEED_MPH
       ≤ Rounded.calculateWalkingTime (Rounded.to_grid 20) farther WALKING_SPEED_MPH) ∧
  ((0 <= 1 # 4)%Q →
   0 ≤ Rounded.calculateWalkingTime (Rounded.to_grid 20) (1 # 4) WALKING_SPEED_MPH) ∧
  Rounded.calculateWalkingTime (λ x, x) (1 # 4) WALKING_SPEED_MPH
    = calculateWalkingTime (1 # 4) WALKING_SPEED_MPH.
Proof.
  apply (calculateWalkingTime_rounds (Rounded.to_grid 20) (1 # 4) WALKING_SPEED_MPH).
  - apply to_grid_mono.
  - vm_compute. discriminate.
  - reflexivity.
Defined.

Lemma createIsochrone_well_formed_witness :
  totalStations example_isochrone = length (reachableStations example_isochrone) ∧
  NoDup (ReachableStation.stationId <$> reachableStations example_isochrone) ∧
  (∀ r, r ∈ reachableStations example_isochrone →
        ReachableStation.travelTimeSec r ≤ 400) ∧
  unionBuffers example_union
    (stationBuffers example_buffer example_network (1 # 2)
       (reachableStations example_isochrone))
    = Some (polygon example_isochrone).
Proof.
  apply (createIsochrone_well_formed example_distance example_buffer example_union
           3000 (example_office 0) example_network 400 (1 # 2) (1 # 2)).
  vm_compute. reflexivity.
Defined.

Lemma createIsochrone_nearby_reachable_witness :
  ∃ T, ReachableStation.mk
         (Station.id (NearbyStation.station
            (NearbyStation.mk (Station.mk "B" "Second" (1 # 4) 0 false ["1"])
               (1 # 4) 300))) T
         ∈ reachableStations example_isochrone ∧
       T ≤ NearbyStation.walkingTimeSec
             (NearbyStation.mk (Station.mk "B" "Second" (1 # 4) 0 false ["1"])
                (1 # 4) 300).
Proof.
  apply (createIsochrone_nearby_reachable example_distance example_buffer
           example_union 3000 (example_office 0) example_network 400 (1 # 2) (1 # 2)).
  - intros e He. repeat (apply elem_of_cons in He as [->|He]; [simpl; lia|]).
    by apply elem_of_nil in He.
  - vm_compute. reflexivity.
  - match goal with |- _ ∈ ?l =>
      let l' := eval vm_compute in l in change l with l' end.
    apply elem_of_cons; right. apply elem_of_cons; by left.
  - simpl. lia.
Defined.

Lemma createIsochrone_budget_monotone_witness :
  ∃ r2, r2 ∈ reachableStations example_isochrone ∧
        ReachableStation.stationId r2
          = ReachableStation.stationId (ReachableStation.mk "B" 60) ∧
        ReachableStation.travelTimeSec r2
          ≤ ReachableStation.travelTimeSec (ReachableStation.mk "B" 60).
Proof.
  apply (createIsochrone_budget_monotone example_distance example_buffer
           example_union 3000 (example_office 0) example_network 100 400
           (1 # 2) (1 # 2) example_isochrone_100).
  - lia.
  - vm_compute. reflexivity.
  - vm_compute. reflexivity.
  - apply elem_of_cons. right. apply elem_of_cons. by left.
Defined.

(** ** GTFS preprocessing *)

Lemma string_app_assoc s1 s2 s3 : (s1 +:+ s2) +:+ s3 = s1 +:+ (s2 +:+ s3).
Proof.
  induction s1 as [|c s1 IH]; [done|]. by rewrite !string_app_cons, IH.
Qed.

Lemma contains_app c s1 s2 : contains c (s1 +:+ s2) = contains c s1 || contains c s2.
Proof.
  induction s1 as [|c' s1 IH]; [done|].
  rewrite string_app_cons. cbn [contains]. rewrite IH. by rewrite orb_assoc.
Qed.

Lemma parse_fields_inside field rest result current :
  contains "034" field = false →
  parse_fields (field +:+ rest) result current true
    = parse_fields rest result (current +:+ field) true.
Proof.
  revert current. induction field as [|c field IH]; intros current Hno.
  - by rewrite string_app_nil_l, string_app_nil_r.
  - cbn [contains] in Hno. apply orb_false_iff in Hno as [Hc Hno].
    rewrite string_app_cons. cbn [parse_fields]. rewrite Hc.
    rewrite andb_false_r. rewrite IH by done.
    by rewrite string_app_assoc, string_app_cons, string_app_nil_l.
Qed.

Lemma parse_fields_quoted_field field rest result current :
  contains "034" field = false →
  parse_fields (quote_field field +:+ rest) result current false
    = parse_fields rest result (current +:+ field) false.
Proof.
  intros Hno. unfold quote_field.
  rewrite string_app_cons, string_app_assoc, string_app_cons, string_app_nil_l.
  cbn [parse_fields]. change (Ascii.eqb "034" "034") with true. cbn [negb].
  rewrite parse_fields_inside by done.
  cbn [parse_fields]. by change (Ascii.eqb "034" "034") with true.
Qed.

Lemma parse_fields_csv_line fields result :
  fields ≠ [] → (∀ field, field ∈ fields → contains "034" field = false) →
  parse_fields (csv_line fields) result EmptyString false = result ++ fields.
Proof.
  unfold csv_line. revert result.
  induction fields as [|field fields IH]; intros result Hne Hno; [done|].
  assert (contains "034" field = false) as Hfield
    by (apply Hno, elem_of_cons; by left).
  destruct fields as [|field' fields].
  - change (String.concat "," (quote_field <$> [field])) with (quote_field field).
    rewrite <- (string_app_nil_r (quote_field field)).
    by rewrite parse_fields_quoted_field.
  - rewrite fmap_cons.
    change (String.concat "," (quote_field field :: (quote_field <$> (field' :: fields))))
      with (quote_field field +:+
            String "," (String.concat "," (quote_field <$> (field' :: fields)))).
    rewrite parse_fields_quoted_field by done. rewrite string_app_nil_l.
    cbn [parse_fields]. change (Ascii.eqb "," "034") with false. cbn.
    rewrite IH; [by rewrite <- app_assoc | done |].
    intros f Hf. apply Hno, elem_of_cons. by right.
Qed.

Lemma parse_fields_no_quote line result current inQuotes field :
  (∀ f, f ∈ result → contains "034" f = false) →
  contains "034" current = false →
  field ∈ parse_fields line result current inQuotes →
  contains "034" field = false.
Proof.
  revert result current inQuotes.
  induction line as [|c line IH]; intros result current inQuotes Hres Hcur; simpl.
  - intros Hin. apply elem_of_app in Hin as [Hin|Hin]; [by apply Hres|].
    by apply list_elem_of_singleton in Hin as ->.
  - destruct (Ascii.eqb c "034") eqn:Hq; [by apply IH|].
    destruct (Ascii.eqb c "," && negb inQuotes).
    + apply IH; [|done]. intros f Hf.
      apply elem_of_app in Hf as [Hf|Hf]; [by apply Hres|].
      by apply list_elem_of_singleton in Hf as ->.
    + apply IH; [done|]. rewrite contains_app, Hcur. simpl. by rewrite Hq.
Qed.

(** X12: a line written with every field between double quotes is read
    back as these fields, commas inside the fields included, provided no
    field holds a double quote. *)
Theorem parse_fields_round_trip (fields : list string) :
  fields ≠ [] → (∀ field, field ∈ fields → contains "034" field = false) →
  parse_fields (csv_line fields) [] EmptyString false = fields.
Proof. intros Hne Hno. by rewrite parse_fields_csv_line. Qed.

Lemma parse_fields_round_trip_witness :
  parse_fields (csv_line ["101"; "Van Cortlandt Park, 242 St"; ""]) [] EmptyString false
    = ["101"; "Van Cortlandt Park, 242 St"; ""].
Proof.
  apply parse_fields_round_trip; [done|].
  intros field Hin.
  repeat (apply elem_of_cons in Hin as [->|Hin]; [reflexivity|]).
  by apply elem_of_nil in Hin.
Defined.

(** X13: the parser drops every double quote: no field of any line holds
    one, so a doubled quote inside a quoted field is not read as a quote. *)
Theorem parse_fields_drops_quotes (line : string) (field : string) :
  field ∈ parse_fields line [] EmptyString false → contains "034" field = false.
Proof.
  apply parse_fields_no_quote; [|done]. intros f Hf. by apply elem_of_nil in Hf.
Qed.

Lemma parse_fields_drops_quotes_witness :
  contains "034" "say hi" = false.
Proof.
  apply (parse_fields_drops_quotes
           (String "034" ("say " +:+ String "034" (String "034" ("hi" +:+ String "034" ""))))).
  vm_compute. apply elem_of_cons. by left.
Defined.

(** *** Read errors *)

(** X14: the script throws a read error exactly for the first missing one
    of its four files, in the order stops, stop_times, trips, routes; with
    the four files present no read error arises, whatever they hold. *)
Theorem preprocessGTFS_read_error_iff (fs : string → option string) (path : string) :
  preprocessGTFS fs = Threw (ENOENT path) ↔
  ∃ before after, required_files = before ++ path :: after ∧ fs path = None ∧
                  ∀ file, file ∈ before → is_Some (fs file).
Proof. apply preprocessGTFS_ENOENT_iff. Qed.

(** *** Headers, times and medians *)

Lemma indexOf_from_spec i header name :
  name ∈ header →
  ∃ n, indexOf_from i header name = i + Z.of_nat n ∧ header !! n = Some name ∧
       ∀ m, (m < n)%nat → header !! m ≠ Some name.
Proof.
  revert i. induction header as [|y header IH]; intros i Hin.
  - by apply elem_of_nil in Hin.
  - simpl. destruct (decide (y = name)) as [->|Hne].
    + exists 0%nat. split; [lia|]. split; [done|]. intros m Hm. lia.
    + apply elem_of_cons in Hin as [->|Hin]; [done|].
      destruct (IH (i + 1) Hin) as (n & Hidx & Hn & Hfirst).
      exists (S n). split; [lia|]. split; [done|].
      intros [|m] Hm; simpl; [congruence|]. apply Hfirst. lia.
Qed.

(** X15: a column that the header row names is found at its first
    occurrence: reading the header row, or any row, at the index returned
    gives the cell of that column. *)
Theorem indexOf_present (header : list string) (name : string) :
  name ∈ header →
  ∃ n, indexOf header name = Z.of_nat n ∧ header !! n = Some name ∧
       (∀ m, (m < n)%nat → header !! m ≠ Some name) ∧
       js_index header (indexOf header name) = Some name ∧
       ∀ row : list string, js_index row (indexOf header name) = row !! n.
Proof.
  intros Hin. destruct (indexOf_from_spec 0 header name Hin) as (n & Hidx & Hn & Hfirst).
  exists n. unfold indexOf. rewrite Hidx, Z.add_0_l.
  split; [done|]. split; [done|]. split; [done|].
  unfold js_index. destruct (Z.ltb_spec (Z.of_nat n) 0) as [?|_]; [lia|].
  rewrite Nat2Z.id. by split.
Qed.

Lemma indexOf_present_witness :
  ∃ n, indexOf ["trip_id"; "stop_id"; "arrival_time"] "stop_id" = Z.of_nat n ∧
       ["trip_id"; "stop_id"; "arrival_time"] !! n = Some "stop_id" ∧
       (∀ m, (m < n)%nat → ["trip_id"; "stop_id"; "arrival_time"] !! m ≠ Some "stop_id") ∧
       js_index ["trip_id"; "stop_id"; "arrival_time"]
         (indexOf ["trip_id"; "stop_id"; "arrival_time"] "stop_id") = Some "stop_id" ∧
       ∀ row : list string,
         js_index row (indexOf ["trip_id"; "stop_id"; "arrival_time"] "stop_id") = row !! n.
Proof.
  apply indexOf_present. apply elem_of_cons; right. apply elem_of_cons; by left.
Defined.

(** X16: a time of three parts without a colon, each one read by [Number]
    as an integer, is hours * 3600 + minutes * 60 + seconds, as long as this
    total is an integer that a double holds exactly (at most 2^53); the
    minutes and the seconds need not be below 60, nor the hours below 24.
    Parts after the third are ignored. *)
Theorem timeToSeconds_parts (h m s : string) (hours minutes seconds : Z) :
  contains ":" h = false → contains ":" m = false → contains ":" s = false →
  js_Number h = Some hours → js_Number m = Some minutes → js_Number s = Some seconds →
  hours * 3600 + minutes * 60 + seconds ≤ MAX_EXACT_INTEGER →
  timeToSeconds (Some (h +:+ ":" +:+ m +:+ ":" +:+ s))
    = Returned (hours * 3600 + minutes * 60 + seconds) ∧
  (∀ rest, timeToSeconds (Some (h +:+ ":" +:+ m +:+ ":" +:+ s +:+ ":" +:+ rest))
           = Returned (hours * 3600 + minutes * 60 + seconds)).
Proof.
  intros Hh Hm Hs Hhours Hminutes Hseconds Hexact.
  apply Z.leb_le in Hexact. unfold timeToSeconds, split_on. split.
  - change (":" +:+ m +:+ ":" +:+ s) with (String ":" (m +:+ String ":" s)).
    rewrite !split_go_part by done. rewrite split_go_last by done.
    rewrite !string_app_nil_l. simpl. rewrite Hhours, Hminutes, Hseconds.
    cbv zeta. by rewrite Hexact.
  - intros rest.
    change (":" +:+ m +:+ ":" +:+ s +:+ ":" +:+ rest)
      with (String ":" (m +:+ String ":" (s +:+ String ":" rest))).
    rewrite !split_go_part by done. rewrite !string_app_nil_l.
    rewrite !fmap_cons. simpl. rewrite Hhours, Hminutes, Hseconds.
    cbv zeta. by rewrite Hexact.
Qed.

Lemma timeToSeconds_parts_witness :
  timeToSeconds (Some ("25" +:+ ":" +:+ "75" +:+ ":" +:+ "5"))
    = Returned (25 * 3600 + 75 * 60 + 5) ∧
  (∀ rest, timeToSeconds (Some ("25" +:+ ":" +:+ "75" +:+ ":" +:+ "5" +:+ ":" +:+ rest))
           = Returned (25 * 3600 + 75 * 60 + 5)).
Proof. apply timeToSeconds_parts; try reflexivity. vm_compute. discriminate. Defined.

Lemma sort_Z_perm_eq (l1 l2 : list Z) :
  l1 ≡ₚ l2 → stable_sort Z.leb l1 = stable_sort Z.leb l2.
Proof.
  intros Hperm. apply (StronglySorted_unique Z.le).
  - apply sort_Z_sorted.
  - apply sort_Z_sorted.
  - by rewrite !stable_sort_perm.
Qed.

(** X17: the median does not depend on the order of the observations. *)
Theorem median_permutation (numbers1 numbers2 : list Z) :
  numbers1 ≡ₚ numbers2 → median numbers1 = median numbers2.
Proof. intros Hperm. unfold median. by rewrite (sort_Z_perm_eq _ _ Hperm). Qed.

Lemma median_permutation_witness :
  median [300; 100; 200; 100] = median [100; 100; 200; 300].
Proof.
  apply median_permutation.
  change [300; 100; 200; 100] with ([300] ++ [100; 200; 100]).
  rewrite Permutation_app_comm. simpl. do 1 apply perm_skip.
  apply Permutation_swap.
Defined.

(** X18: the median of a collection that is not empty is a number, and
    lies between any lower and upper bound of the collection; the median of
    the empty collection is [NaN]. *)
Theorem median_between (numbers : list Z) (lo hi : Z) :
  numbers ≠ [] → (∀ x, x ∈ numbers → lo ≤ x ≤ hi) →
  (∃ m, median numbers = Some m ∧ (inject_Z lo <= m)%Q ∧ (m <= inject_Z hi)%Q) ∧
  median [] = None.
Proof.
  intros Hne Hall. split; [|done].
  destruct (median_nonempty numbers Hne) as [m Hm]. exists m. split; [done|].
  apply (statistical_median_bounds numbers); [by apply Forall_forall|].
  by apply median_statistical.
Qed.

Lemma median_between_witness :
  (∃ m, median [120; 90; 100; 95] = Some m ∧
        (inject_Z 90 <= m)%Q ∧ (m <= inject_Z 120)%Q) ∧
  median [] = None.
Proof.
  apply median_between; [done|]. intros x Hx.
  repeat (apply elem_of_cons in Hx as [->|Hx]; [lia|]). by apply elem_of_nil in Hx.
Defined.

(** *** The stations of the network *)

Lemma string_leb_trans s1 s2 s3 :
  String.leb s1 s2 = true → String.leb s2 s3 = true → String.leb s1 s3 = true.
Proof.
  assert (∀ s t, String.leb s t = true ↔ String.compare s t ≠ Gt) as Hleb.
  { intros s t. unfold String.leb. by destruct (String.compare s t). }
  rewrite !Hleb. revert s2 s3.
  induction s1 as [|a s1 IH]; intros [|b s2] [|c s3]; simpl; try done.
  unfold Ascii.compare.
  destruct (N.compare_spec (N_of_ascii a) (N_of_ascii b)) as [Hab|Hab|Hab]; [| |done];
    destruct (N.compare_spec (N_of_ascii b) (N_of_ascii c)) as [Hbc|Hbc|Hbc]; try done;
    destruct (N.compare_spec (N_of_ascii a) (N_of_ascii c)) as [Hac|Hac|Hac];
    try done; try lia.
  apply IH.
Qed.

Lemma elem_of_set_add s x y : y ∈ set_add s x ↔ y = x ∨ y ∈ s.
Proof.
  unfold set_add. case_decide as Hin.
  - split; [by right|]. by intros [->|?].
  - rewrite elem_of_app, list_elem_of_singleton. tauto.
Qed.

Lemma set_add_NoDup s x : NoDup s → NoDup (set_add s x).
Proof.
  intros Hnd. unfold set_add. case_decide as Hin; [done|].
  apply NoDup_app. split; [done|]. split; [|apply NoDup_singleton].
  intros y Hy Hyx. apply list_elem_of_singleton in Hyx as ->. done.
Qed.

Lemma readStations_inv stopsHeader rows stationsMap stopToParent :
  readStations stopsHeader rows = Returned (stationsMap, stopToParent) →
  stations_inv stationsMap.
Proof.
  unfold readStations. intros Hrun.
  apply (foldlM_invariant _ (λ acc, stations_inv acc.1) _ _ _) in Hrun; [done| |].
  - split; [apply NoDup_nil_2|]. intros k st Hin. by apply elem_of_nil in Hin.
  - clear. intros [sm sp] row [sm' sp'] Hinv _ Hstep. cbv zeta in Hstep. simpl in *.
    case_decide as Hloc.
    + apply bind_Returned in Hstep as (id & _ & Hstep).
      apply bind_Returned in Hstep as (name & _ & Hstep).
      apply bind_Returned in Hstep as (lat & _ & Hstep).
      apply bind_Returned in Hstep as (lon & _ & [= <- <-]).
      destruct Hinv as [Hnd Hfields]. split; [by apply jm_set_NoDup|].
      intros k st Hin. apply jm_set_elem in Hin as [[-> ->]|Hin]; [done|].
      by apply Hfields.
    + destruct (js_index row (indexOf stopsHeader "parent_station")) as [parent|];
        [|by injection Hstep as <- <-].
      destruct (truthy (Some parent)); by injection Hstep as <- <-.
Qed.

Lemma collectRoutes_NoDup stopTimesHeader rows stopToParent tripToRoute
    routeIdToShortName parentId routesSet :
  collectRoutes stopTimesHeader rows stopToParent tripToRoute routeIdToShortName
    !! parentId = Some routesSet →
  NoDup routesSet.
Proof.
  unfold collectRoutes. revert parentId routesSet.
  apply (foldl_invariant _ (λ _ m, ∀ k s, m !! k = Some s → NoDup s)).
  - intros k s Hk. by rewrite lookup_empty in Hk.
  - intros _ row m Hinv _ k s. cbv zeta.
    destruct (truthy (cell_get tripToRoute _)); [|apply Hinv].
    destruct (cell_get routeIdToShortName _) as [name|]; [|apply Hinv].
    destruct (truthy (Some name)); [|apply Hinv].
    intros Hk. apply lookup_insert_Some in Hk as [[_ <-]|[_ Hk]]; [|by eapply Hinv].
    apply set_add_NoDup. destruct (m !! _) as [s0|] eqn:Hs0; simpl.
    + by eapply Hinv.
    + apply NoDup_nil_2.
Qed.

Lemma attachRoutes_elem stationsMap stopToRoutes station :
  station ∈ (attachRoutes stationsMap stopToRoutes).*2 →
  ∃ stationId station0, (stationId, station0) ∈ stationsMap ∧
    Station.id station = Station.id station0 ∧
    Station.name station = Station.name station0 ∧
    Station.lat station = Station.lat station0 ∧
    Station.lon station = Station.lon station0 ∧
    Station.accessible station = Station.accessible station0 ∧
    Station.routesServed station
      = match stopToRoutes !! Some stationId with
        | Some routesSet => stable_sort String.leb routesSet
        | None => Station.routesServed station0
        end.
Proof.
  unfold attachRoutes. intros Hin.
  apply list_elem_of_fmap in Hin as ([k st] & -> & Hin).
  apply list_elem_of_fmap in Hin as ([k0 st0] & Heq & Hin).
  exists k0, st0. split; [done|].
  destruct (stopToRoutes !! Some k0) as [s|]; injection Heq as -> ->; done.
Qed.

Lemma attachRoutes_ids stationsMap stopToRoutes :
  stations_inv stationsMap →
  Station.id <$> (attachRoutes stationsMap stopToRoutes).*2 = jm_keys stationsMap.
Proof.
  intros [_ Hfields]. unfold attachRoutes, jm_keys.
  induction stationsMap as [|[k st] sm IH]; [done|].
  rewrite !fmap_cons. f_equal.
  - destruct (Hfields k st) as (Hid & _); [apply elem_of_cons; by left|].
    by destruct (stopToRoutes !! Some k).
  - apply IH. intros k' st' Hin. apply Hfields. apply elem_of_cons. by right.
Qed.

Lemma preprocessGTFS_stations_passes fs network :
  preprocessGTFS fs = Returned network →
  ∃ stationsMap stopToRoutes,
    stations_inv stationsMap ∧
    (∀ parentId routesSet, stopToRoutes !! parentId = Some routesSet → NoDup routesSet) ∧
    ProcessedNetwork.stations network = (attachRoutes stationsMap stopToRoutes).*2.
Proof.
  unfold preprocessGTFS. intros Hrun.
  apply bind_Returned in Hrun as (stops & _ & Hrun).
  apply bind_Returned in Hrun as (stopTimes & _ & Hrun).
  apply bind_Returned in Hrun as (trips & _ & Hrun).
  apply bind_Returned in Hrun as (routes & _ & Hrun).
  destruct stops as [|stopsHeader stopRows]; [done|].
  destruct stopTimes as [|stopTimesHeader stopTimeRows]; [done|].
  destruct trips as [|tripsHeader tripRows]; [done|].
  destruct routes as [|routesHeader routeRows]; [done|].
  apply bind_Returned in Hrun as ([stationsMap stopToParent] & Hread & Hrun).
  apply bind_Returned in Hrun as (tripStopTimes & _ & Hrun).
  apply bind_Returned in Hrun as (edgeTravelTimes & _ & Hrun).
  apply bind_Returned in Hrun as (edges & _ & [= <-]).
  eexists stationsMap, _. split; [by eapply readStations_inv|].
  split; [|done]. intros parentId routesSet. apply collectRoutes_NoDup.
Qed.

(** X19: in a network that the preprocessing returns, the stations have
    pairwise distinct ids, none is marked accessible, and the routes served
    by a station are listed in ascending order without repetition. *)
Theorem preprocessGTFS_stations (fs : string → option string)
    (network : ProcessedNetwork.t) :
  preprocessGTFS fs = Returned network →
  NoDup (Station.id <$> ProcessedNetwork.stations network) ∧
  ∀ station, station ∈ ProcessedNetwork.stations network →
    Station.accessible station = false ∧
    StronglySorted (λ a b, String.leb a b = true) (Station.routesServed station) ∧
    NoDup (Station.routesServed station).
Proof.
  intros Hrun.
  apply preprocessGTFS_stations_passes in Hrun as (sm & sr & Hinv & Hsets & ->).
  split.
  - rewrite attachRoutes_ids by done. apply Hinv.
  - intros station Hin.
    apply attachRoutes_elem in Hin
      as (k & st0 & Hin & _ & _ & _ & _ & Hacc & Hroutes).
    destruct (st_fields _ Hinv k st0 Hin) as (_ & Hacc0 & Hroutes0).
    split; [congruence|]. rewrite Hroutes.
    destruct (sr !! Some k) as [s|] eqn:Hs.
    + split.
      * apply stable_sort_sorted; [apply String.leb_total|apply string_leb_trans].
      * rewrite stable_sort_perm. by eapply Hsets.
    + rewrite Hroutes0. split; [constructor|apply NoDup_nil_2].
Qed.

Lemma preprocessGTFS_stations_witness :
  ∃ network, preprocessGTFS example_feed = Returned network ∧
    NoDup (Station.id <$> ProcessedNetwork.stations network) ∧
    ∀ station, station ∈ ProcessedNetwork.stations network →
      Station.accessible station = false ∧
      StronglySorted (λ a b, String.leb a b = true) (Station.routesServed station) ∧
      NoDup (Station.routesServed station).
Proof.
  eexists. split; [vm_compute; reflexivity|].
  apply (preprocessGTFS_stations example_feed). vm_compute. reflexivity.
Defined.

(** X20: the second pass records a route short name for a parent station
    exactly when some stop-time row stops at the station or at one of its
    child stops, on a trip whose route has that short name, neither the
    route id nor the short name being empty. *)
Theorem collectRoutes_routes (stopTimesHeader : list string) (rows : list (list string))
    (stopToParent : gmap (option string) string)
    (tripToRoute routeIdToShortName : gmap (option string) (option string))
    (parentId : option string) (routeShortName : string) :
  routeShortName ∈ default [] (collectRoutes stopTimesHeader rows stopToParent
                                 tripToRoute routeIdToShortName !! parentId) ↔
  ∃ row, row ∈ rows ∧
    parentOf stopToParent (js_index row (indexOf stopTimesHeader "stop_id")) = parentId ∧
    truthy (cell_get tripToRoute (js_index row (indexOf stopTimesHeader "trip_id")))
      = true ∧
    cell_get routeIdToShortName
      (cell_get tripToRoute (js_index row (indexOf stopTimesHeader "trip_id")))
      = Some routeShortName ∧
    truthy (Some routeShortName) = true.
Proof.
  unfold collectRoutes. revert parentId routeShortName.
  apply (foldl_invariant _ (λ pre m, ∀ k r, r ∈ default [] (m !! k) ↔
    ∃ row, row ∈ pre ∧
      parentOf stopToParent (js_index row (indexOf stopTimesHeader "stop_id")) = k ∧
      truthy (cell_get tripToRoute (js_index row (indexOf stopTimesHeader "trip_id")))
        = true ∧
      cell_get routeIdToShortName
        (cell_get tripToRoute (js_index row (indexOf stopTimesHeader "trip_id")))
        = Some r ∧
      truthy (Some r) = true)).
  - intros k r. rewrite lookup_empty. simpl. split.
    + intros Hin. by apply elem_of_nil in Hin.
    + intros (row & Hin & _). by apply elem_of_nil in Hin.
  - intros pre row m Hinv _ k r. cbv zeta.
    set (parentId := parentOf stopToParent _).
    set (routeId := cell_get tripToRoute _).
    assert (∀ acc : gmap (option string) (list string),
              (∀ k r, r ∈ default [] (acc !! k) ↔ r ∈ default [] (m !! k) ∨
                 (parentId = k ∧ truthy routeId = true ∧
                  cell_get routeIdToShortName routeId = Some r ∧
                  truthy (Some r) = true)) →
              ∀ k r, r ∈ default [] (acc !! k) ↔
                ∃ row0, row0 ∈ pre ++ [row] ∧
                  parentOf stopToParent
                    (js_index row0 (indexOf stopTimesHeader "stop_id")) = k ∧
                  truthy (cell_get tripToRoute
                    (js_index row0 (indexOf stopTimesHeader "trip_id"))) = true ∧
                  cell_get routeIdToShortName
                    (cell_get tripToRoute
                       (js_index row0 (indexOf stopTimesHeader "trip_id"))) = Some r ∧
                  truthy (Some r) = true) as Hgen.
    { intros acc Hacc k0 r0. rewrite Hacc, Hinv. split.
      - intros [(row0 & Hin & H0)|H0].
        + exists row0. split; [apply elem_of_app; by left|done].
        + exists row. split; [apply elem_of_app; right; by apply list_elem_of_singleton|done].
      - intros (row0 & Hin & H0). apply elem_of_app in Hin as [Hin|Hin].
        + left. by exists row0.
        + apply list_elem_of_singleton in Hin as ->. by right. }
    apply Hgen. clear Hgen k r. intros k r.
    destruct (truthy routeId) eqn:Hroute;
      [|split; [by left|]; by intros [?|(_ & ? & _)]].
    destruct (cell_get routeIdToShortName routeId) as [name|] eqn:Hname;
      [|split; [by left|]; by intros [?|(_ & _ & ? & _)]].
    destruct (truthy (Some name)) eqn:Htruthy.
    + destruct (decide (parentId = k)) as [<-|Hne].
      * rewrite lookup_insert_eq. simpl. rewrite elem_of_set_add. split.
        -- intros [->|?]; [by right|by left].
        -- intros [?|(_ & _ & [= ->] & _)]; [by right|by left].
      * rewrite lookup_insert_ne by done.
        split; [by left|]. by intros [?|(? & _)].
    + split; [by left|]. intros [?|(_ & _ & [= ->] & ?)]; [done|congruence].
Qed.

(** *** The table read from a file *)

(** X21: a file that exists and holds ASCII text is always read as a
    table: one row per line of its trimmed content, never zero rows, and
    never a row without a cell.  The header row is therefore there even for
    an empty file. *)
Theorem parseCSV_table (fs : string → option string) (filePath content : string) :
  fs filePath = Some content →
  ascii_text content = true →
  ∃ rows, parseCSV fs filePath = Returned rows ∧
    length rows = S (count_char "010" (trim content)) ∧
    (∃ header body, rows = header :: body) ∧
    ∀ row, row ∈ rows → row ≠ [].
Proof.
  intros Hfile _. unfold parseCSV. rewrite Hfile. cbv zeta. eexists. split; [done|].
  assert (length ((λ line, parse_fields line [] EmptyString false) <$>
                    split_on "010" (trim content))
          = S (count_char "010" (trim content))) as Hlen.
  { rewrite length_fmap. apply length_split_go. }
  split; [done|]. split.
  - destruct (_ <$> _) as [|header body]; [done|]. by exists header, body.
  - intros row Hin. apply list_elem_of_fmap in Hin as (line & -> & _).
    apply parse_fields_nonempty.
Qed.

Lemma parseCSV_table_witness :
  ∃ rows, parseCSV (λ _, Some example_stops_three) "stops.txt" = Returned rows ∧
    length rows = S (count_char "010" (trim example_stops_three)) ∧
    (∃ header body, rows = header :: body) ∧
    ∀ row, row ∈ rows → row ≠ [].
Proof.
  apply (parseCSV_table (λ _, Some example_stops_three) "stops.txt" example_stops_three).
  - reflexivity.
  - vm_compute. reflexivity.
Defined.

(** ** GeoJSON conversion and grouping by route *)

Lemma Edge_eta (edge : Edge.t) :
  Edge.mk (Edge.fromId edge) (Edge.toId edge) (Edge.travelTimeSec edge)
          (Edge.routeId edge) = edge.
Proof. by destruct edge. Qed.

Lemma edgesToGeoJSON_inv (edges : list Edge.t) (stationMap : gmap string Station.t) :
  EdgeFeature.properties <$> edgesToGeoJSON edges stationMap
    = filter (λ edge, is_Some (stationMap !! Edge.fromId edge) ∧
                      is_Some (stationMap !! Edge.toId edge)) edges ∧
  ∀ feature, feature ∈ edgesToGeoJSON edges stationMap →
    ∃ fromStation toStation,
      stationMap !! Edge.fromId (EdgeFeature.properties feature) = Some fromStation ∧
      stationMap !! Edge.toId (EdgeFeature.properties feature) = Some toStation ∧
      EdgeFeature.coordinates feature
        = ((Station.lon fromStation, Station.lat fromStation),
           (Station.lon toStation, Station.lat toStation)).
Proof.
  unfold edgesToGeoJSON.
  apply (foldl_invariant _ (λ pre features,
    EdgeFeature.properties <$> features
      = filter (λ edge, is_Some (stationMap !! Edge.fromId edge) ∧
                        is_Some (stationMap !! Edge.toId edge)) pre ∧
    ∀ feature, feature ∈ features →
      ∃ fromStation toStation,
        stationMap !! Edge.fromId (EdgeFeature.properties feature) = Some fromStation ∧
        stationMap !! Edge.toId (EdgeFeature.properties feature) = Some toStation ∧
        EdgeFeature.coordinates feature
          = ((Station.lon fromStation, Station.lat fromStation),
             (Station.lon toStation, Station.lat toStation)))).
  - split; [done|]. intros feature Hin. by apply elem_of_nil in Hin.
  - intros pre edge features [Hprops Hcoords] _.
    rewrite filter_app, filter_cons, filter_nil.
    destruct (stationMap !! Edge.fromId edge) as [fromStation|] eqn:Hfrom;
      [destruct (stationMap !! Edge.toId edge) as [toStation|] eqn:Hto|].
    + rewrite decide_True by (split; by eexists). split.
      * rewrite fmap_app, Hprops. simpl. by rewrite Edge_eta.
      * intros feature Hin. apply elem_of_app in Hin as [Hin|Hin]; [by apply Hcoords|].
        apply list_elem_of_singleton in Hin as ->. simpl. by exists fromStation, toStation.
    + rewrite decide_False by (intros [_ [? ?]]; done). by rewrite app_nil_r.
    + rewrite decide_False by (intros [[? ?] _]; done). by rewrite app_nil_r.
Qed.

(** X22: the edge features are the edges whose two endpoints are in the
    station map, unchanged and in order; an edge with a missing endpoint is
    skipped, so there are never more features than edges.  A feature runs
    from [lon, lat] of its from-station to [lon, lat] of its to-station. *)
Theorem edgesToGeoJSON_features (edges : list Edge.t)
    (stationMap : gmap string Station.t) :
  EdgeFeature.properties <$> edgesToGeoJSON edges stationMap
    = filter (λ edge, is_Some (stationMap !! Edge.fromId edge) ∧
                      is_Some (stationMap !! Edge.toId edge)) edges ∧
  (length (edgesToGeoJSON edges stationMap) ≤ length edges)%nat ∧
  ∀ feature, feature ∈ edgesToGeoJSON edges stationMap →
    ∃ fromStation toStation,
      stationMap !! Edge.fromId (EdgeFeature.properties feature) = Some fromStation ∧
      stationMap !! Edge.toId (EdgeFeature.properties feature) = Some toStation ∧
      EdgeFeature.coordinates feature
        = ((Station.lon fromStation, Station.lat fromStation),
           (Station.lon toStation, Station.lat toStation)).
Proof.
  destruct (edgesToGeoJSON_inv edges stationMap) as [Hprops Hcoords].
  split; [done|]. split; [|done].
  rewrite <- (length_fmap EdgeFeature.properties), Hprops. apply length_filter.
Qed.

Lemma stationMap_lookup (stations : list Station.t) (stationId : string) :
  foldl (λ (stationMap : gmap string Station.t) station,
           <[Station.id station := station]> stationMap) ∅ stations !! stationId
    = last_station stations stationId.
Proof.
  revert stationId. unfold last_station.
  apply (foldl_invariant _ (λ pre (m : gmap string Station.t), ∀ stationId,
    m !! stationId = last (filter (λ station, Station.id station = stationId) pre))).
  - intros stationId. by rewrite lookup_empty.
  - intros pre station m Hinv _ stationId.
    rewrite filter_app, filter_cons, filter_nil.
    destruct (decide (Station.id station = stationId)) as [<-|Hne].
    + by rewrite lookup_insert_eq, last_snoc.
    + by rewrite lookup_insert_ne, app_nil_r.
Qed.

Lemma last_station_is_Some stations stationId :
  is_Some (last_station stations stationId) ↔ stationId ∈ Station.id <$> stations.
Proof.
  unfold last_station. rewrite last_is_Some. rewrite list_elem_of_fmap. split.
  - intros Hne.
    destruct (filter (λ station, Station.id station = stationId) stations)
      as [|station l] eqn:Hfilter; [done|].
    assert (station ∈ filter (λ station, Station.id station = stationId) stations)
      as Hin by (rewrite Hfilter; apply elem_of_cons; by left).
    apply list_elem_of_filter in Hin as [Hid Hin]. by exists station.
  - intros (station & Hid & Hin) Hnil.
    assert (station ∈ filter (λ station, Station.id station = stationId) stations)
      as Hin' by (by apply list_elem_of_filter).
    rewrite Hnil in Hin'. by apply elem_of_nil in Hin'.
Qed.

(** X23: the conversion of a network gives one station feature per
    station, in order and at [lon, lat]; its edge features are the edges
    whose two endpoints are ids of stations of the network, in order; and
    where several stations share an id, an edge is drawn to the last of
    them. *)
Theorem networkToGeoJSON_network (network : ProcessedNetwork.t) :
  let stations := ProcessedNetwork.stations network in
  let geo := networkToGeoJSON network in
  StationFeature.id <$> NetworkGeoJSON.stations geo = Station.id <$> stations ∧
  StationFeature.coordinates <$> NetworkGeoJSON.stations geo
    = (λ station, (Station.lon station, Station.lat station)) <$> stations ∧
  EdgeFeature.properties <$> NetworkGeoJSON.edges geo
    = filter (λ edge, Edge.fromId edge ∈ Station.id <$> stations ∧
                      Edge.toId edge ∈ Station.id <$> stations)
             (ProcessedNetwork.edges network) ∧
  ∀ feature, feature ∈ NetworkGeoJSON.edges geo →
    ∃ fromStation toStation,
      last_station stations (Edge.fromId (EdgeFeature.properties feature))
        = Some fromStation ∧
      last_station stations (Edge.toId (EdgeFeature.properties feature))
        = Some toStation ∧
      EdgeFeature.coordinates feature
        = ((Station.lon fromStation, Station.lat fromStation),
           (Station.lon toStation, Station.lat toStation)).
Proof.
  intros stations geo. unfold geo, networkToGeoJSON. cbv zeta. simpl.
  fold stations. split; [|split; [|split]].
  - unfold stationsToGeoJSON. rewrite <- list_fmap_compose. done.
  - unfold stationsToGeoJSON. rewrite <- list_fmap_compose. done.
  - rewrite (proj1 (edgesToGeoJSON_inv _ _)).
    apply list_filter_iff. intros edge.
    by rewrite !stationMap_lookup, !last_station_is_Some.
  - intros feature Hin.
    destruct (proj2 (edgesToGeoJSON_inv _ _) feature Hin)
      as (fromStation & toStation & Hfrom & Hto & Hcoords).
    rewrite stationMap_lookup in Hfrom, Hto. by exists fromStation, toStation.
Qed.

Lemma jm_set_set {K V} `{EqDecision K} (m : JsMap K V) k v v' :
  jm_set (jm_set m k v) k v' = jm_set m k v'.
Proof.
  induction m as [|[k0 v0] m IH]; simpl.
  - by rewrite decide_True.
  - destruct (decide (k0 = k)) as [->|Hne]; simpl.
    + by rewrite decide_True.
    + by rewrite decide_False, IH.
Qed.

Lemma concat_jm_set_push {K V} `{EqDecision K} (m : JsMap K (list V)) k x :
  concat (jm_set m k (default [] (jm_get m k) ++ [x])).*2 ≡ₚ concat m.*2 ++ [x].
Proof.
  induction m as [|[k0 v0] m IH]; simpl.
  - done.
  - destruct (decide (k0 = k)) as [->|Hne]; simpl.
    + rewrite <- !app_assoc. apply Permutation_app_head, Permutation_app_comm.
    + rewrite IH. by rewrite app_assoc.
Qed.

Lemma edgesByRoute_step (grouped : JsMap string (list EdgeFeature.t)) routeId feature :
  (let grouped' :=
     if jm_has grouped routeId then grouped else jm_set grouped routeId [] in
   jm_set grouped' routeId (default [] (jm_get grouped' routeId) ++ [feature]))
  = jm_set grouped routeId (default [] (jm_get grouped routeId) ++ [feature]).
Proof.
  cbv zeta. unfold jm_has. destruct (jm_get grouped routeId) as [routeEdges|] eqn:Hget.
  - by rewrite Hget.
  - by rewrite jm_get_set_eq, jm_set_set.
Qed.

Lemma features_of_route_snoc routeId features feature :
  features_of_route routeId (features ++ [feature])
    = features_of_route routeId features ++
      (if decide (Edge.routeId (EdgeFeature.properties feature) = routeId)
       then [feature] else []).
Proof. unfold features_of_route. by rewrite filter_app, filter_cons, filter_nil. Qed.

(** X24: grouping the edge features by route gives one group per route
    that occurs, holding the features of that route in the order of the
    collection; no group is empty, and the groups together hold every
    feature once. *)
Theorem edgesByRoute_groups (features : list EdgeFeature.t) :
  let grouped := edgesByRoute (Some features) in
  NoDup (jm_keys grouped) ∧
  (∀ routeId, jm_get grouped routeId =
     if decide (features_of_route routeId features = []) then None
     else Some (features_of_route routeId features)) ∧
  (∀ routeId routeEdges, (routeId, routeEdges) ∈ grouped →
     routeEdges = features_of_route routeId features ∧ routeEdges ≠ []) ∧
  concat grouped.*2 ≡ₚ features.
Proof.
  cbv zeta. unfold edgesByRoute.
  assert (let grouped := foldl (λ grouped feature,
               let routeId := Edge.routeId (EdgeFeature.properties feature) in
               let grouped :=
                 if jm_has grouped routeId then grouped else jm_set grouped routeId [] in
               jm_set grouped routeId
                 (default [] (jm_get grouped routeId) ++ [feature]))
            [] features in
          NoDup (jm_keys grouped) ∧
          (∀ routeId, jm_get grouped routeId =
             if decide (features_of_route routeId features = []) then None
             else Some (features_of_route routeId features)) ∧
          concat grouped.*2 ≡ₚ features) as Hinv.
  { cbv zeta.
    pose (P := λ pre (grouped : JsMap string (list EdgeFeature.t)),
      NoDup (jm_keys grouped) ∧
      (∀ routeId, jm_get grouped routeId =
         if decide (features_of_route routeId pre = []) then None
         else Some (features_of_route routeId pre)) ∧
      concat grouped.*2 ≡ₚ pre).
    apply (foldl_invariant _ P); unfold P; clear P.
    - split; [apply NoDup_nil_2|]. by split.
    - intros pre feature grouped (Hnd & Hget & Hperm) _.
      rewrite edgesByRoute_step.
      set (route := Edge.routeId (EdgeFeature.properties feature)).
      split; [by apply jm_set_NoDup|]. split.
      + intros routeId. rewrite features_of_route_snoc. fold route.
        destruct (decide (route = routeId)) as [<-|Hne].
        * rewrite jm_get_set_eq, Hget.
          rewrite (decide_False (P := _ ++ [feature] = []))
            by (intros Hnil; by apply app_eq_nil in Hnil as [_ ?]).
          by destruct (decide (features_of_route route pre = [])) as [->|_].
        * rewrite jm_get_set_ne by done. by rewrite app_nil_r.
      + by rewrite concat_jm_set_push, Hperm. }
  cbv zeta in Hinv. destruct Hinv as (Hnd & Hget & Hperm).
  split; [done|]. split; [done|]. split; [|done].
  intros routeId routeEdges Hin. apply jm_elem_get in Hin; [|done].
  rewrite Hget in Hin. by destruct (decide _) as [|Hne]; [|injection Hin as <-].
Qed.

(** ** The isochrones of the map and their cache *)

Lemma times_from_lower fuel time rounded t :
  t ∈ times_from fuel time rounded → time ≤ t.
Proof.
  revert time. induction fuel as [|fuel IH]; intros time; simpl.
  - intros Hin. by apply elem_of_nil in Hin.
  - destruct (Z.leb_spec time rounded) as [Hle|Hgt].
    + intros Hin. apply elem_of_cons in Hin as [->|Hin]; [lia|].
      apply IH in Hin. lia.
    + intros Hin. by apply elem_of_nil in Hin.
Qed.

Lemma times_from_spec fuel time rounded t :
  rounded - time < Z.of_nat fuel →
  t ∈ times_from fuel time rounded ↔ time ≤ t ≤ rounded ∧ (t - time) mod 15 = 0.
Proof.
  revert time. induction fuel as [|fuel IH]; intros time Hfuel; simpl.
  - split; [intros Hin; by apply elem_of_nil in Hin | lia].
  - destruct (Z.leb_spec time rounded) as [Hle|Hgt].
    + rewrite elem_of_cons, IH by lia. split.
      * intros [->|[Hrange Hmod]].
        -- split; [lia|]. by rewrite Z.sub_diag.
        -- split; [lia|]. replace (t - time) with (t - (time + 15) + 1 * 15) by lia.
           by rewrite Z_mod_plus_full.
      * intros [Hrange Hmod]. destruct (decide (t = time)) as [->|Hne]; [by left|].
        right. apply Z.mod_divide in Hmod as [k Hk]; [|done].
        split; [lia|].
        replace (t - (time + 15)) with ((k - 1) * 15) by lia. apply Z_mod_mult.
    + split; [intros Hin; by apply elem_of_nil in Hin | lia].
Qed.

Lemma times_from_sorted fuel time rounded :
  StronglySorted Z.lt (times_from fuel time rounded).
Proof.
  revert time. induction fuel as [|fuel IH]; intros time; simpl; [constructor|].
  destruct (time <=? rounded); [|constructor].
  constructor; [apply IH|]. apply Forall_forall. intros t Hin.
  apply times_from_lower in Hin. lia.
Qed.

Lemma timesToCalculate_NoDup rounded : NoDup (timesToCalculate rounded).
Proof.
  unfold timesToCalculate.
  generalize (times_from_sorted (Z.to_nat rounded) 15 rounded).
  induction 1 as [|t times _ IH Hall]; constructor; [|done].
  intros Hin. rewrite Forall_forall in Hall. apply Hall in Hin. lia.
Qed.

(** X25: the times of which the map shows an isochrone are the multiples
    of 15 minutes from 15 up to the rounded travel time, in ascending
    order; there is none below 15 minutes. *)
Theorem timesToCalculate_multiples (rounded time : Z) :
  (time ∈ timesToCalculate rounded ↔ 15 ≤ time ≤ rounded ∧ time mod 15 = 0) ∧
  StronglySorted Z.lt (timesToCalculate rounded) ∧
  (rounded < 15 → timesToCalculate rounded = []).
Proof.
  unfold timesToCalculate. split; [|split].
  - rewrite times_from_spec by lia.
    assert ((time - 15) mod 15 = time mod 15) as ->; [|done].
    rewrite <- (Z_mod_plus_full (time - 15) 1 15). f_equal. lia.
  - apply times_from_sorted.
  - intros Hlt. destruct (Z.to_nat rounded) as [|fuel]; [done|]. simpl.
    destruct (Z.leb_spec 15 rounded); [lia|done].
Qed.

(** X26: the rounded travel time is the multiple of 15 minutes nearest to
    the travel time of the slider, a tie going to the later one. *)
Theorem roundedTravelTimeMinutes_nearest (travelTimeMinutes : Q) :
  roundedTravelTimeMinutes travelTimeMinutes mod 15 = 0 ∧
  (inject_Z (roundedTravelTimeMinutes travelTimeMinutes) - (15 # 2)
     <= travelTimeMinutes)%Q ∧
  (travelTimeMinutes
     < inject_Z (roundedTravelTimeMinutes travelTimeMinutes) + (15 # 2))%Q.
Proof.
  unfold roundedTravelTimeMinutes. split; [apply Z_mod_mult|].
  destruct (Math_round_nearest (travelTimeMinutes / 15)) as [Hlo Hhi].
  rewrite inject_Z_mult.
  assert (travelTimeMinutes == (travelTimeMinutes / 15) * 15)%Q as Heq by (field).
  set (m := inject_Z (Math_round (travelTimeMinutes / 15))) in *.
  set (q := (travelTimeMinutes / 15)%Q) in *.
  clearbody q m. change (inject_Z 15) with (15 # 1)%Q. split; lra.
Qed.

Lemma jm_set_new {K V} `{EqDecision K} (m : JsMap K V) k v :
  jm_get m k = None → jm_set m k v = m ++ [(k, v)].
Proof.
  induction m as [|[k0 v0] m IH]; simpl; [done|].
  destruct (decide (k0 = k)) as [->|Hne]; [done|]. intros Hget. by rewrite IH.
Qed.

Lemma jm_delete_elem {K V} `{EqDecision K} (m : JsMap K V) k entry :
  entry ∈ jm_delete m k → entry ∈ m.
Proof.
  induction m as [|[k0 v0] m IH]; simpl; [done|].
  destruct (decide (k0 = k)) as [->|Hne]; intros Hin.
  - apply elem_of_cons. by right.
  - apply elem_of_cons in Hin as [->|Hin]; apply elem_of_cons; [by left|].
    right. by apply IH.
Qed.

Section IsochroneCacheFacts.
Context {Polygon : Type}.
Context (toFixed6 : Q → string) (minutes_text : Z → string).
Context (createIsochrone_call :
           GeocodeResult.t → ProcessedNetwork.t → Z →
           call (option (IsochroneResult (Polygon := Polygon)))).

Local Abbreviation key := (cacheKey toFixed6 minutes_text).
Local Abbreviation turn := (isochrone_turn toFixed6 minutes_text createIsochrone_call).
Local Abbreviation effect :=
  (isochrone_effect toFixed6 minutes_text createIsochrone_call).
Local Abbreviation computed := (computed_polygon createIsochrone_call).

Lemma cacheKey_nonempty officeLocation timeMinutes :
  key officeLocation timeMinutes ≠ EmptyString.
Proof.
  unfold cacheKey. destruct (toFixed6 (GeocodeResult.latitude officeLocation)).
  - by rewrite string_app_nil_l.
  - by rewrite string_app_cons.
Qed.

Lemma cacheKey_inj officeLocation t1 t2 :
  (∀ t1 t2, minutes_text t1 = minutes_text t2 → t1 = t2) →
  key officeLocation t1 = key officeLocation t2 → t1 = t2.
Proof.
  intros Hinj Hkey. unfold cacheKey in Hkey. apply Hinj.
  by do 4 apply (inj (String.app _)) in Hkey.
Qed.

Lemma limit_cache_elem (cache : JsMap string (option Polygon)) entry :
  entry ∈ limit_cache cache → entry ∈ cache.
Proof.
  unfold limit_cache. destruct (100 <? length cache)%nat; [|done].
  destruct (head (jm_keys cache)) as [k|]; [|done].
  destruct (truthy (Some k)); [|done]. apply jm_delete_elem.
Qed.

Lemma limit_cache_inv (cache : JsMap string (option Polygon)) :
  NoDup (jm_keys cache) → (∀ k, k ∈ jm_keys cache → k ≠ EmptyString) →
  (length cache ≤ 101)%nat → cache_inv (limit_cache cache).
Proof.
  intros Hnd Hkeys Hlen. unfold limit_cache.
  destruct (Nat.ltb_spec 100 (length cache)) as [Hbig|Hsmall]; [|by split].
  destruct cache as [|[k v] cache]; [simpl in Hbig; lia|].
  cbn [jm_keys fmap list_fmap head fst].
  assert (truthy (Some k) = true) as ->.
  { simpl. apply bool_decide_eq_true. apply Hkeys. apply elem_of_cons. by left. }
  cbn [jm_delete]. rewrite decide_True by done.
  unfold jm_keys in *. rewrite fmap_cons in Hnd. apply NoDup_cons in Hnd as [_ Hnd].
  split; [done| |simpl in Hlen; lia].
  intros k' Hin. apply Hkeys. rewrite fmap_cons. apply elem_of_cons. by right.
Qed.

Lemma isochrone_turn_cache_inv officeLocation network newIsochrones cache timeMinutes :
  createIsochrone_call officeLocation network (timeMinutes * 60) ≠ Throws →
  cache_inv cache →
  cache_inv (turn officeLocation network (newIsochrones, cache) timeMinutes).2.
Proof.
  intros Hcall Hinv. unfold isochrone_turn.
  destruct (jm_get cache (key officeLocation timeMinutes)) as [cached|] eqn:Hget;
    [done|].
  destruct (createIsochrone_call officeLocation network (timeMinutes * 60))
    as [result|]; [|done].
  cbn [snd]. destruct Hinv as [Hnd Hkeys Hlen]. apply limit_cache_inv.
  - by apply jm_set_NoDup.
  - intros k Hin. apply jm_keys_set in Hin as [->|Hin]; [|by apply Hkeys].
    apply cacheKey_nonempty.
  - rewrite jm_set_new by done. rewrite length_app. simpl. lia.
Qed.

(** X27: while no call of [createIsochrone] throws, an effect keeps the
    cache in shape: a cache with distinct keys, none of them empty, and at
    most 100 entries, as the empty cache of the first render is, is again
    such a cache after the effect. *)
Theorem isochrone_effect_cache_bounded (officeLocation : option GeocodeResult.t)
    (network : option ProcessedNetwork.t) (rounded : Z)
    (cache : JsMap string (option Polygon)) :
  (∀ office net time, createIsochrone_call office net time ≠ Throws) →
  cache_inv cache →
  cache_inv (effect officeLocation network rounded cache).2.
Proof.
  intros Hcall Hinv. unfold isochrone_effect.
  destruct officeLocation as [office|]; [|done]. destruct network as [net|]; [|done].
  apply (foldl_invariant _ (λ _ state, cache_inv state.2)); [done|].
  intros _ timeMinutes [newIsochrones cache'] Hinv' _.
  by apply isochrone_turn_cache_inv.
Qed.

(** X28: an exception is cached as [null] without the size check: when
    the call for 15 minutes throws on a miss, an effect for a travel time
    under 30 minutes leaves the cache one entry larger, also when it was
    full. *)
Theorem isochrone_effect_throw_grows (officeLocation : GeocodeResult.t)
    (network : ProcessedNetwork.t) (rounded : Z)
    (cache : JsMap string (option Polygon)) :
  15 ≤ rounded < 30 →
  jm_get cache (key officeLocation 15) = None →
  createIsochrone_call officeLocation network (15 * 60) = Throws →
  effect (Some officeLocation) (Some network) rounded cache
    = ([(15, None)], cache ++ [(key officeLocation 15, None)]) ∧
  length (effect (Some officeLocation) (Some network) rounded cache).2
    = S (length cache).
Proof.
  intros Hrounded Hmiss Hthrows.
  assert (timesToCalculate rounded = [15]) as Htimes.
  { unfold timesToCalculate.
    destruct (Z.to_nat rounded) as [|[|fuel]] eqn:Hfuel; [lia..|]. simpl.
    destruct (Z.leb_spec 15 rounded); [|lia].
    by destruct (Z.leb_spec (15 + 15) rounded); [lia|]. }
  assert (effect (Some officeLocation) (Some network) rounded cache
          = ([(15, None)], cache ++ [(key officeLocation 15, None)])) as Heffect.
  { unfold isochrone_effect. rewrite Htimes. cbn [foldl]. unfold isochrone_turn.
    rewrite Hmiss, Hthrows. by rewrite (jm_set_new cache). }
  split; [done|]. rewrite Heffect. cbn [snd]. rewrite length_app. simpl. lia.
Qed.

(** X29: an effect with an office and a network sets one isochrone per
    time to calculate, in ascending order of time.  Provided distinct
    numbers of minutes have distinct texts, the isochrone of a time is
    either the entry the cache held for its key before the effect, whatever
    the network is now, or what the call for this time gives: its polygon,
    or [null] when it returns [null] or throws. *)
Theorem isochrone_effect_isochrones (officeLocation : GeocodeResult.t)
    (network : ProcessedNetwork.t) (rounded : Z)
    (cache : JsMap string (option Polygon)) :
  (∀ t1 t2, minutes_text t1 = minutes_text t2 → t1 = t2) →
  jm_keys (effect (Some officeLocation) (Some network) rounded cache).1
    = timesToCalculate rounded ∧
  ∀ timeMinutes isochrone,
    jm_get (effect (Some officeLocation) (Some network) rounded cache).1 timeMinutes
      = Some isochrone →
    (key officeLocation timeMinutes, isochrone) ∈ cache ∨
    isochrone = computed officeLocation network timeMinutes.
Proof.
  intros Hinj. unfold isochrone_effect.
  assert (NoDup (timesToCalculate rounded) →
    (∀ k v, (k, v) ∈ (foldl (turn officeLocation network) ([], cache)
                        (timesToCalculate rounded)).2 →
       (k, v) ∈ cache ∨
       ∃ t, k = key officeLocation t ∧ v = computed officeLocation network t) ∧
    jm_keys (foldl (turn officeLocation network) ([], cache)
               (timesToCalculate rounded)).1 = timesToCalculate rounded ∧
    (∀ timeMinutes isochrone,
       jm_get (foldl (turn officeLocation network) ([], cache)
                 (timesToCalculate rounded)).1 timeMinutes = Some isochrone →
       (key officeLocation timeMinutes, isochrone) ∈ cache ∨
       isochrone = computed officeLocation network timeMinutes)) as Hgen.
  { apply (foldl_invariant _ (λ pre state, NoDup pre →
      (∀ k v, (k, v) ∈ state.2 →
         (k, v) ∈ cache ∨
         ∃ t, k = key officeLocation t ∧ v = computed officeLocation network t) ∧
      jm_keys state.1 = pre ∧
      (∀ timeMinutes isochrone,
         jm_get state.1 timeMinutes = Some isochrone →
         (key officeLocation timeMinutes, isochrone) ∈ cache ∨
         isochrone = computed officeLocation network timeMinutes))).
    - intros _. split; [by left|]. by split.
    - intros pre t [newIsochrones cache'] Hinv _ Hnd.
      apply NoDup_app in Hnd as (Hnd & Hfresh & _).
      destruct (Hinv Hnd) as (Hcache & Hkeys & Hiso). clear Hinv.
      cbn [fst snd] in Hcache, Hkeys, Hiso.
      assert (jm_get newIsochrones t = None) as Hnew.
      { apply jm_get_None. rewrite Hkeys. intros Hin.
        apply (Hfresh t Hin). by apply list_elem_of_singleton. }
      unfold isochrone_turn, computed_polygon in *.
      destruct (jm_get cache' (key officeLocation t)) as [cached|] eqn:Hget.
      + cbn [fst snd]. split; [done|]. split.
        * rewrite jm_set_new by done. unfold jm_keys in *.
          by rewrite fmap_app, Hkeys.
        * intros timeMinutes isochrone. rewrite jm_get_set.
          destruct (decide (t = timeMinutes)) as [<-|Hne]; [|apply Hiso].
          intros [= <-]. apply jm_get_Some_elem in Hget.
          destruct (Hcache _ _ Hget) as [?|(t' & Hkey & Hv)]; [by left|].
          right. by apply (cacheKey_inj _ _ _ Hinj) in Hkey as ->.
      + destruct (createIsochrone_call officeLocation network (t * 60))
          as [result|] eqn:Hcall; cbn [fst snd].
        * split; [|split].
          -- intros k v Hin. apply limit_cache_elem in Hin.
             apply jm_set_elem in Hin as [[-> ->]|Hin]; [|by apply Hcache].
             right. exists t. by rewrite Hcall.
          -- rewrite jm_set_new by done. unfold jm_keys in *.
             by rewrite fmap_app, Hkeys.
          -- intros timeMinutes isochrone. rewrite jm_get_set.
             destruct (decide (t = timeMinutes)) as [<-|Hne]; [|apply Hiso].
             intros [= <-]. right. by rewrite Hcall.
        * split; [|split].
          -- intros k v Hin.
             apply jm_set_elem in Hin as [[-> ->]|Hin]; [|by apply Hcache].
             right. exists t. by rewrite Hcall.
          -- rewrite jm_set_new by done. unfold jm_keys in *.
             by rewrite fmap_app, Hkeys.
          -- intros timeMinutes isochrone. rewrite jm_get_set.
             destruct (decide (t = timeMinutes)) as [<-|Hne]; [|apply Hiso].
             intros [= <-]. right. by rewrite Hcall. }
  destruct (Hgen (timesToCalculate_NoDup rounded)) as (_ & Hkeys & Hiso). by split.
Qed.
End IsochroneCacheFacts.

Lemma isochrone_effect_cache_bounded_witness :
  cache_inv
    (isochrone_effect (Polygon := unit) (λ _, "0.000000") pretty (λ _ _ _, Value None)
       (Some (example_office 0)) (Some example_network) 45 []).2.
Proof.
  apply isochrone_effect_cache_bounded; [done|].
  split; [apply NoDup_nil_2 | by intros key ?%elem_of_nil | simpl; lia].
Defined.

Lemma isochrone_effect_throw_grows_witness :
  isochrone_effect (λ _, "0.000000") (λ _, "15") (λ _ _ _, Throws)
    (Some (example_office 0)) (Some example_network) 20 full_cache
    = ([(15, None)],
       full_cache ++
       [(cacheKey (λ _, "0.000000") (λ _, "15") (example_office 0) 15, None)]) ∧
  length (isochrone_effect (λ _, "0.000000") (λ _, "15") (λ _ _ _, Throws)
            (Some (example_office 0)) (Some example_network) 20 full_cache).2
    = S (length full_cache).
Proof. apply isochrone_effect_throw_grows; [lia | vm_compute; reflexivity | reflexivity]. Defined.

Lemma isochrone_effect_isochrones_witness :
  jm_keys (isochrone_effect (Polygon := unit) (λ _, "0.000000") pretty
             (λ _ _ _, Value None) (Some (example_office 0)) (Some example_network)
             45 []).1
    = timesToCalculate 45 ∧
  ∀ timeMinutes isochrone,
    jm_get (isochrone_effect (Polygon := unit) (λ _, "0.000000") pretty
              (λ _ _ _, Value None) (Some (example_office 0)) (Some example_network)
              45 []).1 timeMinutes = Some isochrone →
    (cacheKey (λ _, "0.000000") pretty (example_office 0) timeMinutes, isochrone)
      ∈ ([] : JsMap string (option unit)) ∨
    isochrone = computed_polygon (λ _ _ _, Value None) (example_office 0)
                  example_network timeMinutes.
Proof.
  apply isochrone_effect_isochrones. intros t1 t2. apply (inj pretty).
Defined.

(** ** From the feed to the isochrone *)

Lemma preprocessGTFS_network_nonneg fs network :
  preprocessGTFS fs = Returned network → network_nonneg network.
Proof.
  intros Hrun e He.
  apply preprocessGTFS_edges in Hrun as (stp & ttr & tst & ett & Hcollect & Hagg).
  apply collectTravelTimes_inv in Hcollect.
  by destruct (aggregateEdges_plausible ett _ e Hcollect Hagg He).
Qed.

(** X30: on a network that the preprocessing returns, every search and
    every isochrone computation comes to an end: the travel times of its
    edges are not negative, so that the explicit bounds on the number of
    turns of the search loop apply, whatever the start stations, the office,
    the budget and the geometry library are. *)
Theorem preprocessGTFS_network_searchable (fs : string → option string)
    (network : ProcessedNetwork.t) :
  preprocessGTFS fs = Returned network →
  (∀ fuel startStations maxTimeSec,
     (search_fuel startStations maxTimeSec (buildGraph network) ≤ fuel)%nat →
     is_Some (findReachableStations fuel startStations maxTimeSec (buildGraph network))) ∧
  (∀ (turf_distance : Q * Q → Q * Q → Q) (Polygon : Type)
     (turf_buffer : Q * Q → Q → Polygon) (turf_union : list Polygon → option Polygon)
     fuel officeLocation maxTravelTimeSec walkDistanceMiles maxWalkDistanceMiles,
     (isochrone_fuel
        (findNearestStations turf_distance (GeocodeResult.latitude officeLocation)
           (GeocodeResult.longitude officeLocation)
           (ProcessedNetwork.stations network) maxWalkDistanceMiles)
        maxTravelTimeSec (buildGraph network) ≤ fuel)%nat →
     is_Some (createIsochrone turf_distance turf_buffer turf_union fuel officeLocation
                network maxTravelTimeSec walkDistanceMiles maxWalkDistanceMiles)).
Proof.
  intros Hrun. apply preprocessGTFS_network_nonneg in Hrun. split.
  - intros fuel startStations maxTimeSec Hfuel.
    apply findReachableStations_terminates; [by apply buildGraph_nonneg|done].
  - intros turf_distance Polygon turf_buffer turf_union fuel officeLocation
      maxTravelTimeSec walkDistanceMiles maxWalkDistanceMiles Hfuel.
    by apply createIsochrone_terminates.
Qed.

Lemma preprocessGTFS_network_searchable_witness :
  ∃ network, preprocessGTFS example_feed = Returned network ∧
  (∀ fuel startStations maxTimeSec,
     (search_fuel startStations maxTimeSec (buildGraph network) ≤ fuel)%nat →
     is_Some (findReachableStations fuel startStations maxTimeSec (buildGraph network))) ∧
  (∀ (turf_distance : Q * Q → Q * Q → Q) (Polygon : Type)
     (turf_buffer : Q * Q → Q → Polygon) (turf_union : list Polygon → option Polygon)
     fuel officeLocation maxTravelTimeSec walkDistanceMiles maxWalkDistanceMiles,
     (isochrone_fuel
        (findNearestStations turf_distance (GeocodeResult.latitude officeLocation)
           (GeocodeResult.longitude officeLocation)
           (ProcessedNetwork.stations network) maxWalkDistanceMiles)
        maxTravelTimeSec (buildGraph network) ≤ fuel)%nat →
     is_Some (createIsochrone turf_distance turf_buffer turf_union fuel officeLocation
                network maxTravelTimeSec walkDistanceMiles maxWalkDistanceMiles)).
Proof.
  eexists. split; [vm_compute; reflexivity|].
  apply (preprocessGTFS_network_searchable example_feed). vm_compute. reflexivity.
Defined.
